(** * sigmalite-ts: the detection engine, embedded and verified

    A shallow embedding of the detection-logic core of the TypeScript port
    of sigmalite: the search-atom compiler and the expression tree of
    [src/lib/eval.ts], and the detection builder and condition parser of
    the rule-parsing module.  JavaScript strings are sequences of UTF-16
    code units; exceptions are explicit outcomes; the builtins the code
    calls (regular expressions, base64, the IP address library) are
    modelled beside the code, each with the part of its behaviour that is
    covered stated where it is defined. *)

From Stdlib Require Import Ascii String.
From Stdlib Require Import List NArith ZArith Bool Lia Arith PeanoNat.
From Stdlib Require Import Permutation.
Import ListNotations.

Set Warnings "-register-all".

(* ===================================================================== *)
(** * JavaScript strings *)
(* ===================================================================== *)

Module JS.

(** A string is a sequence of UTF-16 code units. *)
Definition codeunit := N.
Definition jsstring := list codeunit.

Definition ch (a : ascii) : codeunit := N_of_ascii a.
Definition str (s : string) : jsstring := map N_of_ascii (list_ascii_of_string s).
Arguments ch a%_char.
Arguments str s%_string.

(** The double quote, written by its code. *)
Definition dquote : codeunit := 34%N.

Fixpoint streq (a b : jsstring) : bool :=
  match a, b with
  | [], [] => true
  | x :: a', y :: b' => N.eqb x y && streq a' b'
  | _, _ => false
  end.

(** [a < b] in code-unit order, the order of [Array.prototype.sort]. *)
Fixpoint strlt (a b : jsstring) : bool :=
  match a, b with
  | _, [] => false
  | [], _ :: _ => true
  | x :: a', y :: b' => N.ltb x y || (N.eqb x y && strlt a' b')
  end.

(** [Array.prototype.includes] on an array of strings. *)
Definition includes (l : list jsstring) (s : jsstring) : bool :=
  existsb (streq s) l.

(** [String.prototype.startsWith] / [endsWith]. *)
Fixpoint startsWith (s p : jsstring) : bool :=
  match p, s with
  | [], _ => true
  | y :: p', x :: s' => N.eqb x y && startsWith s' p'
  | _ :: _, [] => false
  end.

Definition endsWith (s p : jsstring) : bool := startsWith (rev s) (rev p).

(** [String.prototype.substring(a, b)]: both ends clamped to the length,
    and swapped when [a > b]. *)
Definition substring (s : jsstring) (a b : Z) : jsstring :=
  let len := Z.of_nat (length s) in
  let clamp x := Z.to_nat (Z.min (Z.max x 0) len) in
  let a' := clamp a in
  let b' := clamp b in
  let lo := Nat.min a' b' in
  let hi := Nat.max a' b' in
  firstn (hi - lo) (skipn lo s).

(** [Array.prototype.join]. *)
Fixpoint join (sep : jsstring) (l : list jsstring) : jsstring :=
  match l with
  | [] => []
  | [x] => x
  | x :: l' => x ++ sep ++ join sep l'
  end.

(** [String.prototype.split] on a separator of one code unit, given by the
    set it is taken from. *)
Fixpoint split_aux (sep : codeunit -> bool) (s acc : jsstring) : list jsstring :=
  match s with
  | [] => [rev acc]
  | c :: s' =>
      if sep c then rev acc :: split_aux sep s' []
      else split_aux sep s' (c :: acc)
  end.

Definition split (sep : codeunit -> bool) (s : jsstring) : list jsstring :=
  split_aux sep s [].

(** White space as [String.prototype.trimStart] and the class [\s] read it. *)
Definition isWhiteSpace (c : codeunit) : bool :=
  existsb (N.eqb c)
    [9; 10; 11; 12; 13; 32; 160; 5760; 8232; 8233; 8239; 8287; 12288; 65279]%N
  || (N.leb 8192 c && N.leb c 8202).

Fixpoint trimStart (s : jsstring) : jsstring :=
  match s with
  | c :: s' => if isWhiteSpace c then trimStart s' else s
  | [] => []
  end.

(** Records used as dictionaries ([Record<string, T>], [Map<string, T>]):
    own properties in enumeration order. *)
Definition dict (V : Type) := list (jsstring * V).

Fixpoint lookup {V} (d : dict V) (k : jsstring) : option V :=
  match d with
  | [] => None
  | (k', v) :: d' => if streq k' k then Some v else lookup d' k
  end.

(** [Map.prototype.set]: an existing key keeps its place. *)
Fixpoint Map_set {V} (d : dict V) (k : jsstring) (v : V) : dict V :=
  match d with
  | [] => [(k, v)]
  | (k', v') :: d' =>
      if streq k' k then (k', v) :: d' else (k', v') :: Map_set d' k v
  end.

End JS.
Import JS.

(* ===================================================================== *)
(** * Outcomes of a call *)
(* ===================================================================== *)

(** What the code can throw.  The text of a [SyntaxError] is the engine's. *)
Inductive exn :=
| SigmaError (message : jsstring)
| SigmaAggregationNotSupportedError
| SyntaxError (pattern : jsstring)
| TypeError.

(** A call returns, throws, or leaves the part of JavaScript modelled here
    ([Unmodelled]: a regular-expression construct outside the fragment of
    [RegExp.parse], a value of a type the TypeScript signature excludes,
    or a parse that needs more fuel than its input gives). *)
Inductive outcome (A : Type) :=
| Returns (a : A)
| Throws (e : exn)
| Unmodelled.
Arguments Returns {A} a.
Arguments Throws {A} e.
Arguments Unmodelled {A}.

Definition bind {A B} (m : outcome A) (k : A -> outcome B) : outcome B :=
  match m with
  | Returns a => k a
  | Throws e => Throws e
  | Unmodelled => Unmodelled
  end.

Notation "x <- m ;; k" := (bind m (fun x => k))
  (at level 61, m at next level, right associativity).

(** [Array.prototype.map] with a callback that can throw: left to right,
    stopping at the first exception. *)
Fixpoint mapM {A B} (f : A -> outcome B) (l : list A) : outcome (list B) :=
  match l with
  | [] => Returns []
  | a :: l' => b <- f a ;; bs <- mapM f l' ;; Returns (b :: bs)
  end.

(* ===================================================================== *)
(** * The builtin regular expressions *)
(* ===================================================================== *)

(** [new RegExp(source, flags)] and [RegExp.prototype.test], for patterns
    without the [u] flag (matching is by code unit).  The fragment covered:
    pattern characters, [.], [^], [$], escaped syntax characters, groups
    (capturing or [(?:...)]), alternation, and the quantifiers [*], [+],
    [?] with their lazy forms.  Character classes, braces, the other
    escapes and the other [(?...)] groups are [Unsupported]: the model says
    nothing about a pattern that uses one.  A pattern of the fragment has
    no back-reference and no look-around, so whether [test] finds a match
    does not depend on the order in which the engine backtracks: [test] is
    true exactly when some span of the input is in the pattern's language,
    assertions read at their positions. *)
Module RegExp.

Inductive regex :=
| Empty
| Char (c : codeunit)
| Dot
| LineStart
| LineEnd
| Seq (r1 r2 : regex)
| Disj (r1 r2 : regex)
| Star (r : regex).

Inductive chclass :=
| Backslash | OpenParen | CloseParen | Bar | Caret | Dollar | Period
| Asterisk | PlusSign | Question | Bracket | Plain.

(** The fourteen syntax characters of the pattern grammar. *)
Definition classify (c : codeunit) : chclass :=
  if N.eqb c (ch "\") then Backslash
  else if N.eqb c (ch "(") then OpenParen
  else if N.eqb c (ch ")") then CloseParen
  else if N.eqb c (ch "|") then Bar
  else if N.eqb c (ch "^") then Caret
  else if N.eqb c (ch "$") then Dollar
  else if N.eqb c (ch ".") then Period
  else if N.eqb c (ch "*") then Asterisk
  else if N.eqb c (ch "+") then PlusSign
  else if N.eqb c (ch "?") then Question
  else if N.eqb c (ch "[") || N.eqb c (ch "]")
          || N.eqb c (ch "{") || N.eqb c (ch "}") then Bracket
  else Plain.

Definition isSyntaxCharacter (c : codeunit) : bool :=
  match classify c with Plain => false | _ => true end.

(** The last term of the alternative being read: a quantifier needs an
    atom before it ([Atom]); a quantified atom takes at most the lazy mark
    ([Quantified]); an assertion or a lazily quantified atom takes nothing
    ([Closed]). *)
Inductive last_term :=
| NoTerm
| Atom (r : regex)
| Quantified (r : regex)
| Closed (r : regex).

(** A group being read: its finished alternatives (latest first), the
    terms of the current alternative before the last one, and the last. *)
Record frame := Frame {
  alts : list regex;
  before : regex;
  last : last_term
}.

Definition empty_frame : frame := Frame [] Empty NoTerm.

Definition flush (f : frame) : regex :=
  match last f with
  | NoTerm => before f
  | Atom r | Quantified r | Closed r => Seq (before f) r
  end.

Definition push (t : last_term) (f : frame) : frame :=
  Frame (alts f) (flush f) t.

Definition next_alternative (f : frame) : frame :=
  Frame (flush f :: alts f) Empty NoTerm.

Fixpoint disjunction (first : regex) (others : list regex) : regex :=
  match others with
  | [] => first
  | r :: others' => Disj first (disjunction r others')
  end.

Definition disjunction_of (alternatives : list regex) : regex :=
  match alternatives with
  | [] => Empty
  | r :: rs => disjunction r rs
  end.

(** The disjunction a finished group stands for, alternatives in the order
    they were written. *)
Definition close (f : frame) : regex :=
  disjunction_of (rev (flush f :: alts f)).

Inductive quantifier := QStar | QPlus | QOpt.

Definition quantify (q : quantifier) (r : regex) : regex :=
  match q with
  | QStar => Star r
  | QPlus => Seq r (Star r)
  | QOpt => Disj r Empty
  end.

Inductive parsed :=
| Ok (r : regex)
| Invalid
| Unsupported.

Definition apply_quantifier (q : quantifier) (f : frame) : option frame :=
  match last f with
  | Atom r => Some (Frame (alts f) (before f) (Quantified (quantify q r)))
  | Quantified r =>
      match q with
      | QOpt => Some (Frame (alts f) (before f) (Closed r))
      | _ => None
      end
  | NoTerm | Closed _ => None
  end.

(** One pass over the source, with the enclosing groups on a stack. *)
Fixpoint parse_from (input : jsstring) (stack : list frame) (top : frame)
  : parsed :=
  match input with
  | [] =>
      match stack with
      | [] => Ok (close top)
      | _ :: _ => Invalid
      end
  | c :: rest =>
      let quantified q :=
        match apply_quantifier q top with
        | Some top' => parse_from rest stack top'
        | None => Invalid
        end in
      match classify c with
      | Backslash =>
          match rest with
          | [] => Invalid
          | d :: rest' =>
              if isSyntaxCharacter d || N.eqb d (ch "/")
              then parse_from rest' stack (push (Atom (Char d)) top)
              else Unsupported
          end
      | OpenParen =>
          match rest with
          | q :: rest1 =>
              if N.eqb q (ch "?") then
                match rest1 with
                | k :: rest2 =>
                    if N.eqb k (ch ":")
                    then parse_from rest2 (top :: stack) empty_frame
                    else Unsupported
                | [] => Unsupported
                end
              else parse_from rest (top :: stack) empty_frame
          | [] => parse_from rest (top :: stack) empty_frame
          end
      | CloseParen =>
          match stack with
          | [] => Invalid
          | outer :: stack' =>
              parse_from rest stack' (push (Atom (close top)) outer)
          end
      | Bar => parse_from rest stack (next_alternative top)
      | Caret => parse_from rest stack (push (Closed LineStart) top)
      | Dollar => parse_from rest stack (push (Closed LineEnd) top)
      | Period => parse_from rest stack (push (Atom Dot) top)
      | Asterisk => quantified QStar
      | PlusSign => quantified QPlus
      | Question => quantified QOpt
      | Bracket => Unsupported
      | Plain => parse_from rest stack (push (Atom (Char c)) top)
      end
  end.

Definition parse (source : jsstring) : parsed :=
  parse_from source [] empty_frame.

(** ** Matching *)

Definition isLineTerminator (c : codeunit) : bool :=
  existsb (N.eqb c) [10; 13; 8232; 8233]%N.

Section Matching.

(** How a code unit is compared: the identity, or the engine's case
    folding under the flag [i]. *)
Variable canon : codeunit -> codeunit.
Variable s : jsstring.

(** The iterations of a starred term from position [i], each iteration
    moving forward. *)
Fixpoint star_ends (step : nat -> list nat) (fuel : nat) (i : nat) : list nat :=
  i :: match fuel with
       | O => []
       | S fuel' =>
           flat_map (star_ends step fuel') (filter (fun j => i <? j) (step i))
       end.

(** The positions at which a match of [r] that starts at [i] can end. *)
Fixpoint ends (r : regex) (i : nat) : list nat :=
  match r with
  | Empty => [i]
  | Char c =>
      match nth_error s i with
      | Some d => if N.eqb (canon d) (canon c) then [S i] else []
      | None => []
      end
  | Dot =>
      match nth_error s i with
      | Some d => if isLineTerminator d then [] else [S i]
      | None => []
      end
  | LineStart => if i =? 0 then [i] else []
  | LineEnd => if i =? length s then [i] else []
  | Seq r1 r2 => flat_map (ends r2) (ends r1 i)
  | Disj r1 r2 => ends r1 i ++ ends r2 i
  | Star r1 => star_ends (ends r1) (length s) i
  end.

Definition matches_at (r : regex) (i : nat) : bool :=
  match ends r i with
  | [] => false
  | _ :: _ => true
  end.

(** [test]: a match from some start position. *)
Definition test (r : regex) : bool :=
  existsb (matches_at r) (seq 0 (S (length s))).

End Matching.

End RegExp.

(* ===================================================================== *)
(** * The host *)
(* ===================================================================== *)

(** What the code takes from its platform and its libraries and this
    development leaves open: the Unicode tables, number formatting, the
    text of the engine's diagnostics, calendar arithmetic, and the
    [ip-address] package.  A constructor that throws is [None]. *)
Class Host := {
  toLowerCase : jsstring -> jsstring;
  Canonicalize : codeunit -> codeunit;
  SyntaxError_message : jsstring -> jsstring;
  number : Type;
  Number_toString : number -> jsstring;
  Number_truthy : number -> bool;
  Date_UTC : Z -> Z -> Z -> Z * Z * Z;
  Address4 : Type;
  Address6 : Type;
  Address4_new : jsstring -> option Address4;
  Address6_new : jsstring -> option Address6;
  isInSubnet4 : Address4 -> Address4 -> bool;
  isInSubnet6 : Address6 -> Address6 -> bool
}.

(** A [RegExp] object: the pattern and the flag [i]. *)
Record RegExpObject := {
  pattern : RegExp.regex;
  ignoreCase : bool
}.

Definition RegExp_new (source : jsstring) (i : bool) : outcome RegExpObject :=
  match RegExp.parse source with
  | RegExp.Ok r => Returns {| pattern := r; ignoreCase := i |}
  | RegExp.Invalid => Throws (SyntaxError source)
  | RegExp.Unsupported => Unmodelled
  end.

Definition RegExp_test `{Host} (r : RegExpObject) (s : jsstring) : bool :=
  RegExp.test (if ignoreCase r then Canonicalize else fun c => c) s (pattern r).

(** ** [Buffer]: UTF-8 and base64 *)
Module Buffer.

Local Open Scope N_scope.

Definition replacement : list N := [239; 191; 189].

(** [Buffer.from(s)]: the UTF-8 bytes of a string; a surrogate without its
    pair becomes U+FFFD. *)
Fixpoint from (s : jsstring) : list N :=
  match s with
  | [] => []
  | c :: s' =>
      if c <? 128 then c :: from s'
      else if c <? 2048 then [192 + c / 64; 128 + c mod 64] ++ from s'
      else if (55296 <=? c) && (c <=? 56319) then
        match s' with
        | d :: s'' =>
            if (56320 <=? d) && (d <=? 57343) then
              let cp := 65536 + (c - 55296) * 1024 + (d - 56320) in
              [240 + cp / 262144; 128 + (cp / 4096) mod 64;
               128 + (cp / 64) mod 64; 128 + cp mod 64] ++ from s''
            else replacement ++ from s'
        | [] => replacement
        end
      else if (56320 <=? c) && (c <=? 57343) then replacement ++ from s'
      else [224 + c / 4096; 128 + (c / 64) mod 64; 128 + c mod 64] ++ from s'
  end.

Definition alphabet : jsstring :=
  str "ABCDEFGHIJKLMNOPQRSTUVWXYZabcdefghijklmnopqrstuvwxyz0123456789+/".

Definition digit (n : N) : codeunit := nth (N.to_nat n) alphabet (ch "=").

(** [buf.toString('base64')]. *)
Fixpoint toString_base64 (b : list N) : jsstring :=
  match b with
  | [] => []
  | [x] => [digit (x / 4); digit ((x mod 4) * 16); ch "="; ch "="]
  | [x; y] =>
      [digit (x / 4); digit ((x mod 4) * 16 + y / 16);
       digit ((y mod 16) * 4); ch "="]
  | x :: y :: z :: b' =>
      [digit (x / 4); digit ((x mod 4) * 16 + y / 16);
       digit ((y mod 16) * 4 + z / 64); digit (z mod 64)]
      ++ toString_base64 b'
  end.

End Buffer.

(* ===================================================================== *)
(** * Evaluation: [src/lib/eval.ts] *)
(* ===================================================================== *)

(** [s.replace(/[.*+?^${}()|[\]\\]/g, '\\$&')] *)
Definition escapeRegex (s : jsstring) : jsstring :=
  flat_map
    (fun c =>
       if existsb (N.eqb c) (str ".*+?^${}()|[]\") then [ch "\"; c] else [c])
    s.

(** [s.replace(/\\X/g, by)] for a code unit [X]: every backslash followed
    by [X], left to right. *)
Fixpoint replace_escaped (X : codeunit) (by_ : jsstring) (s : jsstring)
  : jsstring :=
  match s with
  | [] => []
  | c :: s' =>
      match s' with
      | d :: s'' =>
          if N.eqb c (ch "\") && N.eqb d X
          then by_ ++ replace_escaped X by_ s''
          else c :: replace_escaped X by_ s'
      | [] => [c]
      end
  end.

Definition isWordChar (c : codeunit) : bool :=
  (N.leb (ch "a") c && N.leb c (ch "z"))
  || (N.leb (ch "A") c && N.leb c (ch "Z"))
  || (N.leb (ch "0") c && N.leb c (ch "9"))
  || N.eqb c (ch "_").

(** [input.replace(/\B[-/]\b/, dash)]: the first [-] or [/] that follows
    no word character and is followed by one. *)
Fixpoint replace_dash (afterWord : bool) (input dash : jsstring) : jsstring :=
  match input with
  | [] => []
  | c :: rest =>
      if (N.eqb c (ch "-") || N.eqb c (ch "/"))
         && negb afterWord
         && match rest with d :: _ => isWordChar d | [] => false end
      then dash ++ rest
      else c :: replace_dash (isWordChar c) rest dash
  end.

Definition windowsParamDashes : list jsstring :=
  [str "-"; str "/"; [8211%N]; [8212%N]; [8213%N]].

Definition windashPermute (input : jsstring) : list jsstring :=
  map (replace_dash false input) windowsParamDashes.

Definition base64Permute (input : jsstring) : list jsstring :=
  if (length input =? 0)%nat then []
  else
    let inputBytes := Buffer.from input in
    map
      (fun i =>
         let shifted := repeat (ch " ") i ++ inputBytes in
         let encoded := Buffer.toString_base64 shifted in
         let startOffset := nth i [0; 2; 3]%Z 0%Z in
         let endOffset :=
           nth ((length inputBytes + i) mod 3) [0; -3; -2]%Z 0%Z in
         substring encoded startOffset
           (Z.of_nat (length encoded) + endOffset)%Z)
      [0; 1; 2]%nat.

(** ** The expression tree *)

Inductive Expr :=
| NamedExpr (name : jsstring) (x : Expr)
| NotExpr (x : Expr)
| AndExpr (x : list Expr)
| OrExpr (x : list Expr)
| SearchAtom (field : option jsstring) (modifiers patterns : list jsstring).

Record LogEntry := {
  message : jsstring;
  fields : dict jsstring
}.

Record MatchOptions := {
  placeholders : option (dict (list jsstring))
}.

(** The value [validate] returns when it does not return [null]. *)
Record Error := { Error_message : jsstring }.

Inductive patternType := glob | re | cidr.

(** [!this.field] *)
Definition noField (field : option jsstring) : bool :=
  match field with
  | None | Some [] => true
  | Some (_ :: _) => false
  end.

Section Eval.

Context {H : Host}.

(** ** [SearchAtom.validate] *)

(** The loop over [this.modifiers], from index [i]: the pattern type and
    the [expand] flag it ends with, or the error it returns. *)
Fixpoint validate_modifiers (patterns : list jsstring)
  (modifiers : list jsstring) (i : nat) (pt : patternType) (expand : bool)
  : Error + patternType * bool :=
  match modifiers with
  | [] => inr (pt, expand)
  | mod_ :: rest =>
      if streq mod_ (str "re") then
        validate_modifiers patterns rest (S i) re expand
      else if streq mod_ (str "cidr") then
        validate_modifiers patterns rest (S i) cidr expand
      else if includes
                [str "contains"; str "all"; str "startswith"; str "endswith";
                 str "windash"; str "base64"; str "base64offset"] mod_ then
        validate_modifiers patterns rest (S i) pt expand
      else if streq mod_ (str "expand") then
        if negb (i =? 0) then
          inl {| Error_message := str "expand can only be the first modifier" |}
        else
          match
            find (fun placeholder =>
                    negb (startsWith placeholder (str "%"))
                    || negb (endsWith placeholder (str "%")))
                 patterns
          with
          | Some placeholder =>
              inl {| Error_message :=
                       str "placeholder " ++ [dquote] ++ placeholder
                       ++ [dquote] ++ str " must start and end with '%'" |}
          | None => validate_modifiers patterns rest (S i) pt true
          end
      else
        inl {| Error_message :=
                 str "unknown modifier " ++ [dquote] ++ mod_ ++ [dquote] |}
  end.

(** [for (const pat of this.patterns) { try { new RegExp(pat); } catch ... }] *)
Fixpoint validate_re (patterns : list jsstring) : outcome (option Error) :=
  match patterns with
  | [] => Returns None
  | pat :: rest =>
      match RegExp_new pat false with
      | Returns _ => validate_re rest
      | Throws _ =>
          Returns (Some {| Error_message :=
                             str "pattern " ++ pat ++ str ": "
                             ++ SyntaxError_message pat |})
      | Unmodelled => Unmodelled
      end
  end.

(** [try { new Address4(pat) } catch { try { new Address6(pat) } catch ... }] *)
Fixpoint validate_cidr (patterns : list jsstring) : option Error :=
  match patterns with
  | [] => None
  | pat :: rest =>
      match Address4_new pat with
      | Some _ => validate_cidr rest
      | None =>
          match Address6_new pat with
          | Some _ => validate_cidr rest
          | None =>
              Some {| Error_message :=
                        str "pattern " ++ pat ++ str ": not a valid CIDR" |}
          end
      end
  end.

Definition validate (modifiers patterns : list jsstring)
  : outcome (option Error) :=
  if (length patterns =? 0)%nat then
    Returns (Some {| Error_message := str "no patterns" |})
  else
    match validate_modifiers patterns modifiers 0 glob false with
    | inl err => Returns (Some err)
    | inr (pt, expand) =>
        if negb expand then
          match pt with
          | re => validate_re patterns
          | cidr => Returns (validate_cidr patterns)
          | glob => Returns None
          end
        else Returns None
    end.

(** ** [SearchAtom._expandPatterns] *)

Definition _expandPatterns (modifiers patterns : list jsstring)
  (placeholders : option (dict (list jsstring))) : list jsstring :=
  if includes modifiers (str "expand") then
    fold_left
      (fun acc placeholder =>
         let name :=
           substring placeholder 1 (Z.of_nat (length placeholder) - 1) in
         match placeholders with
         | Some table =>
             match lookup table name with
             | Some values => acc ++ values
             | None => acc
             end
         | None => acc
         end)
      patterns []
  else patterns.

(** ** [SearchAtom._compile] *)

(** The networks of the pattern list, each in the family it parses in. *)
Definition cidrMatchers (patterns : list jsstring)
  : list (Address4 + Address6) :=
  flat_map
    (fun p =>
       match Address4_new p with
       | Some c => [inl c]
       | None =>
           match Address6_new p with
           | Some c => [inr c]
           | None => []
           end
       end)
    patterns.

Definition cidr_matches (matchers : list (Address4 + Address6)) (s : jsstring)
  : bool :=
  match Address4_new s with
  | Some addr =>
      existsb
        (fun c => match c with inl c4 => isInSubnet4 addr c4 | inr _ => false end)
        matchers
  | None =>
      match Address6_new s with
      | Some addr =>
          existsb
            (fun c =>
               match c with inr c6 => isInSubnet6 addr c6 | inl _ => false end)
            matchers
      | None => false
      end
  end.

Definition processPattern (field : option jsstring) (modifiers : list jsstring)
  (pattern : jsstring) : jsstring :=
  if includes modifiers (str "re") then
    str "(?:" ++ pattern ++ str ")"
  else if includes modifiers (str "base64offset") then
    str "(?:" ++ join (str "|") (base64Permute pattern) ++ str ")"
  else
    let p :=
      if includes modifiers (str "base64")
      then Buffer.toString_base64 (Buffer.from pattern)
      else pattern in
    let p :=
      if includes modifiers (str "windash") then
        str "(?:" ++ join (str "|") (map escapeRegex (windashPermute p))
        ++ str ")"
      else
        replace_escaped (ch "?") (str ".")
          (replace_escaped (ch "*") (str ".*") (escapeRegex p)) in
    let contains := includes modifiers (str "contains") in
    let prefix :=
      if noField field || contains || includes modifiers (str "endswith")
      then [] else str "^" in
    let suffix :=
      if noField field || contains || includes modifiers (str "startswith")
      then [] else str "$" in
    prefix ++ str "(?:" ++ p ++ str ")" ++ suffix.

(** The matcher [_compile] returns ([compiled.matches]), as the method
    computes it when the cache does not answer. *)
Definition _compile (field : option jsstring) (modifiers : list jsstring)
  (patterns : list jsstring) : outcome (jsstring -> bool) :=
  if includes modifiers (str "cidr") then
    let matchers := cidrMatchers patterns in
    Returns (cidr_matches matchers)
  else if includes modifiers (str "all") then
    regexes <-
      mapM (fun pat => RegExp_new (processPattern field modifiers pat) true)
           patterns ;;
    Returns (fun s => forallb (fun r => RegExp_test r s) regexes)
  else
    let combined :=
      join (str "|") (map (processPattern field modifiers) patterns) in
    r <- RegExp_new combined true ;;
    Returns (RegExp_test r).

(** ** The memo cell [_compiledCache] *)

(** What the key is the JSON text of: the patterns, the modifiers and the
    field.  Two keys are the same text exactly when they are the same
    triple. *)
Definition cacheKey : Type :=
  list jsstring * list jsstring * option jsstring.

Fixpoint list_streq (a b : list jsstring) : bool :=
  match a, b with
  | [], [] => true
  | x :: a', y :: b' => streq x y && list_streq a' b'
  | _, _ => false
  end.

Definition key_eqb (k k' : cacheKey) : bool :=
  let '(patterns, modifiers, field) := k in
  let '(patterns', modifiers', field') := k' in
  list_streq patterns patterns'
  && list_streq modifiers modifiers'
  && match field, field' with
     | None, None => true
     | Some f, Some f' => streq f f'
     | _, _ => false
     end.

Record CompiledCache := {
  key : cacheKey;
  compiled : jsstring -> bool
}.

(** [_compile] as the method is written, with the cell of its atom passed
    in and out: a hit returns the stored matcher, a miss compiles and
    stores, and a throw leaves the cell as it was. *)
Definition _compile_cached (field : option jsstring)
  (modifiers : list jsstring) (cache : option CompiledCache)
  (patterns : list jsstring)
  : option CompiledCache * outcome (jsstring -> bool) :=
  let k := (patterns, modifiers, field) in
  let miss :=
    match _compile field modifiers patterns with
    | Returns matcher =>
        (Some {| key := k; compiled := matcher |}, Returns matcher)
    | Throws e => (cache, Throws e)
    | Unmodelled => (cache, Unmodelled)
    end in
  match cache with
  | Some c => if key_eqb (key c) k then (cache, Returns (compiled c)) else miss
  | None => miss
  end.

(** ** [exprMatches] *)

(** The loop over [entry.fields]: the value of the first key equal to the
    field name when both are put in lower case, or the empty string. *)
Fixpoint fieldContentOf (lowerCaseField : jsstring) (fs : dict jsstring)
  : jsstring :=
  match fs with
  | [] => []
  | (key, value) :: rest =>
      if streq (toLowerCase key) lowerCaseField then value
      else fieldContentOf lowerCaseField rest
  end.

Definition SearchAtom_exprMatches (field : option jsstring)
  (modifiers patterns : list jsstring) (entry : LogEntry)
  (opts : option MatchOptions) : outcome bool :=
  err <- validate modifiers patterns ;;
  match err with
  | Some _ => Returns false
  | None =>
      let fieldContent :=
        match field with
        | None | Some [] => message entry
        | Some f => fieldContentOf (toLowerCase f) (fields entry)
        end in
      let patterns' :=
        _expandPatterns modifiers patterns
          (match opts with Some o => placeholders o | None => None end) in
      if (length patterns' =? 0)%nat then Returns false
      else
        compiled <- _compile field modifiers patterns' ;;
        Returns (compiled fieldContent)
  end.

Fixpoint exprMatches (e : Expr) (entry : LogEntry) (opts : option MatchOptions)
  : outcome bool :=
  match e with
  | NamedExpr _ x => exprMatches x entry opts
  | NotExpr x => b <- exprMatches x entry opts ;; Returns (negb b)
  | AndExpr xs =>
      (fix every (xs : list Expr) : outcome bool :=
         match xs with
         | [] => Returns true
         | expr :: rest =>
             b <- exprMatches expr entry opts ;;
             if b then every rest else Returns false
         end) xs
  | OrExpr xs =>
      (fix some (xs : list Expr) : outcome bool :=
         match xs with
         | [] => Returns false
         | expr :: rest =>
             b <- exprMatches expr entry opts ;;
             if b then Returns true else some rest
         end) xs
  | SearchAtom field modifiers patterns =>
      SearchAtom_exprMatches field modifiers patterns entry opts
  end.

End Eval.

(* ===================================================================== *)
(** * Rule parsing *)
(* ===================================================================== *)

(** ** [SigmaDate] *)

Record SigmaDate := {
  year : Z;
  month : Z;
  day : Z
}.

Definition isDigit (c : codeunit) : bool :=
  N.leb (ch "0") c && N.leb c (ch "9").

Fixpoint digits_value (s : jsstring) (acc : Z) : Z :=
  match s with
  | c :: s' =>
      if isDigit c then digits_value s' (10 * acc + Z.of_N (c - ch "0"))%Z
      else acc
  | [] => acc
  end.

(** [parseInt(s, 10)]: white space, a sign, the leading digits; [None] is
    [NaN]. *)
Definition parseInt (s : jsstring) : option Z :=
  let s := trimStart s in
  let '(sign, s) :=
    match s with
    | c :: s' =>
        if N.eqb c (ch "-") then ((-1)%Z, s')
        else if N.eqb c (ch "+") then (1%Z, s')
        else (1%Z, s)
    | [] => (1%Z, s)
    end in
  match s with
  | c :: _ => if isDigit c then Some (sign * digits_value s 0)%Z else None
  | [] => None
  end.

(** [String(n)] for an integer below 10^21. *)
Fixpoint decimal_digits (fuel : nat) (n : N) (acc : jsstring) : jsstring :=
  match fuel with
  | O => acc
  | S fuel' =>
      let acc' := (ch "0" + n mod 10)%N :: acc in
      if (n <? 10)%N then acc' else decimal_digits fuel' (n / 10)%N acc'
  end.

Definition decimal (z : Z) : jsstring :=
  let n := Z.abs_N z in
  (if (z <? 0)%Z then str "-" else [])
  ++ decimal_digits (S (N.to_nat (N.log2 n))) n [].

(** [String.prototype.padStart(n, fill)] with a fill of one code unit. *)
Definition padStart (s : jsstring) (n : nat) (fill : codeunit) : jsstring :=
  repeat fill (n - length s) ++ s.

(** [equals] and [toString]: the three fields compared, and written as
    [YYYY/MM/DD]. *)
Definition SigmaDate_equals (a b : SigmaDate) : bool :=
  (year a =? year b)%Z && (month a =? month b)%Z && (day a =? day b)%Z.

Definition SigmaDate_toString (d : SigmaDate) : jsstring :=
  padStart (decimal (year d)) 4 (ch "0") ++ str "/"
  ++ padStart (decimal (month d)) 2 (ch "0") ++ str "/"
  ++ padStart (decimal (day d)) 2 (ch "0").

Section Parse.

Context {H : Host}.

Definition SigmaDate_new (y m d : Z) : SigmaDate :=
  let '(y', m', d') := Date_UTC y m d in
  {| year := y'; month := m'; day := d' |}.

Definition SigmaDate_parse (s : jsstring) : outcome SigmaDate :=
  let parts := split (fun c => N.eqb c (ch "/") || N.eqb c (ch "-")) s in
  let failure what :=
    Throws (SigmaError (str "parse sigma date " ++ s ++ str ": " ++ what)) in
  match parts with
  | [p0; p1; p2] =>
      match parseInt p0, parseInt p1, parseInt p2 with
      | Some year, Some month, Some day =>
          if (year <? 100)%Z then failure (str "short years not allowed")
          else if (month <? 1)%Z || (12 <? month)%Z then
            failure (str "invalid month " ++ decimal month)
          else if (day <? 1)%Z || (31 <? day)%Z then
            failure (str "invalid day " ++ decimal day)
          else Returns (SigmaDate_new year month day)
      | _, _, _ => failure (str "invalid date component")
      end
  | _ => failure (str "unknown format")
  end.

(** ** Decoded YAML *)

(** What [YAML.parse] returns: scalars, sequences, and mappings with their
    keys in enumeration order. *)
Inductive yaml :=
| YNull
| YBool (b : bool)
| YNum (n : number)
| YStr (s : jsstring)
| YSeq (items : list yaml)
| YMap (entries : list (jsstring * yaml)).

(** A property read off a value that may be [undefined] ([None]). *)
Definition truthy (v : option yaml) : bool :=
  match v with
  | None | Some YNull => false
  | Some (YBool b) => b
  | Some (YNum n) => Number_truthy n
  | Some (YStr s) => negb (length s =? 0)%nat
  | Some (YSeq _) | Some (YMap _) => true
  end.

(** [block[key]] on a decoded value that is not [null]: only a mapping has
    properties named by the keys read here. *)
Definition property (v : yaml) (key : jsstring) : option yaml :=
  match v with
  | YMap entries => lookup entries key
  | _ => None
  end.

Definition asString (v : yaml) : option jsstring :=
  match v with
  | YStr s => Some s
  | _ => None
  end.

Fixpoint allStrings (items : list yaml) : option (list jsstring) :=
  match items with
  | [] => Some []
  | YStr s :: rest =>
      match allStrings rest with
      | Some l => Some (s :: l)
      | None => None
      end
  | _ :: _ => None
  end.

Definition listOfStrings (raw : option yaml) : list jsstring :=
  match raw with
  | None | Some YNull => []
  | Some (YStr s) => [s]
  | Some (YSeq items) =>
      match allStrings items with
      | Some l => l
      | None => []
      end
  | Some _ => []
  end.

(** ** [parseSearchMap] *)

(** [String(v)] for a string, a number or a boolean; [None] for the rest. *)
Definition scalarString (v : yaml) : option jsstring :=
  match v with
  | YStr s => Some s
  | YNum n => Some (Number_toString n)
  | YBool true => Some (str "true")
  | YBool false => Some (str "false")
  | _ => None
  end.

Fixpoint allScalars (items : list yaml) : option (list jsstring) :=
  match items with
  | [] => Some []
  | v :: rest =>
      match scalarString v, allScalars rest with
      | Some s, Some l => Some (s :: l)
      | _, _ => None
      end
  end.

(** One turn of the loop over the keys of the map: the atom of a key. *)
Definition parseSearchKey (key : jsstring) (value : yaml) : outcome Expr :=
  let parts := split (N.eqb (ch "|")) key in
  let field := hd [] parts in
  let modifiers := tl parts in
  let unsupported :=
    Throws (SigmaError (key ++ str ": unsupported value")) in
  patterns <-
    match value with
    | YSeq items =>
        match allScalars items with
        | Some l => Returns l
        | None => unsupported
        end
    | _ =>
        match scalarString value with
        | Some s => Returns [s]
        | None => unsupported
        end
    end ;;
  err <- validate modifiers patterns ;;
  match err with
  | Some e => Throws (SigmaError (key ++ str ": " ++ Error_message e))
  | None => Returns (SearchAtom (Some field) modifiers patterns)
  end.

Definition parseSearchMap (node : list (jsstring * yaml)) : outcome Expr :=
  atoms <- mapM (fun kv => parseSearchKey (fst kv) (snd kv)) node ;;
  match atoms with
  | [] => Throws (SigmaError (str "empty map"))
  | [atom] => Returns atom
  | _ => Returns (AndExpr atoms)
  end.

(** ** [ConditionParser] *)

(** The values of the identifier table: [Map<string, NamedExpr>]. *)
Record NamedExprObject := {
  name_of : jsstring;
  expr_of : Expr
}.

Definition asExpr (n : NamedExprObject) : Expr :=
  NamedExpr (name_of n) (expr_of n).

Definition Identifiers := dict NamedExprObject.

Definition isDelim (c : codeunit) : bool :=
  existsb (N.eqb c) (str "()|").

(** [this.s.search(/[()|\s]/)], as the two sides of the position found. *)
Fixpoint word (s : jsstring) : jsstring * jsstring :=
  match s with
  | [] => ([], [])
  | c :: s' =>
      if isDelim c || isWhiteSpace c then ([], s)
      else let '(w, rest) := word s' in (c :: w, rest)
  end.

(** [lex]: the token, and [this.s] after the call. *)
Definition lex (s : jsstring) : jsstring * jsstring :=
  match trimStart s with
  | [] => ([], [])
  | c :: s' => if isDelim c then ([c], s') else word (c :: s')
  end.

Definition operatorPrecedence (tok : jsstring) : Z :=
  if streq tok (str "and") then 1
  else if streq tok (str "or") then 0
  else (-1).

(** The identifiers a quantifier selects, in the order of the table. *)
Definition filteredIdentifiers (identifiers : Identifiers) (pattern : jsstring)
  : outcome (list Expr) :=
  if streq pattern (str "them") then
    Returns (map (fun kv => asExpr (snd kv)) identifiers)
  else
    regex <-
      RegExp_new
        (str "^"
         ++ flat_map (fun c => if N.eqb c (ch "*") then str ".*" else [c]) pattern
         ++ str "$")
        false ;;
    Returns
      (map (fun kv => asExpr (snd kv))
           (filter (fun kv => RegExp_test regex (fst kv)) identifiers)).

(** [binaryTrail]'s two ways of joining [x] and [y]: a conjunction or a
    disjunction on the left takes one more child. *)
Definition joinOperands (op : jsstring) (x y : Expr) : Expr :=
  if streq op (str "and") then
    match x with
    | AndExpr xs => AndExpr (xs ++ [y])
    | _ => AndExpr [x; y]
    end
  else if streq op (str "or") then
    match x with
    | OrExpr xs => OrExpr (xs ++ [y])
    | _ => OrExpr [x; y]
    end
  else x.

(** [unary], [binaryTrail] and the inner loop of [binaryTrail] ([climb]),
    each taking [this.s] and returning it with its result.  Every call and
    every turn of a loop takes one unit of fuel. *)
Fixpoint unary (fuel : nat) (identifiers : Identifiers) (s : jsstring)
  : outcome (Expr * jsstring) :=
  match fuel with
  | O => Unmodelled
  | S fuel' =>
      let '(tok, s) := lex s in
      if streq tok [] then
        Throws (SigmaError (str "unexpected end of condition"))
      else if streq tok (str "(") then
        r <- (r <- unary fuel' identifiers s ;;
              binaryTrail fuel' identifiers (fst r) 0 (snd r)) ;;
        let '(x, s) := r in
        let '(closing, s) := lex s in
        if negb (streq closing (str ")")) then
          Throws (SigmaError (str "missing ')'"))
        else Returns (x, s)
      else if streq tok (str "not") then
        r <- unary fuel' identifiers s ;;
        Returns (NotExpr (fst r), snd r)
      else if streq tok (str "1") || streq tok (str "all") then
        let '(of_, s) := lex s in
        if negb (streq of_ (str "of")) then
          Throws (SigmaError (str "expected " ++ [dquote] ++ str "of"
                              ++ [dquote] ++ str " after " ++ [dquote] ++ tok
                              ++ [dquote]))
        else
          let '(pattern, s) := lex s in
          if streq pattern [] then
            Throws (SigmaError (str "expected word after " ++ [dquote] ++ tok
                                ++ str " of" ++ [dquote]))
          else
            filtered <- filteredIdentifiers identifiers pattern ;;
            match filtered with
            | [] =>
                Throws (SigmaError (tok ++ str " of " ++ pattern
                                    ++ str " did not match any identifiers"))
            | [only] => Returns (only, s)
            | _ =>
                if streq tok (str "1") then Returns (OrExpr filtered, s)
                else Returns (AndExpr filtered, s)
            end
      else
        match lookup identifiers tok with
        | None =>
            Throws (SigmaError (str "unknown search identifier " ++ tok))
        | Some identifier => Returns (asExpr identifier, s)
        end
  end

with binaryTrail (fuel : nat) (identifiers : Identifiers) (x : Expr)
  (minPrecedence : Z) (s : jsstring) : outcome (Expr * jsstring) :=
  match fuel with
  | O => Unmodelled
  | S fuel' =>
      let originalS := s in
      let '(op, s) := lex s in
      if streq op [] then Returns (x, s)
      else if streq op (str "|") then Throws SigmaAggregationNotSupportedError
      else
        let precedence := operatorPrecedence op in
        if (precedence <? minPrecedence)%Z then Returns (x, originalS)
        else
          r <- unary fuel' identifiers s ;;
          r <- climb fuel' identifiers (fst r) precedence (snd r) ;;
          binaryTrail fuel' identifiers (joinOperands op x (fst r)) minPrecedence
            (snd r)
  end

with climb (fuel : nat) (identifiers : Identifiers) (y : Expr)
  (precedence : Z) (s : jsstring) : outcome (Expr * jsstring) :=
  match fuel with
  | O => Unmodelled
  | S fuel' =>
      let nextOpS := s in
      let '(nextOp, s) := lex s in
      if streq nextOp [] then Returns (y, s)
      else
        let s := nextOpS in
        if (operatorPrecedence nextOp <=? precedence)%Z then Returns (y, s)
        else
          r <- binaryTrail fuel' identifiers y (precedence + 1) s ;;
          climb fuel' identifiers (fst r) precedence (snd r)
  end.

Definition expr (fuel : nat) (identifiers : Identifiers) (s : jsstring)
  : outcome (Expr * jsstring) :=
  r <- unary fuel identifiers s ;;
  binaryTrail fuel identifiers (fst r) 0 (snd r).

Definition parse (fuel : nat) (identifiers : Identifiers) (s : jsstring)
  : outcome Expr :=
  r <- expr fuel identifiers s ;;
  let '(tok, _) := lex (snd r) in
  if negb (streq tok []) then
    Throws (SigmaError (str "condition: unexpected " ++ [dquote] ++ tok
                        ++ [dquote]))
  else Returns (fst r).

(** Between two calls in a row at least one token is read, so no chain of
    calls is longer than twice the length of the condition. *)
Definition parseCondition (condition : jsstring) (identifiers : Identifiers)
  : outcome Expr :=
  parse (2 * length condition + 4) identifiers condition.

(** ** [parseDetection] *)

Record Detection := {
  expr_ : Expr
}.

(** [Array.prototype.sort] with the default comparison, on keys that are
    pairwise different. *)
Fixpoint insert_sorted (k : jsstring) (l : list jsstring) : list jsstring :=
  match l with
  | [] => [k]
  | k' :: l' => if strlt k' k then k' :: insert_sorted k l' else k :: l
  end.

Definition sort (l : list jsstring) : list jsstring :=
  fold_right insert_sorted [] l.

(** [e instanceof SearchAtom && !e.field && e.modifiers.length === 0] *)
Definition isKeyword (e : Expr) : bool :=
  match e with
  | SearchAtom field modifiers _ =>
      noField field && (length modifiers =? 0)%nat
  | _ => false
  end.

Definition patternsOf (e : Expr) : list jsstring :=
  match e with
  | SearchAtom _ _ patterns => patterns
  | _ => []
  end.

(** The body of the loop over the identifiers: the expression of one. *)
Definition parseIdentifier (id : jsstring) (value : yaml) : outcome Expr :=
  match value with
  | YSeq items =>
      exprs <-
        mapM
          (fun elem =>
             match elem with
             | YStr s => Returns (SearchAtom None [] [s])
             | YMap node => parseSearchMap node
             | _ =>
                 Throws (SigmaError (str "search identifier " ++ [dquote] ++ id
                                     ++ [dquote] ++ str ": unsupported list value"))
             end)
          items ;;
      match exprs with
      | [only] => Returns only
      | _ =>
          if forallb isKeyword exprs
          then Returns (SearchAtom None [] (flat_map patternsOf exprs))
          else Returns (OrExpr exprs)
      end
  | YMap node => parseSearchMap node
  | YStr s => Returns (SearchAtom None [] [s])
  | _ =>
      Throws (SigmaError (str "search identifier " ++ [dquote] ++ id
                          ++ [dquote] ++ str ": unsupported value"))
  end.

(** [Object.keys(block)]; a value that is not a mapping does not get this
    far, for want of a condition. *)
Definition keys (block : yaml) : list jsstring :=
  match block with
  | YMap entries => map fst entries
  | _ => []
  end.

(** The loop that fills the identifier table. *)
Fixpoint parseIdentifiers (block : yaml) (idKeys : list jsstring)
  (identifiers : Identifiers) : outcome Identifiers :=
  match idKeys with
  | [] => Returns identifiers
  | id :: rest =>
      match property block id with
      | Some value =>
          result <- parseIdentifier id value ;;
          parseIdentifiers block rest
            (Map_set identifiers id {| name_of := id; expr_of := result |})
      | None => Unmodelled
      end
  end.

Definition parseDetection (block : option yaml) : outcome Detection :=
  match block with
  | Some block' =>
      if negb (truthy block) then Throws (SigmaError (str "missing detection"))
      else
        let conditions := listOfStrings (property block' (str "condition")) in
        if (length conditions =? 0)%nat then
          Throws (SigmaError (str "missing detection condition"))
        else if truthy (property block' (str "timeframe")) then
          Throws SigmaAggregationNotSupportedError
        else
          let idKeys :=
            sort (filter (fun k => negb (streq k (str "condition"))
                                   && negb (streq k (str "timeframe")))
                         (keys block')) in
          identifiers <- parseIdentifiers block' idKeys [] ;;
          container <-
            mapM (fun cond => parseCondition cond identifiers) conditions ;;
          match container with
          | [only] => Returns {| expr_ := only |}
          | _ => Returns {| expr_ := OrExpr container |}
          end
  | None => Throws (SigmaError (str "missing detection"))
  end.

(** ** [parseRule] *)

Record Relation := {
  Relation_id : option yaml;
  Relation_type : option yaml
}.

Record Rule := {
  title : option yaml;
  id : option yaml;
  related : option (list Relation);
  status : option yaml;
  description : option yaml;
  references : option yaml;
  author : option yaml;
  date : option SigmaDate;
  modified : option SigmaDate;
  tags : option yaml;
  level : option yaml;
  logsource : option yaml;
  detection : Detection;
  fields_ : option yaml;
  falsepositives : list jsstring;
  extra : option (list (jsstring * yaml))
}.

Definition knownTopLevelKeys : list jsstring :=
  [str "title"; str "id"; str "related"; str "status"; str "description";
   str "references"; str "author"; str "date"; str "modified"; str "tags";
   str "level"; str "logsource"; str "detection"; str "fields";
   str "falsepositives"].

(** The loop over [yamlRule.related], from index [i]. *)
Fixpoint parseRelated (title : jsstring) (items : list yaml) (i : Z)
  : outcome (list Relation) :=
  match items with
  | [] => Returns []
  | rel :: rest =>
      let failure what :=
        Throws (SigmaError (str "parse sigma rule " ++ [dquote] ++ title
                            ++ [dquote] ++ str ": related[" ++ decimal i
                            ++ str "]: " ++ what)) in
      if negb (truthy (Some rel)) then parseRelated title rest (i + 1)
      else if negb (truthy (property rel (str "id"))) then
        failure (str "missing id")
      else if negb (truthy (property rel (str "type"))) then
        failure (str "missing type")
      else
        rels <- parseRelated title rest (i + 1) ;;
        Returns ({| Relation_id := property rel (str "id");
                    Relation_type := property rel (str "type") |} :: rels)
  end.

(** [v ? SigmaDate.parse(v) : undefined]; a value that is no string has no
    [split]. *)
Definition parseOptionalDate (v : option yaml) : outcome (option SigmaDate) :=
  if truthy v then
    match v with
    | Some (YStr s) => d <- SigmaDate_parse s ;; Returns (Some d)
    | _ => Throws TypeError
    end
  else Returns None.

(** [parseRule], from the document [YAML.parse] has decoded.  Reading
    [doc.title] off [null] is a [TypeError]; the loop over [related] is
    modelled for a sequence under a title that is a scalar. *)
Definition parseRule (doc : yaml) : outcome Rule :=
  match doc with
  | YNull => Throws TypeError
  | _ =>
      if negb (truthy (property doc (str "title"))) then
        Throws (SigmaError (str "parse sigma rule: missing title"))
      else
        detection_ <- parseDetection (property doc (str "detection")) ;;
        let extra_ :=
          match doc with
          | YMap entries =>
              filter (fun kv => negb (includes knownTopLevelKeys (fst kv)))
                     entries
          | _ => []
          end in
        related_ <-
          (if truthy (property doc (str "related")) then
             match property doc (str "related"),
                   option_map scalarString (property doc (str "title")) with
             | Some (YSeq items), Some (Some t) =>
                 rels <- parseRelated t items 0 ;; Returns (Some rels)
             | _, _ => Unmodelled
             end
           else Returns None) ;;
        date_ <- parseOptionalDate (property doc (str "date")) ;;
        modified_ <- parseOptionalDate (property doc (str "modified")) ;;
        Returns
          {| title := property doc (str "title");
             id := property doc (str "id");
             related := related_;
             status := property doc (str "status");
             description := property doc (str "description");
             references := property doc (str "references");
             author := property doc (str "author");
             date := date_;
             modified := modified_;
             tags := property doc (str "tags");
             level := property doc (str "level");
             logsource := property doc (str "logsource");
             detection := detection_;
             fields_ := property doc (str "fields");
             falsepositives :=
               listOfStrings (property doc (str "falsepositives"));
             extra :=
               match extra_ with
               | [] => None
               | _ => Some extra_
               end |}
  end.

End Parse.

(* ===================================================================== *)
(** * A reference host *)
(* ===================================================================== *)

(** A host to run the code on: Basic Latin and Latin-1 letters for the two
    case mappings, integers for numbers, the Gregorian calendar, and
    addresses in their plain written forms (dotted quads; colon-separated
    groups of hexadecimal digits with at most one [::]), each with an
    optional prefix length. *)
Module Reference.

Local Open Scope N_scope.

Definition lower (c : codeunit) : codeunit :=
  if ((65 <=? c) && (c <=? 90))
     || ((192 <=? c) && (c <=? 222) && negb (c =? 215))
  then c + 32 else c.

Definition upper (c : codeunit) : codeunit :=
  if ((97 <=? c) && (c <=? 122))
     || ((224 <=? c) && (c <=? 254) && negb (c =? 247))
  then c - 32 else c.

Definition isLeap (y : Z) : bool :=
  ((y mod 4 =? 0) && negb (y mod 100 =? 0) || (y mod 400 =? 0))%Z.

Definition daysInMonth (y m : Z) : Z :=
  if (m =? 2)%Z then (if isLeap y then 29 else 28)%Z
  else if ((m =? 4) || (m =? 6) || (m =? 9) || (m =? 11))%Z then 30%Z
  else 31%Z.

(** A day past the end of its month runs into the next one. *)
Definition normalize (y m d : Z) : Z * Z * Z :=
  if (daysInMonth y m <? d)%Z then (y, (m + 1)%Z, (d - daysInMonth y m)%Z)
  else (y, m, d).

(** One to [width] decimal digits and nothing else. *)
Definition number_of (width : nat) (s : jsstring) : option N :=
  if forallb isDigit s && (1 <=? length s)%nat && (length s <=? width)%nat
  then Some (Z.to_N (digits_value s 0))
  else None.

(** The prefix length written after the last [/], when there is one. *)
Definition split_prefix (bits : N) (s : jsstring)
  : option (jsstring * N) :=
  match split (N.eqb (ch "/")) s with
  | [addr] => Some (addr, bits)
  | [addr; p] =>
      match number_of (if bits =? 32 then 2%nat else 3%nat) p with
      | Some n => if n <=? bits then Some (addr, n) else None
      | None => None
      end
  | _ => None
  end.

Fixpoint groups_value (base : N) (groups : list N) (acc : N) : N :=
  match groups with
  | [] => acc
  | g :: rest => groups_value base rest (acc * base + g)
  end.

Fixpoint all_some {A} (l : list (option A)) : option (list A) :=
  match l with
  | [] => Some []
  | Some a :: l' => option_map (cons a) (all_some l')
  | None :: _ => None
  end.

(** An address: its value and its prefix length. *)
Definition address := (N * N)%type.

Definition parse4 (s : jsstring) : option address :=
  match split_prefix 32 s with
  | Some (addr, p) =>
      match all_some (map (number_of 3) (split (N.eqb (ch ".")) addr)) with
      | Some [a; b; c; d] =>
          if forallb (fun g => g <=? 255) [a; b; c; d]
          then Some (groups_value 256 [a; b; c; d] 0, p)
          else None
      | _ => None
      end
  | None => None
  end.

Definition hexDigit (c : codeunit) : option N :=
  if isDigit c then Some (c - ch "0")
  else if (ch "a" <=? c) && (c <=? ch "f") then Some (c - ch "a" + 10)
  else if (ch "A" <=? c) && (c <=? ch "F") then Some (c - ch "A" + 10)
  else None.

Definition hexGroup (s : jsstring) : option N :=
  if (1 <=? length s)%nat && (length s <=? 4)%nat
  then option_map (fun ds => groups_value 16 ds 0) (all_some (map hexDigit s))
  else None.

Definition hexGroups (s : jsstring) : option (list N) :=
  match s with
  | [] => Some []
  | _ => all_some (map hexGroup (split (N.eqb (ch ":")) s))
  end.

(** The two sides of the first [::] of a string, when it has one. *)
Fixpoint halves (s acc : jsstring) : option (jsstring * jsstring) :=
  match s with
  | c :: s' =>
      match s' with
      | d :: s'' =>
          if (c =? ch ":") && (d =? ch ":") then Some (rev acc, s'')
          else halves s' (c :: acc)
      | [] => None
      end
  | [] => None
  end.

Definition parse6 (s : jsstring) : option address :=
  match split_prefix 128 s with
  | Some (addr, p) =>
      match halves addr [] with
      | Some (before, after) =>
          match hexGroups before, hexGroups after with
          | Some l, Some r =>
              if (length l + length r <? 8)%nat then
                Some (groups_value 65536
                        (l ++ repeat 0 (8 - length l - length r) ++ r) 0, p)
              else None
          | _, _ => None
          end
      | None =>
          match hexGroups addr with
          | Some l =>
              if (length l =? 8)%nat then Some (groups_value 65536 l 0, p)
              else None
          | None => None
          end
      end
  | None => None
  end.

(** [this.isInSubnet(network)]: the network's prefix is no longer than
    this address's, and the two agree on it. *)
Definition inSubnet (bits : N) (this network : address) : bool :=
  (snd network <=? snd this)
  && (N.shiftr (fst this) (bits - snd network)
      =? N.shiftr (fst network) (bits - snd network)).

#[export] Instance host : Host := {|
  toLowerCase := map lower;
  Canonicalize := upper;
  SyntaxError_message := fun source =>
    str "Invalid regular expression: /" ++ source ++ str "/";
  number := Z;
  Number_toString := decimal;
  Number_truthy := fun n => negb (n =? 0)%Z;
  Date_UTC := normalize;
  Address4 := address;
  Address6 := address;
  Address4_new := parse4;
  Address6_new := parse6;
  isInSubnet4 := inSubnet 32;
  isInSubnet6 := inSubnet 128
|}.

End Reference.

(* ===================================================================== *)
(** * Notions the statements use *)
(* ===================================================================== *)

(** ** Sources and the patterns they are read as *)

Module Patterns.
Import RegExp.

(** A piece of source that the parser reads as a change [g] of the frame
    on top, whatever follows and whatever groups are open. *)
Definition reads (chunk : jsstring) (g : frame -> frame) : Prop :=
  forall rest stack top,
    parse_from (chunk ++ rest) stack top = parse_from rest stack (g top).

(** A change of the frame that adds terms to the current alternative. *)
Definition appends (g : frame -> frame) (terms : list regex) : Prop :=
  forall f, alts (g f) = alts f /\ flush (g f) = fold_left Seq terms (flush f).

(** The terms of a sequence, read from the start of an alternative. *)
Definition sequence (terms : list regex) : regex := fold_left Seq terms Empty.

(** Sources joined by [|], each read by its own change of the frame. *)
Fixpoint alternatives {A} (g : A -> frame -> frame) (l : list A) (f : frame)
  : frame :=
  match l with
  | [] => f
  | [a] => g a f
  | a :: l' => alternatives g l' (next_alternative (g a f))
  end.

(** What [escapeRegex] writes for one code unit. *)
Definition escaped (c : codeunit) : jsstring :=
  if existsb (N.eqb c) (str ".*+?^${}()|[]\") then [ch "\"; c] else [c].

(** After the first replacement: [\*] has become [.*]. *)
Definition star_source (c : codeunit) : jsstring :=
  if N.eqb c (ch "*") then str ".*" else escaped c.

(** What the glob branch of [processPattern] writes for one code unit of
    the pattern, and the term the parser reads it as. *)
Definition glob_source (c : codeunit) : jsstring :=
  if N.eqb c (ch "*") then str ".*"
  else if N.eqb c (ch "?") then str "."
  else escaped c.

Definition glob_atom (c : codeunit) : regex :=
  if N.eqb c (ch "*") then Star Dot
  else if N.eqb c (ch "?") then Dot
  else Char c.

Definition glob_term (c : codeunit) : last_term :=
  if N.eqb c (ch "*") then Quantified (Star Dot) else Atom (glob_atom c).

Definition starts_with (X : codeunit) (s : jsstring) : bool :=
  match s with
  | d :: _ => N.eqb d X
  | [] => false
  end.

(** The terms of a text pushed one after the other. *)
Definition push_all (term : codeunit -> last_term) (p : jsstring) (f : frame)
  : frame :=
  fold_left (fun f c => push (term c) f) p f.

(** The pattern of a glob, and of a text taken literally. *)
Definition glob_regex (p : jsstring) : regex := sequence (map glob_atom p).
Definition literal_regex (p : jsstring) : regex := sequence (map Char p).

(** The change of the frame one compiled pattern makes: its group between
    the anchors it is given. *)
Definition anchor_frame (open_start open_end : bool) (group : regex)
  (f : frame) : frame :=
  (if open_end then fun f => f else push (Closed LineEnd))
    (push (Atom group)
       ((if open_start then fun f => f else push (Closed LineStart)) f)).

Definition nonempty {A} (l : list A) : bool :=
  match l with
  | [] => false
  | _ :: _ => true
  end.

Definition anchored_terms (atStart atEnd : bool) (body : regex) : list regex :=
  (if atStart then [LineStart] else [])
  ++ [body]
  ++ (if atEnd then [LineEnd] else []).

Section Matching.

Variable canon : codeunit -> codeunit.
Variable s : jsstring.

(** A match of [body] from a position that is the start of the input when
    [atStart], to a position that is its end when [atEnd]. *)
Definition anchored_match (atStart atEnd : bool) (body : regex) : bool :=
  existsb
    (fun i =>
       (negb atStart || (i =? 0))
       && existsb (fun j => negb atEnd || (j =? length s)) (ends canon s body i))
    (seq 0 (S (length s))).

(** The text [p] stands in the input at position [i], code units compared
    through [canon]. *)
Definition text_at (p : jsstring) (i : nat) : bool :=
  streq (map canon (firstn (length p) (skipn i s))) (map canon p).

(** A text without wildcards occurs in the input, from its start when
    [atStart] and up to its end when [atEnd]. *)
Definition occurs (atStart atEnd : bool) (p : jsstring) : bool :=
  existsb
    (fun i =>
       (negb atStart || (i =? 0))
       && text_at p i
       && (negb atEnd || (i + length p =? length s)))
    (seq 0 (S (length s))).

End Matching.

(** A pattern in which no code unit is a wildcard. *)
Definition isLiteral (p : jsstring) : bool :=
  forallb (fun c => negb (N.eqb c (ch "*") || N.eqb c (ch "?"))) p.

End Patterns.

(** ** Atoms, trees and conditions *)

Section Notions.

Import RegExp Patterns.

Context {H : Host}.

(** The regular expression of the group that holds a pattern's text: the
    glob of the pattern, or with [windash] the alternatives of its dash
    variants, after the pattern is encoded when [base64] asks for it. *)
Definition text_regex (modifiers : list jsstring) (pattern : jsstring)
  : regex :=
  let p :=
    if includes modifiers (str "base64")
    then Buffer.toString_base64 (Buffer.from pattern)
    else pattern in
  if includes modifiers (str "windash")
  then sequence [disjunction_of (map literal_regex (windashPermute p))]
  else glob_regex p.

(** Whether a compiled pattern is held to the start, and to the end, of
    the value it is matched against. *)
Definition atStart (field : option jsstring) (modifiers : list jsstring)
  : bool :=
  negb (noField field || includes modifiers (str "contains")
        || includes modifiers (str "endswith")).

Definition atEnd (field : option jsstring) (modifiers : list jsstring)
  : bool :=
  negb (noField field || includes modifiers (str "contains")
        || includes modifiers (str "startswith")).

Definition pattern_frame (field : option jsstring)
  (modifiers : list jsstring) (pattern : jsstring) : frame -> frame :=
  anchor_frame
    (noField field || includes modifiers (str "contains")
     || includes modifiers (str "endswith"))
    (noField field || includes modifiers (str "contains")
     || includes modifiers (str "startswith"))
    (text_regex modifiers pattern).

(** What a pattern accepts: a span of the value in the language of its
    text, held to the ends of the value as the pattern is anchored. *)
Definition pattern_matches (field : option jsstring)
  (modifiers : list jsstring) (p : jsstring) (s : jsstring) : bool :=
  anchored_match Canonicalize s (atStart field modifiers)
    (atEnd field modifiers) (text_regex modifiers p).


(** A cell holds nothing, or the matcher [_compile] gives for its key. *)
Definition coherent (field : option jsstring) (modifiers : list jsstring)
  (cache : option CompiledCache) : Prop :=
  match cache with
  | None => True
  | Some c =>
      exists patterns,
        key c = (patterns, modifiers, field)
        /\ _compile field modifiers patterns = Returns (compiled c)
  end.

(** A code unit of a word, and a word the parser reads as the name of an
    identifier: not empty, without white space, parentheses or bars, and
    none of [not], [1] and [all]. *)
Definition isWordUnit (c : codeunit) : bool :=
  negb (isDelim c || isWhiteSpace c).

Definition isIdentifierToken (w : jsstring) : bool :=
  negb (length w =? 0)%nat
  && forallb isWordUnit w
  && negb (includes [str "not"; str "1"; str "all"] w).

(** What may follow a word: the end of the condition, white space, a
    parenthesis or a bar. *)
Definition atBoundary (rest : jsstring) : bool :=
  match rest with
  | [] => true
  | c :: _ => isDelim c || isWhiteSpace c
  end.

End Notions.

(** ** Notions of the further properties *)

(** *** Texts *)

(** [s'] is what is left of [s] after some of it is read, and after at
    least one code unit of it is read. *)
Definition suffix (s' s : jsstring) : Prop := exists pre, s = pre ++ s'.

Definition shorter (s' s : jsstring) : Prop :=
  exists pre, s = pre ++ s' /\ pre <> [].

(** The separators [SigmaDate.parse] splits on, and the two dashes
    [windashPermute] looks for. *)
Definition isDateSeparator (c : codeunit) : bool :=
  N.eqb c (ch "/") || N.eqb c (ch "-").

Definition isDash (c : codeunit) : bool :=
  N.eqb c (ch "-") || N.eqb c (ch "/").

(** A text without a line break, and a position of the input that holds a
    code unit that is none. *)
Definition noLineBreak (t : jsstring) : bool :=
  forallb (fun c => negb (RegExp.isLineTerminator c)) t.

Definition free (s : jsstring) (k : nat) : Prop :=
  exists d, nth_error s k = Some d /\ RegExp.isLineTerminator d = false.

(** What a pattern [p*q] without other wildcards asks of a value: [p] at
    its start, [q] at its end, and between them a run without a line
    break. *)
Definition spans (canon : codeunit -> codeunit) (p q v : jsstring) : bool :=
  Patterns.text_at canon v p 0
  && (length p + length q <=? length v)
  && Patterns.text_at canon v q (length v - length q)
  && noLineBreak (firstn (length v - length q - length p) (skipn (length p) v)).

(** *** base64 *)

(** Of the base64 text of [n] bytes, the digits that no byte after them
    changes; and the digits of a text that the [i] bytes before it take
    part in. *)
Definition digits_fixed (n : nat) : nat := 4 * (n / 3) + n mod 3.

Definition start_offset (i : nat) : nat := nth i [0; 2; 3] 0.

(** *** Modifiers and placeholders *)

(** The modifiers [validate] passes over without a test of their place or
    of the patterns, and those among them that leave the patterns globs. *)
Definition plainModifiers : list jsstring :=
  [str "re"; str "cidr"; str "contains"; str "all"; str "startswith";
   str "endswith"; str "windash"; str "base64"; str "base64offset"].




(** The texts a pattern stands for under [base64] and [windash]: the
    pattern, encoded when [base64] asks for it, and with [windash] each of
    its dash variants. *)
Definition textsOf (modifiers : list jsstring) (pattern : jsstring)
  : list jsstring :=
  let p :=
    if includes modifiers (str "base64")
    then Buffer.toString_base64 (Buffer.from pattern)
    else pattern in
  if includes modifiers (str "windash") then windashPermute p else [p].

(** *** Trees *)

(** The atoms of a tree, left to right: field, modifiers and patterns. *)
Fixpoint atomsOf (e : Expr)
  : list (option jsstring * list jsstring * list jsstring) :=
  match e with
  | NamedExpr _ x | NotExpr x => atomsOf x
  | AndExpr xs | OrExpr xs => flat_map atomsOf xs
  | SearchAtom field modifiers patterns => [(field, modifiers, patterns)]
  end.

Section TreeNotions.

Variable P : option jsstring * list jsstring * list jsstring -> Prop.

(** A tree, and a table of identifiers, all of whose atoms have [P]. *)
Definition built (e : Expr) : Prop := Forall P (atomsOf e).

Definition tableBuilt (ids : Identifiers) : Prop :=
  Forall (fun kv => built (expr_of (snd kv))) ids.

End TreeNotions.

Section RuleNotions.

Context {H : Host}.

(** An atom that [validate] accepts, and a tree of such atoms. *)
Definition validates (atom : option jsstring * list jsstring * list jsstring)
  : Prop :=
  validate (snd (fst atom)) (snd atom) = Returns None.

Definition validTree (e : Expr) : Prop := built validates e.

(** The fields of an entry with their keys in lower case. *)
Definition foldedKeys (fs : dict jsstring) : dict jsstring :=
  map (fun kv => (toLowerCase (fst kv), snd kv)) fs.

(** An entry of [related] that has its [id] and its [type], and the
    relation it is read as. *)
Definition isRelation (rel : yaml) : bool :=
  truthy (property rel (str "id")) && truthy (property rel (str "type")).

Definition asRelation (rel : yaml) : Relation :=
  {| Relation_id := property rel (str "id");
     Relation_type := property rel (str "type") |}.

End RuleNotions.

(** *** Conditions *)

Definition isOperator (op : jsstring) : bool :=
  streq op (str "and") || streq op (str "or").

(** The node an operator builds. *)
Definition node (op : jsstring) (xs : list Expr) : Expr :=
  if streq op (str "and") then AndExpr xs else OrExpr xs.

(** An operand: a word with the identifier the table gives it. *)
Definition isOperand (identifiers : Identifiers)
  (o : jsstring * NamedExprObject) : Prop :=
  isIdentifierToken (fst o) = true /\ lookup identifiers (fst o) = Some (snd o).

Definition operandOf (o : jsstring * NamedExprObject) : Expr := asExpr (snd o).

(** What follows the first operand of a chain. *)
Definition chained (op : jsstring) (operands : list (jsstring * NamedExprObject))
  : jsstring :=
  flat_map (fun o => str " " ++ op ++ str " " ++ fst o) operands.

(** A code unit that starts no escape and no character class or braced
    quantifier: the quantifier patterns made of such code units are in the
    fragment of the pattern grammar that [RegExp.parse] models. *)
Definition isModelledUnit (c : codeunit) : bool :=
  match RegExp.classify c with
  | RegExp.Backslash | RegExp.Bracket => false
  | _ => true
  end.

Definition isModelled (s : jsstring) : bool := forallb isModelledUnit s.

Section ParserNotions.

Variable P : option jsstring * list jsstring * list jsstring -> Prop.

(** A call that has no result in the model: the fuel does not cover the
    condition left, or the condition leaves the modelled fragment. *)
Definition stuck (fuel : nat) (s : jsstring) : Prop :=
  fuel <= length s \/ isModelled s = false.

(** What the three functions of the parser keep: the tree they return is
    built from atoms with [P], and the condition they leave is what is left
    of the one they were given. *)
Definition unary_ok (fuel : nat) (s : jsstring)
  (r : outcome (Expr * jsstring)) : Prop :=
  match r with
  | Returns (e, s') => built P e /\ shorter s' s
  | Throws _ => True
  | Unmodelled => stuck fuel s
  end.

Definition binaryTrail_ok (fuel : nat) (m : Z) (s : jsstring)
  (r : outcome (Expr * jsstring)) : Prop :=
  match r with
  | Returns (e, s') =>
      built P e /\ suffix s' s
      /\ (forall op s1,
             lex s = (op, s1) -> op <> [] ->
             (m <= operatorPrecedence op)%Z -> shorter s' s)
  | Throws _ => True
  | Unmodelled => stuck fuel s
  end.

Definition climb_ok (fuel : nat) (s : jsstring)
  (r : outcome (Expr * jsstring)) : Prop :=
  match r with
  | Returns (e, s') => built P e /\ suffix s' s
  | Throws _ => True
  | Unmodelled => stuck (pred fuel) s
  end.

End ParserNotions.

(** *** Atoms that keep evaluation from throwing *)



(** A table with an identifier named [all]. *)
Definition table_with_all : Identifiers :=
  [(str "all", {| name_of := str "all";
                  expr_of := SearchAtom None [] [str "x"] |})].

(** Case analysis on the tests of a code unit against constants. *)
Ltac code_unit_cases c :=
  repeat match goal with
         | |- context [N.eqb c ?k] =>
             destruct (N.eqb_spec c k); [subst c|]
         end.

(* ===================================================================== *)
(** * Properties *)
(* ===================================================================== *)

(** ** Strings *)

Lemma streq_spec (a b : jsstring) : reflect (a = b) (streq a b).
Proof.
  revert b; induction a as [|x a IH]; intros [|y b]; simpl;
    try (constructor; congruence).
  destruct (N.eqb_spec x y) as [->|Hxy]; simpl.
  - destruct (IH b) as [->|Hab]; constructor; congruence.
  - constructor; congruence.
Qed.

Lemma streq_refl (a : jsstring) : streq a a = true.
Proof. destruct (streq_spec a a); congruence. Qed.

Lemma streq_true {a b : jsstring} : streq a b = true -> a = b.
Proof. destruct (streq_spec a b); congruence. Qed.

Lemma streq_false {a b : jsstring} : a <> b -> streq a b = false.
Proof. destruct (streq_spec a b); congruence. Qed.

Lemma existsb_of_map {A B} (f : A -> B) (p : B -> bool) (l : list A) :
  existsb p (map f l) = existsb (fun a => p (f a)) l.
Proof. induction l as [|a l IH]; [reflexivity|]. cbn. rewrite IH. reflexivity. Qed.

Lemma forallb_of_map {A B} (f : A -> B) (p : B -> bool) (l : list A) :
  forallb p (map f l) = forallb (fun a => p (f a)) l.
Proof. induction l as [|a l IH]; [reflexivity|]. cbn. rewrite IH. reflexivity. Qed.

Lemma forallb_pointwise {A} (f g : A -> bool) (l : list A) :
  (forall a, f a = g a) -> forallb f l = forallb g l.
Proof.
  intros E; induction l as [|a l IH]; [reflexivity|].
  cbn [forallb]. rewrite E, IH. reflexivity.
Qed.

Lemma bind_Returns {A B} (m : outcome A) (k : A -> outcome B) (b : B) :
  bind m k = Returns b -> exists a, m = Returns a /\ k a = Returns b.
Proof. destruct m; simpl; intros E; try discriminate; eauto. Qed.

(** ** The condition parser *)

Section ConditionParserFacts.

Context {H : Host}.

(** C10.  In [unary], a token [1] or [all] that is not followed by the
    token [of] makes the parse fail with a [SigmaError], whatever the
    identifier table holds: an identifier named [all] or [1] is never
    looked up.  A condition that starts with such a token fails as a
    whole. *)
Theorem unary_quantifier_words_reserved
  (identifiers : Identifiers) (fuel : nat) (s tok rest next rest' : jsstring) :
  lex s = (tok, rest) ->
  tok = str "1" \/ tok = str "all" ->
  lex rest = (next, rest') ->
  next <> str "of" ->
  let failure :=
    SigmaError (str "expected " ++ [dquote] ++ str "of" ++ [dquote]
                ++ str " after " ++ [dquote] ++ tok ++ [dquote]) in
  unary (S fuel) identifiers s = Throws failure
  /\ parseCondition s identifiers = Throws failure.
Proof.
  intros Hlex Htok Hnext Hof failure.
  assert (Hu : forall n, unary (S n) identifiers s = Throws failure).
  { intros n. simpl. rewrite Hlex.
    destruct Htok as [-> | ->]; simpl; rewrite Hnext;
      rewrite (streq_false Hof); reflexivity. }
  split; [apply Hu|].
  unfold parseCondition, parse, expr.
  replace (2 * length s + 4) with (S (2 * length s + 3)) by lia.
  rewrite Hu. reflexivity.
Qed.

Lemma word_token w rest :
  forallb isWordUnit w = true -> atBoundary rest = true ->
  word (w ++ rest) = (w, rest).
Proof.
  intros Hw Hr. induction w as [|c w IH].
  - destruct rest as [|d rest]; [reflexivity|]. cbn [app word].
    cbn [atBoundary] in Hr. rewrite Hr. reflexivity.
  - cbn [forallb] in Hw. apply andb_prop in Hw. destruct Hw as [Hc Hw].
    cbn [app word]. unfold isWordUnit in Hc.
    apply negb_true_iff in Hc. rewrite Hc, (IH Hw). reflexivity.
Qed.

Lemma lex_token w rest :
  negb (length w =? 0)%nat = true ->
  forallb isWordUnit w = true -> atBoundary rest = true ->
  lex (w ++ rest) = (w, rest).
Proof.
  intros Hn Hw Hr. destruct w as [|c w]; [discriminate|].
  pose proof (word_token (c :: w) rest Hw Hr) as E.
  cbn [forallb] in Hw. apply andb_prop in Hw. destruct Hw as [Hc _].
  unfold isWordUnit in Hc. apply negb_true_iff in Hc.
  apply orb_false_elim in Hc. destruct Hc as [Hd Hs].
  unfold lex. cbn [app trimStart]. rewrite Hs, Hd. exact E.
Qed.

Lemma lex_space s : lex (ch " " :: s) = lex s.
Proof. reflexivity. Qed.

Lemma unary_lex fuel identifiers s s' :
  lex s = lex s' -> unary fuel identifiers s = unary fuel identifiers s'.
Proof. intros E. destruct fuel; cbn [unary]; [|rewrite E]; reflexivity. Qed.

(** A word that names an identifier of the table is looked up. *)
Lemma unary_identifier n (identifiers : Identifiers) w rest named :
  isIdentifierToken w = true -> atBoundary rest = true ->
  lookup identifiers w = Some named ->
  unary (S n) identifiers (w ++ rest) = Returns (asExpr named, rest).
Proof.
  intros Hw Hr Hl. unfold isIdentifierToken in Hw.
  apply andb_prop in Hw. destruct Hw as [Hw Hres].
  apply andb_prop in Hw. destruct Hw as [Hn Hw].
  cbn [unary]. rewrite (lex_token w rest Hn Hw Hr).
  assert (E0 : streq w [] = false) by (destruct w; [discriminate|reflexivity]).
  assert (E1 : streq w (str "(") = false).
  { apply streq_false. intros ->. discriminate. }
  cbn [includes existsb] in Hres. apply negb_true_iff in Hres.
  apply orb_false_elim in Hres. destruct Hres as [E2 Hres].
  apply orb_false_elim in Hres. destruct Hres as [E3 Hres].
  apply orb_false_elim in Hres. destruct Hres as [E4 _].
  rewrite E0, E1, E2, E3, E4, Hl. reflexivity.
Qed.

(** Two identifiers joined by [and] or by [or]. *)
Lemma parseCondition_binary (identifiers : Identifiers) a b na nb op :
  isIdentifierToken a = true ->
  isIdentifierToken b = true ->
  lookup identifiers a = Some na ->
  lookup identifiers b = Some nb ->
  op = str "and" \/ op = str "or" ->
  parseCondition (a ++ str " " ++ op ++ str " " ++ b) identifiers
  = Returns (joinOperands op (asExpr na) (asExpr nb)).
Proof.
  intros Ha Hb La Lb Hop. unfold parseCondition, parse, expr.
  set (fuel := 2 * length _ + 4).
  assert (Hf : exists n, fuel = S (S (S n))).
  { exists (fuel - 3). unfold fuel. rewrite !length_app.
    destruct Hop as [-> | ->]; cbn [length str map list_ascii_of_string]; lia. }
  destruct Hf as [n ->].
  rewrite (unary_identifier (S (S n)) identifiers a
             (str " " ++ op ++ str " " ++ b) na Ha eq_refl La).
  cbn [bind fst snd binaryTrail].
  assert (Hlex : lex (str " " ++ op ++ str " " ++ b) = (op, str " " ++ b))
    by (destruct Hop as [-> | ->]; reflexivity).
  rewrite Hlex.
  assert (Hop' : streq op [] = false /\ streq op (str "|") = false
                 /\ (operatorPrecedence op <? 0)%Z = false)
    by (destruct Hop as [-> | ->]; repeat split; reflexivity).
  destruct Hop' as (-> & -> & ->).
  rewrite (unary_lex (S (S n)) identifiers (str " " ++ b) (b ++ []))
    by (rewrite app_nil_r; apply lex_space).
  rewrite (unary_identifier (S n) identifiers b [] nb Hb eq_refl Lb).
  reflexivity.
Qed.

(** C6.  Over a table of two identifiers, [1 of them] parses to an
    expression that evaluates as the one their disjunction parses to, and
    [all of them] to one that evaluates as their conjunction, on every
    entry and with every placeholder table. *)
Theorem quantifier_laws (a b : jsstring) (xa xb : Expr) (entry : LogEntry)
  (opts : option MatchOptions) :
  isIdentifierToken a = true ->
  isIdentifierToken b = true ->
  a <> b ->
  let identifiers : Identifiers :=
    [(a, {| name_of := a; expr_of := xa |});
     (b, {| name_of := b; expr_of := xb |})] in
  (exists e1 e2,
      parseCondition (str "1 of them") identifiers = Returns e1
      /\ parseCondition (a ++ str " or " ++ b) identifiers = Returns e2
      /\ exprMatches e1 entry opts = exprMatches e2 entry opts)
  /\ (exists e1 e2,
         parseCondition (str "all of them") identifiers = Returns e1
         /\ parseCondition (a ++ str " and " ++ b) identifiers = Returns e2
         /\ exprMatches e1 entry opts = exprMatches e2 entry opts).
Proof.
  intros Ha Hb Hab identifiers.
  assert (La : lookup identifiers a = Some {| name_of := a; expr_of := xa |})
    by (cbn; rewrite streq_refl; reflexivity).
  assert (Lb : lookup identifiers b = Some {| name_of := b; expr_of := xb |})
    by (cbn; rewrite (streq_false Hab), streq_refl; reflexivity).
  split.
  - exists (OrExpr [NamedExpr a xa; NamedExpr b xb]).
    exists (OrExpr [NamedExpr a xa; NamedExpr b xb]).
    split; [reflexivity|]. split; [|reflexivity].
    exact (parseCondition_binary identifiers a b _ _ (str "or") Ha Hb La Lb
             (or_intror eq_refl)).
  - exists (AndExpr [NamedExpr a xa; NamedExpr b xb]).
    exists (AndExpr [NamedExpr a xa; NamedExpr b xb]).
    split; [reflexivity|]. split; [|reflexivity].
    exact (parseCondition_binary identifiers a b _ _ (str "and") Ha Hb La Lb
             (or_introl eq_refl)).
Qed.

(** C5.  The pattern of a quantifier is not matched as a glob: it is
    compiled as a regular expression after [*] is replaced by [.*], and
    nothing is escaped.  [1 of a.c] selects the identifier abc, whose name
    a glob with a literal dot does not match, and [1 of +] throws the
    engine's [SyntaxError] where a glob would match no identifier. *)
Theorem quantifier_pattern_is_not_escaped (e : Expr) :
  let identifiers : Identifiers :=
    [(str "abc", {| name_of := str "abc"; expr_of := e |})] in
  parseCondition (str "1 of a.c") identifiers = Returns (NamedExpr (str "abc") e)
  /\ parseCondition (str "1 of +") identifiers = Throws (SyntaxError (str "^+$")).
Proof. split; reflexivity. Qed.

End ConditionParserFacts.

Lemma quantifier_laws_witness :
  let identifiers : Identifiers :=
    [(str "A", {| name_of := str "A"; expr_of := SearchAtom None [] [str "x"] |});
     (str "B", {| name_of := str "B"; expr_of := SearchAtom None [] [str "y"] |})] in
  let entry := {| message := str "xyz"; fields := [] |} in
  (exists e1 e2,
      parseCondition (H := Reference.host) (str "1 of them") identifiers
      = Returns e1
      /\ parseCondition (H := Reference.host) (str "A or B") identifiers
         = Returns e2
      /\ exprMatches (H := Reference.host) e1 entry None
         = exprMatches (H := Reference.host) e2 entry None)
  /\ (exists e1 e2,
         parseCondition (H := Reference.host) (str "all of them") identifiers
         = Returns e1
         /\ parseCondition (H := Reference.host) (str "A and B") identifiers
            = Returns e2
         /\ exprMatches (H := Reference.host) e1 entry None
            = exprMatches (H := Reference.host) e2 entry None).
Proof.
  refine (@quantifier_laws Reference.host (str "A") (str "B")
            (SearchAtom None [] [str "x"]) (SearchAtom None [] [str "y"])
            {| message := str "xyz"; fields := [] |} None _ _ _).
  - reflexivity.
  - reflexivity.
  - discriminate.
Defined.

Lemma unary_quantifier_words_reserved_witness :
  parseCondition (H := Reference.host) (str "all and all") table_with_all
  = Throws (SigmaError (str "expected " ++ [dquote] ++ str "of" ++ [dquote]
                        ++ str " after " ++ [dquote] ++ str "all" ++ [dquote])).
Proof.
  refine (proj2 (@unary_quantifier_words_reserved Reference.host table_with_all 0
                   (str "all and all") (str "all") (str " and all")
                   (str "and") (str " all") _ _ _ _)).
  - reflexivity.
  - right; reflexivity.
  - reflexivity.
  - discriminate.
Defined.

(** ** The detection builder *)

Section DetectionFacts.

Context {H : Host}.

(** C2, as the code has it.  A detection block that is a mapping with at
    least one condition string and a [timeframe] whose value is truthy is
    rejected with the unsupported-aggregation error, by [parseDetection]
    and by [parseRule] on every document with a title that holds it. *)
Theorem timeframe_rejected (entries : list (jsstring * yaml)) :
  listOfStrings (lookup entries (str "condition")) <> [] ->
  truthy (lookup entries (str "timeframe")) = true ->
  parseDetection (Some (YMap entries))
  = Throws SigmaAggregationNotSupportedError
  /\ forall doc,
      truthy (property doc (str "title")) = true ->
      property doc (str "detection") = Some (YMap entries) ->
      parseRule doc = Throws SigmaAggregationNotSupportedError.
Proof.
  intros Hcond Htime.
  assert (Hd : parseDetection (Some (YMap entries))
               = Throws SigmaAggregationNotSupportedError).
  { unfold parseDetection; simpl.
    destruct (listOfStrings (lookup entries (str "condition"))) as [|c cs];
      [congruence|].
    simpl. rewrite Htime. reflexivity. }
  split; [exact Hd|].
  intros doc Htitle Hdet. unfold parseRule.
  destruct doc; try discriminate; rewrite Htitle, Hdet, Hd; reflexivity.
Qed.

Lemma mapM_Returns {A B} (f : A -> outcome B) (g : A -> B) (l : list A) :
  (forall a, In a l -> f a = Returns (g a)) ->
  mapM f l = Returns (map g l).
Proof.
  induction l as [|a l IH]; simpl; intros Hf; [reflexivity|].
  rewrite (Hf a) by auto; simpl. rewrite IH by auto. reflexivity.
Qed.

Lemma mapM_Throws {A B} (f : A -> outcome B) (g : A -> B) (e : exn)
  (before : list A) (a : A) (after : list A) :
  (forall a', In a' before -> f a' = Returns (g a')) ->
  f a = Throws e ->
  mapM f (before ++ a :: after) = Throws e.
Proof.
  induction before as [|a' before IH]; simpl; intros Hf Ha.
  - rewrite Ha. reflexivity.
  - rewrite (Hf a') by auto; simpl. rewrite IH by auto. reflexivity.
Qed.

(** C4, as the code has it.  An identifier whose value is a string
    resolves to a fieldless atom with that one pattern, and one whose value
    is a list of strings to one fieldless atom with the elements as its
    patterns; a number or a boolean, alone or in a list, is refused with a
    [SigmaError]. *)
Theorem identifier_of_strings (id : jsstring) :
  let refused what :=
    Throws (SigmaError (str "search identifier " ++ [dquote] ++ id
                        ++ [dquote] ++ str ": unsupported " ++ what)) in
  (forall s, parseIdentifier id (YStr s) = Returns (SearchAtom None [] [s]))
  /\ (forall l,
         parseIdentifier id (YSeq (map YStr l))
         = Returns (SearchAtom None [] l))
  /\ (forall n, parseIdentifier id (YNum n) = refused (str "value"))
  /\ (forall b, parseIdentifier id (YBool b) = refused (str "value"))
  /\ (forall before n after,
         parseIdentifier id (YSeq (map YStr before ++ YNum n :: after))
         = refused (str "list value"))
  /\ (forall before b after,
         parseIdentifier id (YSeq (map YStr before ++ YBool b :: after))
         = refused (str "list value")).
Proof.
  intros refused.
  assert (Hlist : forall before v after,
             (forall node, v <> YMap node) -> (forall s, v <> YStr s) ->
             parseIdentifier id (YSeq (map YStr before ++ v :: after))
             = refused (str "list value")).
  { intros before v after Hm Hs. unfold parseIdentifier.
    rewrite (mapM_Throws _
               (fun v => SearchAtom None [] (listOfStrings (Some v)))
               (SigmaError (str "search identifier " ++ [dquote] ++ id
                            ++ [dquote] ++ str ": unsupported list value"))).
    - reflexivity.
    - intros a Ha; apply in_map_iff in Ha; destruct Ha as [s [<- _]].
      reflexivity.
    - destruct v; try reflexivity; [elim (Hs s)|elim (Hm entries)];
        reflexivity. }
  repeat split; try reflexivity.
  - intros l. unfold parseIdentifier.
    rewrite (mapM_Returns _
               (fun v => SearchAtom None [] (listOfStrings (Some v))))
      by (intros a Ha; apply in_map_iff in Ha; destruct Ha as [s [<- _]];
          reflexivity).
    rewrite map_map; simpl.
    assert (Hk : forall l', forallb isKeyword
                              (map (fun s => SearchAtom None [] [s]) l') = true)
      by (induction l'; simpl; auto).
    assert (Hp : forall l', flat_map patternsOf
                              (map (fun s => SearchAtom None [] [s]) l') = l')
      by (induction l' as [|? ? IH]; simpl; [|rewrite IH]; reflexivity).
    destruct l as [|s [|s' l]]; try reflexivity.
    rewrite Hk, Hp. reflexivity.
  - intros before n after. apply Hlist; discriminate.
  - intros before b after. apply Hlist; discriminate.
Qed.

End DetectionFacts.

Lemma timeframe_rejected_witness :
  parseRule (H := Reference.host)
    (YMap [(str "title", YStr (str "t"));
           (str "detection",
            YMap [(str "selection", YStr (str "x"));
                  (str "condition", YStr (str "selection"));
                  (str "timeframe", YStr (str "10m"))])])
  = Throws SigmaAggregationNotSupportedError.
Proof.
  refine (proj2 (@timeframe_rejected Reference.host
                   [(str "selection", YStr (str "x"));
                    (str "condition", YStr (str "selection"));
                    (str "timeframe", YStr (str "10m"))] _ _) _ _ _).
  - discriminate.
  - reflexivity.
  - reflexivity.
  - reflexivity.
Defined.

(** C2 as stated fails: a block that holds [timeframe] and no condition is
    refused for the missing condition, with a plain [SigmaError]. *)
Lemma timeframe_without_condition :
  parseRule (H := Reference.host)
    (YMap [(str "title", YStr (str "t"));
           (str "detection",
            YMap [(str "selection", YStr (str "x"));
                  (str "timeframe", YStr (str "10m"))])])
  = Throws (SigmaError (str "missing detection condition")).
Proof. reflexivity. Qed.

(** C4 as stated fails: a number, a boolean, and a list of numbers are
    refused where the claim has them resolve to atoms. *)
Lemma identifier_of_number_refused :
  parseIdentifier (H := Reference.host) (str "keywords") (@YNum Reference.host 1234%Z)
  = Throws (SigmaError (str "search identifier " ++ [dquote] ++ str "keywords"
                        ++ [dquote] ++ str ": unsupported value"))
  /\ parseIdentifier (H := Reference.host) (str "keywords") (YBool true)
     = Throws (SigmaError (str "search identifier " ++ [dquote]
                           ++ str "keywords" ++ [dquote]
                           ++ str ": unsupported value"))
  /\ parseRule (H := Reference.host)
       (YMap [(str "title", YStr (str "t"));
              (str "detection",
               YMap [(str "keywords", YSeq [@YNum Reference.host 4624%Z; @YNum Reference.host 4625%Z]);
                     (str "condition", YStr (str "keywords"))])])
     = Throws (SigmaError (str "search identifier " ++ [dquote]
                           ++ str "keywords" ++ [dquote]
                           ++ str ": unsupported list value")).
Proof. repeat split; reflexivity. Qed.

(** ** Evaluation *)

Section EvalFacts.

Context {H : Host}.

(** C1.  Evaluation can throw on a rule that [parseRule] accepted.  With
    [expand] the patterns are placeholders, [validate] checks no regular
    expression, and the values a caller supplies reach [new RegExp]
    unchecked: the value [(] makes [exprMatches] throw the engine's
    [SyntaxError].  Without placeholders, a [base64offset] pattern whose
    encodings are not escaped does the same: the third encoding of a
    pattern that starts with a tilde starts with [+]. *)
Theorem exprMatches_throws_after_parse :
  let rule_of key value :=
    YMap [(str "title", YStr (str "t"));
          (str "detection",
           YMap [(str "selection", YMap [(key, YStr value)]);
                 (str "condition", YStr (str "selection"))])] in
  let entry := {| message := []; fields := [(str "User", str "root")] |} in
  (exists rule,
      parseRule (rule_of (str "User|expand|re") (str "%admins%")) = Returns rule
      /\ exprMatches (expr_ (detection rule)) entry
           (Some {| placeholders := Some [(str "admins", [str "("])] |})
         = Throws (SyntaxError (str "(?:()")))
  /\ (exists rule,
         parseRule (rule_of (str "User|base64offset") (str "~/.ssh"))
         = Returns rule
         /\ exprMatches (expr_ (detection rule)) entry None
            = Throws (SyntaxError (str "(?:fi8uc3No|4vLnNza|+Ly5zc2)"))).
Proof.
  split; eexists; split; reflexivity.
Qed.

(** C3, as the code has it.  When no key of the entry equals the field
    name once both are in lower case, the atom is matched against the
    empty string: it evaluates as on an entry in which the field is present
    and empty. *)
Theorem missing_field_is_empty_string (field : jsstring)
  (modifiers patterns : list jsstring) (entry : LogEntry)
  (opts : option MatchOptions) :
  field <> [] ->
  (forall key value,
      In (key, value) (fields entry) -> toLowerCase key <> toLowerCase field) ->
  exprMatches (SearchAtom (Some field) modifiers patterns) entry opts
  = exprMatches (SearchAtom (Some field) modifiers patterns)
      {| message := message entry; fields := [(field, [])] |} opts.
Proof.
  intros Hfield Hkeys.
  assert (Hc : fieldContentOf (toLowerCase field) (fields entry) = []).
  { induction (fields entry) as [|[key value] fs IH]; simpl; [reflexivity|].
    rewrite (streq_false (Hkeys key value (or_introl eq_refl))).
    apply IH. intros k v Hin. apply (Hkeys k v). right; exact Hin. }
  simpl. unfold SearchAtom_exprMatches.
  destruct field as [|c field]; [congruence|].
  rewrite Hc. simpl. rewrite streq_refl. reflexivity.
Qed.

(** C8.  With [cidr] among the modifiers [_compile] returns a matcher, and
    the matcher accepts a candidate exactly when the candidate parses as an
    address and some pattern parses as a network of the same family that
    contains it; the family of a string is IPv4 when it parses as IPv4 and
    IPv6 when it parses only as IPv6. *)
Theorem cidr_matcher (field : option jsstring) (modifiers : list jsstring)
  (patterns : list jsstring) (s : jsstring) :
  includes modifiers (str "cidr") = true ->
  exists matches,
    _compile field modifiers patterns = Returns matches
    /\ (matches s = true <->
        (exists addr pat net,
            Address4_new s = Some addr /\ In pat patterns
            /\ Address4_new pat = Some net /\ isInSubnet4 addr net = true)
        \/ (exists addr pat net,
               Address4_new s = None /\ Address6_new s = Some addr
               /\ In pat patterns /\ Address4_new pat = None
               /\ Address6_new pat = Some net /\ isInSubnet6 addr net = true)).
Proof.
  intros Hcidr. unfold _compile. rewrite Hcidr.
  eexists; split; [reflexivity|].
  unfold cidr_matches, cidrMatchers.
  destruct (Address4_new s) as [addr|] eqn:H4.
  - rewrite existsb_exists. split.
    + intros [[c|c] [Hin Hsub]]; [|discriminate].
      apply in_flat_map in Hin. destruct Hin as [pat [Hpat Hc]].
      left. exists addr, pat, c. repeat split; auto.
      * destruct (Address4_new pat) as [c'|]; simpl in Hc.
        -- destruct Hc as [Hc|[]]. congruence.
        -- destruct (Address6_new pat); simpl in Hc;
             [destruct Hc as [Hc|[]]; discriminate | destruct Hc].
    + intros [(addr' & pat & net & Hs & Hin & Hp & Hsub)
             | (addr' & pat & net & Hs & _)]; [|discriminate].
      exists (inl net). split.
      * apply in_flat_map. exists pat. split; [exact Hin|].
        rewrite Hp. left; reflexivity.
      * congruence.
  - destruct (Address6_new s) as [addr|] eqn:H6.
    + rewrite existsb_exists. split.
      * intros [[c|c] [Hin Hsub]]; [discriminate|].
        apply in_flat_map in Hin. destruct Hin as [pat [Hpat Hc]].
        right. exists addr, pat, c.
        destruct (Address4_new pat) as [c'|]; simpl in Hc.
        -- destruct Hc as [Hc|[]]; discriminate.
        -- destruct (Address6_new pat) as [c'|]; simpl in Hc;
             [|destruct Hc].
           destruct Hc as [Hc|[]]. repeat split; auto. congruence.
      * intros [(addr' & pat & net & Hs & _)
               | (addr' & pat & net & _ & Hs & Hin & Hp4 & Hp6 & Hsub)];
          [discriminate|].
        exists (inr net). split.
        -- apply in_flat_map. exists pat. split; [exact Hin|].
           rewrite Hp4, Hp6. left; reflexivity.
        -- congruence.
    + split; [discriminate|].
      intros [(addr' & pat & net & Hs & _)
             | (addr' & pat & net & _ & Hs & _)]; discriminate.
Qed.





Lemma list_streq_true a b : list_streq a b = true -> a = b.
Proof.
  revert b; induction a as [|x a IH]; intros [|y b]; cbn; try discriminate;
    [reflexivity|].
  intros E. apply andb_prop in E. destruct E as [E1 E2].
  rewrite (streq_true E1), (IH b E2). reflexivity.
Qed.

Lemma key_eqb_true k k' : key_eqb k k' = true -> k = k'.
Proof.
  destruct k as [[ps ms] f], k' as [[ps' ms'] f']. cbn. intros E.
  apply andb_prop in E. destruct E as [E E3].
  apply andb_prop in E. destruct E as [E1 E2].
  rewrite (list_streq_true _ _ E1), (list_streq_true _ _ E2).
  destruct f as [f|], f' as [f'|]; try discriminate; [|reflexivity].
  rewrite (streq_true E3). reflexivity.
Qed.

(** The cache is not seen: from a coherent cell, and an atom starts with
    an empty one, the method returns what [_compile] computes and leaves a
    coherent cell. *)
Theorem compile_cache_transparent (field : option jsstring)
  (modifiers : list jsstring) (cache : option CompiledCache)
  (patterns : list jsstring) :
  coherent field modifiers cache ->
  snd (_compile_cached field modifiers cache patterns)
  = _compile field modifiers patterns
  /\ coherent field modifiers
       (fst (_compile_cached field modifiers cache patterns)).
Proof.
  intros Hc. unfold _compile_cached.
  assert (Hmiss :
            snd (match _compile field modifiers patterns with
                 | Returns matcher =>
                     (Some {| key := (patterns, modifiers, field);
                              compiled := matcher |}, Returns matcher)
                 | Throws e => (cache, Throws e)
                 | Unmodelled => (cache, Unmodelled)
                 end) = _compile field modifiers patterns
            /\ coherent field modifiers
                 (fst (match _compile field modifiers patterns with
                       | Returns matcher =>
                           (Some {| key := (patterns, modifiers, field);
                                    compiled := matcher |}, Returns matcher)
                       | Throws e => (cache, Throws e)
                       | Unmodelled => (cache, Unmodelled)
                       end))).
  { destruct (_compile field modifiers patterns) as [matcher| |] eqn:E;
      cbn [fst snd]; split; try reflexivity; try exact Hc.
    exists patterns. split; [reflexivity|exact E]. }
  destruct cache as [c|]; [|exact Hmiss].
  destruct (key_eqb (key c) (patterns, modifiers, field)) eqn:Ek;
    [|exact Hmiss].
  cbn [fst snd]. split; [|exact Hc].
  destruct Hc as [ps [Hk Hcomp]].
  apply key_eqb_true in Ek. rewrite Hk in Ek. inversion Ek; subst.
  symmetry; exact Hcomp.
Qed.

End EvalFacts.

(** ** What the compiler's sources parse to *)

Module RegExpFacts.
Import RegExp Patterns.

Lemma reads_nil : reads [] (fun f => f).
Proof. intros rest stack top; reflexivity. Qed.

Lemma reads_app {a b ga gb} :
  reads a ga -> reads b gb -> reads (a ++ b) (fun f => gb (ga f)).
Proof.
  intros Ha Hb rest stack top. rewrite <- app_assoc, Ha, Hb. reflexivity.
Qed.

Lemma reads_ext chunk g g' :
  (forall f, g f = g' f) -> reads chunk g -> reads chunk g'.
Proof. intros E Hr rest stack top. rewrite Hr, E. reflexivity. Qed.

Lemma reads_plain c :
  classify c = Plain -> reads [c] (push (Atom (Char c))).
Proof. intros Hc rest stack top; simpl; rewrite Hc; reflexivity. Qed.

Lemma reads_escaped c :
  isSyntaxCharacter c = true -> reads [ch "\"; c] (push (Atom (Char c))).
Proof.
  intros Hc rest stack top; simpl. rewrite Hc. reflexivity.
Qed.

Lemma reads_dot : reads (str ".") (push (Atom Dot)).
Proof. intros rest stack top; reflexivity. Qed.

Lemma reads_dot_star : reads (str ".*") (push (Quantified (Star Dot))).
Proof. intros rest stack top; reflexivity. Qed.

Lemma reads_caret : reads (str "^") (push (Closed LineStart)).
Proof. intros rest stack top; reflexivity. Qed.

Lemma reads_dollar : reads (str "$") (push (Closed LineEnd)).
Proof. intros rest stack top; reflexivity. Qed.

Lemma reads_bar : reads (str "|") next_alternative.
Proof. intros rest stack top; reflexivity. Qed.

Lemma parse_open rest stack top :
  parse_from (str "(?:" ++ rest) stack top
  = parse_from rest (top :: stack) empty_frame.
Proof. reflexivity. Qed.

Lemma parse_close rest outer stack top :
  parse_from (str ")" ++ rest) (outer :: stack) top
  = parse_from rest stack (push (Atom (close top)) outer).
Proof. reflexivity. Qed.

Lemma reads_group {body g} :
  reads body g ->
  reads (str "(?:" ++ body ++ str ")")
        (fun top => push (Atom (close (g empty_frame))) top).
Proof.
  intros Hb rest stack top.
  rewrite <- !app_assoc, parse_open, Hb, parse_close. reflexivity.
Qed.

Lemma parse_reads {source g} :
  reads source g -> parse source = Ok (close (g empty_frame)).
Proof.
  intros Hr. unfold parse. rewrite <- (app_nil_r source), Hr. reflexivity.
Qed.

Lemma appends_id : appends (fun f => f) [].
Proof. intros f; split; reflexivity. Qed.

Lemma appends_compose {ga gb ta tb} :
  appends ga ta -> appends gb tb -> appends (fun f => gb (ga f)) (ta ++ tb).
Proof.
  intros Ha Hb f. destruct (Ha f) as [Ha1 Ha2], (Hb (ga f)) as [Hb1 Hb2].
  split; [congruence|]. rewrite Hb2, Ha2, fold_left_app. reflexivity.
Qed.

Lemma appends_atom r : appends (push (Atom r)) [r].
Proof. intros f; split; reflexivity. Qed.

Lemma appends_quantified r : appends (push (Quantified r)) [r].
Proof. intros f; split; reflexivity. Qed.

Lemma appends_closed r : appends (push (Closed r)) [r].
Proof. intros f; split; reflexivity. Qed.

Lemma appends_ext g g' terms :
  (forall f, g f = g' f) -> appends g terms -> appends g' terms.
Proof. intros E Ha f. rewrite <- E. apply Ha. Qed.

Lemma close_appends {g terms} :
  appends g terms -> close (g empty_frame) = sequence terms.
Proof.
  intros Ha. destruct (Ha empty_frame) as [H1 H2].
  unfold close. rewrite H1, H2. reflexivity.
Qed.

Lemma reads_alternatives {A} (source : A -> jsstring) (g : A -> frame -> frame)
  (l : list A) :
  (forall a, In a l -> reads (source a) (g a)) ->
  reads (join (str "|") (map source l)) (alternatives g l).
Proof.
  induction l as [|a [|b l] IH]; intros Hs.
  - apply reads_nil.
  - apply Hs; left; reflexivity.
  - change (join (str "|") (map source (a :: b :: l)))
      with (source a ++ str "|" ++ join (str "|") (map source (b :: l))).
    change (alternatives g (a :: b :: l))
      with (fun f => alternatives g (b :: l) (next_alternative (g a f))).
    refine (reads_app (Hs a (or_introl eq_refl)) (reads_app reads_bar (IH _))).
    intros x Hx; apply Hs; right; exact Hx.
Qed.

Lemma alternatives_frame {A} (g : A -> frame -> frame) (terms : A -> list regex)
  (l : list A) :
  (forall a, In a l -> appends (g a) (terms a)) ->
  l <> [] ->
  forall f, flush f = Empty ->
    rev (flush (alternatives g l f) :: alts (alternatives g l f))
    = rev (alts f) ++ map (fun a => sequence (terms a)) l.
Proof.
  induction l as [|a [|b l] IH]; intros Ha Hl f Hf; [congruence| |].
  - destruct (Ha a (or_introl eq_refl) f) as [H1 H2]. simpl.
    rewrite H1, H2, Hf. reflexivity.
  - change (alternatives g (a :: b :: l) f)
      with (alternatives g (b :: l) (next_alternative (g a f))).
    rewrite IH; [|intros x Hx; apply Ha; right; exact Hx|discriminate
                 |reflexivity].
    destruct (Ha a (or_introl eq_refl) f) as [H1 H2]. simpl.
    rewrite H1, H2, Hf, <- app_assoc. reflexivity.
Qed.

Lemma close_alternatives {A} (g : A -> frame -> frame)
  (terms : A -> list regex) (l : list A) :
  (forall a, In a l -> appends (g a) (terms a)) ->
  l <> [] ->
  close (alternatives g l empty_frame)
  = disjunction_of (map (fun a => sequence (terms a)) l).
Proof.
  intros Ha Hl. unfold close.
  rewrite (alternatives_frame g terms l Ha Hl empty_frame eq_refl).
  reflexivity.
Qed.

(** *** Escaped text *)

Lemma special_is_syntax c :
  existsb (N.eqb c) (str ".*+?^${}()|[]\") = isSyntaxCharacter c.
Proof.
  unfold isSyntaxCharacter, classify. cbn.
  code_unit_cases c; reflexivity.
Qed.

Lemma replace_escaped_cons X by_ c rest :
  N.eqb c (ch "\") && starts_with X rest = false ->
  replace_escaped X by_ (c :: rest) = c :: replace_escaped X by_ rest.
Proof.
  destruct rest as [|d rest]; simpl; intros E; [reflexivity|].
  rewrite E. reflexivity.
Qed.

Lemma replace_escaped_pair X by_ rest :
  replace_escaped X by_ (ch "\" :: X :: rest)
  = by_ ++ replace_escaped X by_ rest.
Proof. simpl. rewrite N.eqb_refl. reflexivity. Qed.

Lemma escaped_head X p :
  isSyntaxCharacter X = true -> X <> ch "\" ->
  starts_with X (flat_map escaped p) = false.
Proof.
  intros HX Hb. destruct p as [|c p]; [reflexivity|].
  cbn [flat_map]. unfold escaped at 1.
  destruct (existsb (N.eqb c) _) eqn:E; cbn [app starts_with].
  - apply N.eqb_neq. congruence.
  - apply N.eqb_neq. intros ->. rewrite special_is_syntax in E. congruence.
Qed.

Lemma not_special_not_backslash c :
  existsb (N.eqb c) (str ".*+?^${}()|[]\") = false -> N.eqb c (ch "\") = false.
Proof.
  intros E. apply N.eqb_neq. intros ->. discriminate.
Qed.

Lemma replace_escaped_other X by_ c rest :
  N.eqb c X = false ->
  replace_escaped X by_ (ch "\" :: c :: rest)
  = ch "\" :: replace_escaped X by_ (c :: rest).
Proof. intros E. simpl. rewrite E. reflexivity. Qed.

Lemma replace_star p :
  replace_escaped (ch "*") (str ".*") (escapeRegex p) = flat_map star_source p.
Proof.
  change (escapeRegex p) with (flat_map escaped p).
  induction p as [|c p IH]; [reflexivity|].
  cbn [flat_map]. unfold star_source at 1.
  destruct (N.eqb_spec c (ch "*")) as [->|Hc].
  - change (escaped (ch "*")) with [ch "\"; ch "*"]. cbn [app].
    rewrite (replace_escaped_pair (ch "*")), IH. reflexivity.
  - unfold escaped at 1 3.
    destruct (existsb (N.eqb c) _) eqn:E; cbn [app].
    + rewrite replace_escaped_other by (apply N.eqb_neq; exact Hc).
      rewrite replace_escaped_cons, IH; [reflexivity|].
      rewrite escaped_head; [apply andb_false_r|reflexivity|discriminate].
    + rewrite replace_escaped_cons, IH; [reflexivity|].
      rewrite (not_special_not_backslash _ E). reflexivity.
Qed.

Lemma star_source_head p :
  starts_with (ch "?") (flat_map star_source p) = false.
Proof.
  destruct p as [|c p]; [reflexivity|].
  cbn [flat_map]. unfold star_source.
  destruct (N.eqb_spec c (ch "*")) as [->|Hc]; [reflexivity|].
  unfold escaped.
  destruct (existsb (N.eqb c) _) eqn:E; cbn [app starts_with]; [reflexivity|].
  apply N.eqb_neq. intros ->. discriminate.
Qed.

Lemma replace_question p :
  replace_escaped (ch "?") (str ".") (flat_map star_source p)
  = flat_map glob_source p.
Proof.
  induction p as [|c p IH]; [reflexivity|].
  cbn [flat_map]. unfold glob_source at 1, star_source at 1.
  destruct (N.eqb_spec c (ch "*")) as [->|Hs].
  - change (str ".*") with [ch "."; ch "*"]. cbn [app].
    rewrite !replace_escaped_cons, IH by reflexivity. reflexivity.
  - destruct (N.eqb_spec c (ch "?")) as [->|Hq].
    + change (escaped (ch "?")) with [ch "\"; ch "?"]. cbn [app].
      rewrite (replace_escaped_pair (ch "?")), IH. reflexivity.
    + unfold escaped.
      destruct (existsb (N.eqb c) _) eqn:E; cbn [app].
      * rewrite replace_escaped_other by (apply N.eqb_neq; exact Hq).
        rewrite replace_escaped_cons, IH; [reflexivity|].
        rewrite star_source_head. apply andb_false_r.
      * rewrite replace_escaped_cons, IH; [reflexivity|].
        rewrite (not_special_not_backslash _ E). reflexivity.
Qed.

(** The glob branch, code unit by code unit. *)
Lemma glob_source_spec p :
  replace_escaped (ch "?") (str ".")
    (replace_escaped (ch "*") (str ".*") (escapeRegex p))
  = flat_map glob_source p.
Proof. rewrite replace_star. apply replace_question. Qed.

Lemma reads_escaped_unit c : reads (escaped c) (push (Atom (Char c))).
Proof.
  unfold escaped. destruct (existsb (N.eqb c) _) eqn:E;
    rewrite special_is_syntax in E.
  - apply reads_escaped; exact E.
  - apply reads_plain. unfold isSyntaxCharacter in E.
    destruct (classify c); congruence.
Qed.

Lemma reads_glob_unit c : reads (glob_source c) (push (glob_term c)).
Proof.
  unfold glob_source, glob_term, glob_atom.
  destruct (N.eqb c (ch "*")); [apply reads_dot_star|].
  destruct (N.eqb c (ch "?")); [apply reads_dot|apply reads_escaped_unit].
Qed.

Lemma appends_glob_unit c : appends (push (glob_term c)) [glob_atom c].
Proof.
  unfold glob_term, glob_atom.
  destruct (N.eqb c (ch "*")); [apply appends_quantified|apply appends_atom].
Qed.

Lemma reads_text source term :
  (forall c, reads (source c) (push (term c))) ->
  forall p, reads (flat_map source p) (push_all term p).
Proof.
  intros Hu p; induction p as [|c p IH]; [apply reads_nil|].
  exact (reads_app (Hu c) IH).
Qed.

Lemma appends_text term atom :
  (forall c, appends (push (term c)) [atom c]) ->
  forall p, appends (push_all term p) (map atom p).
Proof.
  intros Hu p; induction p as [|c p IH]; [apply appends_id|].
  exact (appends_compose (Hu c) IH).
Qed.

(** *** Matching *)

Section Semantics.

Variable canon : codeunit -> codeunit.
Variable s : jsstring.

Lemma nonempty_app {A} (l l' : list A) :
  nonempty (l ++ l') = nonempty l || nonempty l'.
Proof. destruct l; reflexivity. Qed.

Lemma nonempty_flat_map {A B} (f : A -> list B) (l : list A) :
  nonempty (flat_map f l) = existsb (fun a => nonempty (f a)) l.
Proof.
  induction l as [|a l IH]; [reflexivity|].
  cbn [flat_map existsb]. rewrite nonempty_app, IH. reflexivity.
Qed.

Lemma existsb_ext {A} (f g : A -> bool) (l : list A) :
  (forall a, f a = g a) -> existsb f l = existsb g l.
Proof.
  intros E; induction l as [|a l IH]; [reflexivity|].
  cbn [existsb]. rewrite E, IH. reflexivity.
Qed.

Lemma existsb_orb {A} (f g : A -> bool) (l : list A) :
  existsb (fun a => f a || g a) l = existsb f l || existsb g l.
Proof.
  induction l as [|a l IH]; [reflexivity|].
  cbn [existsb]. rewrite IH.
  destruct (f a), (g a), (existsb f l), (existsb g l); reflexivity.
Qed.

Lemma test_Disj r1 r2 :
  test canon s (Disj r1 r2) = test canon s r1 || test canon s r2.
Proof.
  unfold test. rewrite <- existsb_orb. apply existsb_ext.
  intros i. unfold matches_at.
  change (ends canon s (Disj r1 r2) i)
    with (ends canon s r1 i ++ ends canon s r2 i).
  apply (nonempty_app (ends canon s r1 i) (ends canon s r2 i)).
Qed.

Lemma test_disjunction r rs :
  test canon s (disjunction r rs) = existsb (test canon s) (r :: rs).
Proof.
  revert r; induction rs as [|r' rs IH]; intros r.
  - cbn [disjunction existsb]. rewrite orb_false_r. reflexivity.
  - cbn [disjunction]. rewrite test_Disj, IH. reflexivity.
Qed.

Lemma test_disjunction_of l :
  l <> [] -> test canon s (disjunction_of l) = existsb (test canon s) l.
Proof. destruct l as [|r rs]; [congruence|]. intros _. apply test_disjunction. Qed.

Lemma test_anchored atStart atEnd body :
  test canon s (sequence (anchored_terms atStart atEnd body))
  = anchored_match canon s atStart atEnd body.
Proof.
  unfold test, anchored_match. apply existsb_ext. intros i.
  unfold matches_at. fold (nonempty (ends canon s
    (sequence (anchored_terms atStart atEnd body)) i)).
  destruct atStart, atEnd;
    cbn [anchored_terms sequence fold_left app ends flat_map negb orb];
    rewrite ?app_nil_r.
  - destruct (i =? 0); cbn [flat_map andb]; rewrite ?app_nil_r.
    + rewrite nonempty_flat_map. apply existsb_ext; intros j.
      destruct (j =? length s); reflexivity.
    + reflexivity.
  - destruct (i =? 0); cbn [flat_map andb]; rewrite ?app_nil_r.
    + destruct (ends canon s body i); reflexivity.
    + reflexivity.
  - rewrite nonempty_flat_map. apply existsb_ext; intros j.
    destruct (j =? length s); reflexivity.
  - destruct (ends canon s body i); reflexivity.
Qed.

Lemma skipn_nth_error {A} (l : list A) (j : nat) :
  skipn j l
  = match nth_error l j with
    | Some d => d :: skipn (S j) l
    | None => []
    end.
Proof.
  revert j; induction l as [|x l IH]; intros [|j]; try reflexivity.
  cbn [skipn nth_error]. rewrite IH. destruct (nth_error l j); reflexivity.
Qed.

Lemma text_at_cons c p j :
  text_at canon s (c :: p) j
  = match nth_error s j with
    | Some d => N.eqb (canon d) (canon c) && text_at canon s p (S j)
    | None => false
    end.
Proof.
  unfold text_at. rewrite (skipn_nth_error s j).
  destruct (nth_error s j); reflexivity.
Qed.

Lemma flat_map_twice {A B C} (f : B -> list C) (g : A -> list B) (l : list A) :
  flat_map f (flat_map g l) = flat_map (fun a => flat_map f (g a)) l.
Proof.
  induction l as [|a l IH]; [reflexivity|].
  cbn [flat_map]. rewrite flat_map_app, IH. reflexivity.
Qed.

(** The ends of a text taken literally, after a pattern [r0]. *)
Lemma ends_literal p :
  forall r0 i,
    ends canon s (fold_left Seq (map Char p) r0) i
    = flat_map
        (fun j => if text_at canon s p j then [j + length p] else [])
        (ends canon s r0 i).
Proof.
  induction p as [|c p IH]; intros r0 i.
  - cbn [map fold_left length]. induction (ends canon s r0 i) as [|j l IHl];
      [reflexivity|].
    cbn [flat_map]. rewrite <- IHl. unfold text_at.
    cbn [length firstn map streq app]. rewrite Nat.add_0_r. reflexivity.
  - cbn [map fold_left]. rewrite IH.
    change (ends canon s (Seq r0 (Char c)) i)
      with (flat_map (ends canon s (Char c)) (ends canon s r0 i)).
    rewrite flat_map_twice. apply flat_map_ext. intros j.
    rewrite text_at_cons. cbn [ends].
    destruct (nth_error s j) as [d|]; [|reflexivity].
    destruct (N.eqb (canon d) (canon c)); [|reflexivity].
    cbn [flat_map andb length]. rewrite app_nil_r.
    replace (S j + length p) with (j + S (length p)) by lia. reflexivity.
Qed.

Lemma glob_literal p :
  isLiteral p = true -> glob_regex p = literal_regex p.
Proof.
  intros Hl. unfold glob_regex, literal_regex. f_equal.
  induction p as [|c p IH]; [reflexivity|].
  cbn [isLiteral forallb] in Hl. apply andb_prop in Hl.
  destruct Hl as [Hc Hl]. apply negb_true_iff, orb_false_elim in Hc.
  destruct Hc as [H1 H2]. cbn [map]. unfold glob_atom at 1.
  rewrite H1, H2, (IH Hl). reflexivity.
Qed.

(** A literal text between anchors accepts the inputs it occurs in. *)
Lemma anchored_literal atStart atEnd p :
  anchored_match canon s atStart atEnd (literal_regex p)
  = occurs canon s atStart atEnd p.
Proof.
  unfold anchored_match, occurs, literal_regex, sequence.
  apply existsb_ext. intros i. rewrite ends_literal. cbn [ends flat_map].
  rewrite app_nil_r, <- andb_assoc. f_equal.
  destruct (text_at canon s p i); cbn [existsb andb]; [|reflexivity].
  apply orb_false_r.
Qed.

Lemma streq_length a b : streq a b = true -> length a = length b.
Proof. intros E. rewrite (streq_true E). reflexivity. Qed.

Lemma existsb_nowhere {A} (f : A -> bool) (l : list A) :
  (forall a, In a l -> f a = false) -> existsb f l = false.
Proof.
  induction l as [|a l IH]; intros Hf; [reflexivity|].
  cbn [existsb]. rewrite (Hf a (or_introl eq_refl)), IH; [reflexivity|].
  intros x Hx; apply Hf; right; exact Hx.
Qed.

(** Between both anchors a literal text accepts the inputs it equals. *)
Lemma occurs_whole p :
  occurs canon s true true p = streq (map canon s) (map canon p).
Proof.
  unfold occurs. cbn [seq existsb negb orb Nat.eqb andb].
  rewrite (existsb_nowhere _ (seq 1 (length s)))
    by (intros i Hi; apply in_seq in Hi; destruct i; [lia|reflexivity]).
  rewrite orb_false_r. unfold text_at. cbn [skipn Nat.add].
  destruct (length p =? length s) eqn:El.
  - apply Nat.eqb_eq in El. rewrite El, firstn_all, andb_true_r. reflexivity.
  - rewrite andb_false_r. symmetry.
    destruct (streq (map canon s) (map canon p)) eqn:E; [|reflexivity].
    apply streq_length in E. rewrite !length_map in E.
    apply Nat.eqb_neq in El. congruence.
Qed.

End Semantics.

End RegExpFacts.

(** ** The compiled patterns *)

Section CompileFacts.

Import RegExp Patterns RegExpFacts.

Context {H : Host}.

Lemma appends_anchor_frame open_start open_end group :
  appends (anchor_frame open_start open_end group)
    (anchored_terms (negb open_start) (negb open_end) group).
Proof.
  destruct open_start, open_end; intros f; split; reflexivity.
Qed.

Lemma reads_anchored {body g} (open_start open_end : bool) :
  reads body g ->
  reads ((if open_start then [] else str "^")
         ++ str "(?:" ++ body ++ str ")"
         ++ (if open_end then [] else str "$"))
    (anchor_frame open_start open_end (close (g empty_frame))).
Proof.
  intros Hb.
  pose proof (reads_group Hb) as Hg.
  replace (str "(?:" ++ body ++ str ")"
           ++ (if open_end then [] else str "$"))
    with ((str "(?:" ++ body ++ str ")")
          ++ (if open_end then [] else str "$"))
    by (rewrite <- !app_assoc; reflexivity).
  destruct open_start, open_end; cbn [app]; rewrite ?app_nil_r.
  - exact Hg.
  - exact (reads_app Hg reads_dollar).
  - exact (reads_app reads_caret Hg).
  - exact (reads_app reads_caret (reads_app Hg reads_dollar)).
Qed.

Lemma appends_pattern_frame field modifiers pattern :
  appends (pattern_frame field modifiers pattern)
    (anchored_terms (atStart field modifiers) (atEnd field modifiers)
       (text_regex modifiers pattern)).
Proof. apply appends_anchor_frame. Qed.

(** The source [processPattern] writes for a pattern that is neither a
    regular expression nor base64 at an offset: one alternative, the text
    of the pattern in a group between the anchors it is given. *)
Lemma processPattern_reads field modifiers pattern :
  includes modifiers (str "re") = false ->
  includes modifiers (str "base64offset") = false ->
  reads (processPattern field modifiers pattern)
    (pattern_frame field modifiers pattern).
Proof.
  intros Hre Hoff. unfold processPattern, pattern_frame, text_regex.
  rewrite Hre, Hoff.
  set (p := if includes modifiers (str "base64") then _ else pattern).
  destruct (includes modifiers (str "windash")).
  - pose proof (reads_anchored
                  (noField field || includes modifiers (str "contains")
                   || includes modifiers (str "endswith"))
                  (noField field || includes modifiers (str "contains")
                   || includes modifiers (str "startswith"))
                  (reads_group
                     (reads_alternatives escapeRegex
                        (push_all (fun c => Atom (Char c))) (windashPermute p)
                        (fun v _ => reads_text _ _ reads_escaped_unit v))))
      as Hr.
    cbv beta in Hr.
    change (close (push (Atom ?X) empty_frame)) with (sequence [X]) in Hr.
    rewrite (close_alternatives _ (fun v => map Char v)) in Hr;
      [|intros v _; apply appends_text; intros c; apply appends_atom
       |discriminate].
    exact Hr.
  - rewrite glob_source_spec.
    pose proof (reads_anchored
                  (noField field || includes modifiers (str "contains")
                   || includes modifiers (str "endswith"))
                  (noField field || includes modifiers (str "contains")
                   || includes modifiers (str "startswith"))
                  (reads_text _ _ reads_glob_unit p))
      as Hr.
    rewrite (close_appends (appends_text _ _ appends_glob_unit p)) in Hr.
    exact Hr.
Qed.

(** [new RegExp] on the sources of a list of patterns joined by [|]. *)
Lemma RegExp_new_patterns field modifiers patterns :
  includes modifiers (str "re") = false ->
  includes modifiers (str "base64offset") = false ->
  patterns <> [] ->
  RegExp_new
    (join (str "|") (map (processPattern field modifiers) patterns)) true
  = Returns
      {| pattern :=
           disjunction_of
             (map (fun p =>
                     sequence
                       (anchored_terms (atStart field modifiers)
                          (atEnd field modifiers) (text_regex modifiers p)))
                  patterns);
         ignoreCase := true |}.
Proof.
  intros Hre Hoff Hne. unfold RegExp_new.
  rewrite (parse_reads
             (reads_alternatives (processPattern field modifiers)
                (pattern_frame field modifiers) patterns
                (fun p _ => processPattern_reads field modifiers p Hre Hoff))).
  rewrite (close_alternatives _
             (fun p => anchored_terms (atStart field modifiers)
                         (atEnd field modifiers) (text_regex modifiers p)));
    [reflexivity| |exact Hne].
  intros p _. apply appends_pattern_frame.
Qed.

Lemma RegExp_new_pattern field modifiers p :
  includes modifiers (str "re") = false ->
  includes modifiers (str "base64offset") = false ->
  RegExp_new (processPattern field modifiers p) true
  = Returns
      {| pattern :=
           sequence
             (anchored_terms (atStart field modifiers) (atEnd field modifiers)
                (text_regex modifiers p));
         ignoreCase := true |}.
Proof.
  intros Hre Hoff.
  exact (RegExp_new_patterns field modifiers [p] Hre Hoff ltac:(discriminate)).
Qed.

(** The matcher [_compile] returns outside the branches for [cidr], [re]
    and [base64offset]: some pattern accepts the value, or with [all]
    every pattern does. *)
Lemma compile_patterns field modifiers patterns :
  includes modifiers (str "cidr") = false ->
  includes modifiers (str "re") = false ->
  includes modifiers (str "base64offset") = false ->
  patterns <> [] ->
  exists matches,
    _compile field modifiers patterns = Returns matches
    /\ forall s,
        matches s
        = if includes modifiers (str "all")
          then forallb (fun p => pattern_matches field modifiers p s) patterns
          else existsb (fun p => pattern_matches field modifiers p s) patterns.
Proof.
  intros Hcidr Hre Hoff Hne. unfold _compile. rewrite Hcidr.
  destruct (includes modifiers (str "all")).
  - rewrite (mapM_Returns _
               (fun p =>
                  {| pattern :=
                       sequence
                         (anchored_terms (atStart field modifiers)
                            (atEnd field modifiers) (text_regex modifiers p));
                     ignoreCase := true |}))
      by (intros p _; apply RegExp_new_pattern; assumption).
    eexists; split; [reflexivity|]. intros s. cbv beta.
    rewrite forallb_of_map. apply forallb_pointwise. intros p.
    unfold RegExp_test, pattern_matches; cbn [ignoreCase pattern].
    apply test_anchored.
  - rewrite RegExp_new_patterns by assumption.
    eexists; split; [reflexivity|]. intros s.
    unfold RegExp_test; cbn [ignoreCase pattern].
    rewrite test_disjunction_of, existsb_of_map
      by (destruct patterns; [congruence|discriminate]).
    apply existsb_ext. intros p. apply test_anchored.
Qed.

(** C7, as the code has it.  For a pattern compiled without [re] and
    without [base64offset], [processPattern] writes the text of the pattern
    in a group, with [^] before it exactly when the atom has a field and
    carries neither [contains] nor [endswith], and [$] after it exactly
    when the atom has a field and carries neither [contains] nor
    [startswith]; the source compiles, and the compiled pattern accepts a
    value exactly when some span of the value is in the language of the
    text, from the start of the value when [^] was written and to its end
    when [$] was.  With no field neither anchor is written: any span
    will do. *)
Theorem pattern_anchoring (field : option jsstring)
  (modifiers : list jsstring) (p s : jsstring) :
  includes modifiers (str "re") = false ->
  includes modifiers (str "base64offset") = false ->
  (exists text,
      processPattern field modifiers p
      = (if atStart field modifiers then str "^" else [])
        ++ str "(?:" ++ text ++ str ")"
        ++ (if atEnd field modifiers then str "$" else []))
  /\ (exists r,
         RegExp_new (processPattern field modifiers p) true = Returns r
         /\ RegExp_test r s
            = anchored_match Canonicalize s (atStart field modifiers)
                (atEnd field modifiers) (text_regex modifiers p))
  /\ (noField field = true ->
      atStart field modifiers = false /\ atEnd field modifiers = false).
Proof.
  intros Hre Hoff. split; [|split].
  - unfold processPattern, atStart, atEnd. rewrite Hre, Hoff.
    eexists.
    destruct (noField field || includes modifiers (str "contains")
              || includes modifiers (str "endswith"));
      destruct (noField field || includes modifiers (str "contains")
                || includes modifiers (str "startswith"));
      reflexivity.
  - rewrite RegExp_new_pattern by assumption.
    eexists; split; [reflexivity|].
    unfold RegExp_test; cbn [ignoreCase pattern]. apply test_anchored.
  - intros Hn. unfold atStart, atEnd. rewrite Hn. split; reflexivity.
Qed.

(** A fieldless atom without modifiers accepts an entry when one of its
    patterns matches a span of the message. *)
Lemma keyword_exprMatches (field : option jsstring) (patterns : list jsstring)
  (entry : LogEntry) (opts : option MatchOptions) :
  noField field = true ->
  exprMatches (SearchAtom field [] patterns) entry opts
  = Returns
      (existsb (fun p => pattern_matches None [] p (message entry)) patterns).
Proof.
  intros Hn. cbn [exprMatches]. unfold SearchAtom_exprMatches, validate.
  destruct patterns as [|p ps]; [reflexivity|].
  destruct (compile_patterns field [] (p :: ps)) as [matches [Hc Hm]];
    try reflexivity; [discriminate|].
  cbn [length Nat.eqb validate_modifiers negb bind _expandPatterns includes
       existsb].
  rewrite Hc. cbn [bind]. rewrite Hm. cbn [includes existsb].
  assert (Hp : forall q v, pattern_matches field [] q v
                           = pattern_matches None [] q v).
  { intros q v. unfold pattern_matches, atStart, atEnd. rewrite Hn.
    reflexivity. }
  destruct field as [[|c f]|]; [|discriminate|reflexivity].
  rewrite Hp; f_equal; f_equal; apply existsb_ext; intros q; apply Hp.
Qed.

(** C9.  The atom a list of fieldless atoms without modifiers is merged
    into, with their patterns one after the other, evaluates on every
    entry to the boolean the disjunction of the atoms evaluates to. *)
Theorem keywords_collapse (atoms : list Expr) (entry : LogEntry)
  (opts : option MatchOptions) :
  forallb isKeyword atoms = true ->
  exists b,
    exprMatches (SearchAtom None [] (flat_map patternsOf atoms)) entry opts
    = Returns b
    /\ exprMatches (OrExpr atoms) entry opts = Returns b.
Proof.
  intros Hk.
  exists (existsb (fun p => pattern_matches None [] p (message entry))
            (flat_map patternsOf atoms)).
  split; [apply keyword_exprMatches; reflexivity|].
  cbn [exprMatches].
  induction atoms as [|e atoms IH]; [reflexivity|].
  cbn [forallb] in Hk. apply andb_prop in Hk. destruct Hk as [He Hk].
  destruct e as [| | | |field modifiers patterns]; try discriminate.
  cbn [isKeyword] in He. apply andb_prop in He. destruct He as [Hn Hm].
  destruct modifiers; [|discriminate].
  rewrite (keyword_exprMatches field patterns entry opts Hn).
  cbn [bind flat_map patternsOf]. rewrite existsb_app.
  destruct (existsb _ patterns); [reflexivity|]. apply IH; exact Hk.
Qed.

Lemma Expr_induction (P : Expr -> Prop) :
  (forall name x, P x -> P (NamedExpr name x)) ->
  (forall x, P x -> P (NotExpr x)) ->
  (forall xs, Forall P xs -> P (AndExpr xs)) ->
  (forall xs, Forall P xs -> P (OrExpr xs)) ->
  (forall field modifiers patterns, P (SearchAtom field modifiers patterns)) ->
  forall e, P e.
Proof.
  intros P_Named P_Not P_And P_Or P_Atom.
  fix IH 1. intros [name x|x|xs|xs|field modifiers patterns].
  - apply P_Named, IH.
  - apply P_Not, IH.
  - apply P_And. induction xs as [|x xs IHxs]; constructor; [apply IH|exact IHxs].
  - apply P_Or. induction xs as [|x xs IHxs]; constructor; [apply IH|exact IHxs].
  - apply P_Atom.
Qed.






Lemma literal_pattern_matches field modifiers p s :
  includes modifiers (str "base64") = false ->
  includes modifiers (str "windash") = false ->
  isLiteral p = true ->
  pattern_matches field modifiers p s
  = occurs Canonicalize s (atStart field modifiers) (atEnd field modifiers) p.
Proof.
  intros Hb Hw Hl. unfold pattern_matches, text_regex.
  rewrite Hb, Hw, (glob_literal p Hl). apply anchored_literal.
Qed.

(** Patterns without wildcards, compiled as globs: the matcher accepts a
    value when some pattern occurs in it (with [all]: when every pattern
    does), at the start of the value if the pattern is anchored there and
    up to its end if it is anchored there. *)
Theorem literal_patterns (field : option jsstring)
  (modifiers patterns : list jsstring) :
  forallb (fun m => negb (includes modifiers m))
    [str "cidr"; str "re"; str "base64offset"; str "base64"; str "windash"]
  = true ->
  patterns <> [] ->
  forallb isLiteral patterns = true ->
  exists matches,
    _compile field modifiers patterns = Returns matches
    /\ forall s,
        matches s
        = let accepts p :=
            occurs Canonicalize s (atStart field modifiers)
              (atEnd field modifiers) p in
          if includes modifiers (str "all")
          then forallb accepts patterns
          else existsb accepts patterns.
Proof.
  intros Hm Hne Hl. cbn [forallb] in Hm.
  repeat (apply andb_prop in Hm; destruct Hm as [?H Hm]).
  repeat match goal with
         | Hn : negb _ = true |- _ => apply negb_true_iff in Hn
         end.
  destruct (compile_patterns field modifiers patterns) as [matches [Hc Hs]];
    try assumption.
  exists matches. split; [exact Hc|]. intros s. rewrite Hs. cbv zeta.
  assert (Hp : forall p, In p patterns ->
                         pattern_matches field modifiers p s
                         = occurs Canonicalize s (atStart field modifiers)
                             (atEnd field modifiers) p).
  { intros p Hin. apply literal_pattern_matches; try assumption.
    exact (proj1 (forallb_forall _ _) Hl p Hin). }
  clear Hs Hc Hl Hne.
  destruct (includes modifiers (str "all"));
    induction patterns as [|p ps IH]; try reflexivity; cbn [forallb existsb];
    rewrite (Hp p (or_introl eq_refl)), IH;
    try reflexivity; intros q Hq; apply Hp; right; exact Hq.
Qed.

(** A named field without modifiers asks for the whole value: with
    patterns without wildcards, the atom accepts an entry exactly when the
    value of the field equals one of the patterns, code units compared
    under the engine's case folding. *)
Theorem plain_field_full_match (field : jsstring)
  (patterns : list jsstring) (entry : LogEntry) (opts : option MatchOptions) :
  field <> [] ->
  forallb isLiteral patterns = true ->
  exprMatches (SearchAtom (Some field) [] patterns) entry opts
  = Returns
      (existsb
         (fun p =>
            streq
              (map Canonicalize
                 (fieldContentOf (toLowerCase field) (fields entry)))
              (map Canonicalize p))
         patterns).
Proof.
  intros Hf Hl. cbn [exprMatches]. unfold SearchAtom_exprMatches, validate.
  destruct patterns as [|p ps]; [reflexivity|].
  destruct (literal_patterns (Some field) [] (p :: ps) eq_refl
              ltac:(discriminate) Hl) as [matches [Hc Hm]].
  cbn [length Nat.eqb validate_modifiers negb bind _expandPatterns includes
       existsb].
  rewrite Hc. cbn [bind]. rewrite Hm. cbv zeta. cbn [includes existsb].
  destruct field as [|c field]; [congruence|].
  unfold atStart, atEnd. cbn [noField includes existsb orb negb].
  rewrite occurs_whole. f_equal. f_equal.
  apply existsb_ext. intros q. apply occurs_whole.
Qed.

End CompileFacts.

Lemma pattern_anchoring_witness :
  exists r,
    RegExp_new
      (processPattern (Some (str "Image")) [str "endswith"] (str "\cmd.exe"))
      true = Returns r
    /\ RegExp_test (H := Reference.host) r (str "C:\Windows\CMD.EXE")
       = Patterns.anchored_match (Canonicalize (Host := Reference.host))
           (str "C:\Windows\CMD.EXE") false true
           (Patterns.glob_regex (str "\cmd.exe")).
Proof.
  exact (proj1 (proj2 (@pattern_anchoring Reference.host (Some (str "Image"))
                         [str "endswith"] (str "\cmd.exe")
                         (str "C:\Windows\CMD.EXE") eq_refl eq_refl))).
Defined.

Lemma keywords_collapse_witness :
  exists b,
    exprMatches (H := Reference.host)
      (SearchAtom None [] [str "foo"; str "bar"])
      {| message := str "Hello foo"; fields := [] |} None = Returns b
    /\ exprMatches (H := Reference.host)
         (OrExpr [SearchAtom None [] [str "foo"];
                  SearchAtom None [] [str "bar"]])
         {| message := str "Hello foo"; fields := [] |} None = Returns b.
Proof.
  exact (@keywords_collapse Reference.host
           [SearchAtom None [] [str "foo"]; SearchAtom None [] [str "bar"]]
           {| message := str "Hello foo"; fields := [] |} None eq_refl).
Defined.

(** C7 as stated fails: with [re] the pattern of a named field carries no
    anchor, and the atom matches inside the value. *)
Lemma re_pattern_not_anchored :
  processPattern (Some (str "Image")) [str "re"] (str "cmd") = str "(?:cmd)"
  /\ exprMatches (H := Reference.host)
       (SearchAtom (Some (str "Image")) [str "re"] [str "cmd"])
       {| message := []; fields := [(str "Image", str "a cmd b")] |} None
     = Returns true
  /\ processPattern (Some (str "Image")) [str "base64offset"] (str "cmd")
     = str "(?:Y21k|NtZ|jbW)".
Proof. repeat split; reflexivity. Qed.

Lemma missing_field_is_empty_string_witness :
  exprMatches (H := Reference.host)
    (SearchAtom (Some (str "User")) [str "endswith"] [str "admin"])
    {| message := []; fields := [(str "Image", str "cmd.exe")] |} None
  = exprMatches (H := Reference.host)
      (SearchAtom (Some (str "User")) [str "endswith"] [str "admin"])
      {| message := []; fields := [(str "User", [])] |} None.
Proof.
  refine (@missing_field_is_empty_string Reference.host (str "User")
            [str "endswith"] [str "admin"]
            {| message := []; fields := [(str "Image", str "cmd.exe")] |}
            None _ _).
  - discriminate.
  - intros key value [E|[]]. inversion E; subst. discriminate.
Defined.

(** C3 as stated fails: the entry has no key that equals the field name in
    any case, and the atom matches, because its pattern accepts the empty
    string. *)
Lemma missing_field_can_match :
  exprMatches (H := Reference.host)
    (SearchAtom (Some (str "User")) [] [str "*"])
    {| message := str "logon"; fields := [(str "Image", str "cmd.exe")] |}
    None
  = Returns true.
Proof. reflexivity. Qed.

Lemma cidr_matcher_witness :
  exists matches,
    _compile (H := Reference.host) (Some (str "DestinationIp")) [str "cidr"]
      [str "10.0.0.0/8"] = Returns matches
    /\ matches (str "10.1.2.3") = true.
Proof.
  destruct (@cidr_matcher Reference.host (Some (str "DestinationIp"))
              [str "cidr"] [str "10.0.0.0/8"] (str "10.1.2.3") eq_refl)
    as [matches [Hc Hm]].
  exists matches. split; [exact Hc|].
  apply Hm. left.
  exists (167838211%N, 32%N), (str "10.0.0.0/8"), (167772160%N, 8%N).
  repeat split; try reflexivity. left; reflexivity.
Defined.

(** The examples of C8 on the reference host: an address inside the
    network, one outside it, and candidates of the other family. *)
Example cidr_examples :
  let atom := SearchAtom (Some (str "DestinationIp")) [str "cidr"] in
  let entry ip := {| message := []; fields := [(str "DestinationIp", ip)] |} in
  exprMatches (H := Reference.host) (atom [str "10.0.0.0/8"])
    (entry (str "10.1.2.3")) None = Returns true
  /\ exprMatches (H := Reference.host) (atom [str "10.0.0.0/8"])
       (entry (str "11.1.2.3")) None = Returns false
  /\ exprMatches (H := Reference.host) (atom [str "10.0.0.0/8"])
       (entry (str "::ffff:a01:203")) None = Returns false
  /\ exprMatches (H := Reference.host) (atom [str "fe80::/10"])
       (entry (str "10.1.2.3")) None = Returns false
  /\ exprMatches (H := Reference.host) (atom [str "fe80::/10"])
       (entry (str "fe80::1")) None = Returns true
  /\ exprMatches (H := Reference.host) (atom [str "10.0.0.0/8"])
       (entry (str "not an address")) None = Returns false.
Proof. repeat split; reflexivity. Qed.


Lemma compile_cache_transparent_witness :
  snd (_compile_cached (H := Reference.host) (Some (str "Image")) [] None
         [str "cmd.exe"])
  = _compile (H := Reference.host) (Some (str "Image")) [] [str "cmd.exe"]
  /\ coherent (H := Reference.host) (Some (str "Image")) []
       (fst (_compile_cached (H := Reference.host) (Some (str "Image")) []
               None [str "cmd.exe"])).
Proof.
  exact (@compile_cache_transparent Reference.host (Some (str "Image")) []
           None [str "cmd.exe"] I).
Defined.


Lemma plain_field_full_match_witness :
  exprMatches (H := Reference.host)
    (SearchAtom (Some (str "eventName")) []
       [str "StopLogging"; str "UpdateTrail"; str "DeleteTrail"])
    {| message := [];
       fields := [(str "eventSource", str "cloudtrail.amazonaws.com");
                  (str "eventName", str "StopLoggingOrElse")] |}
    None
  = Returns false.
Proof.
  exact (@plain_field_full_match Reference.host (str "eventName")
           [str "StopLogging"; str "UpdateTrail"; str "DeleteTrail"]
           {| message := [];
              fields := [(str "eventSource", str "cloudtrail.amazonaws.com");
                         (str "eventName", str "StopLoggingOrElse")] |}
           None ltac:(discriminate) eq_refl).
Defined.

(** ** The repository's detection tests, on the reference host

    The trees are those the parse tests expect for the rule files, the
    entries and the verdicts those of the detection tests. *)

Example test_aws_cloudtrail_disable_logging :
  let rule :=
    NamedExpr (str "selection_source")
      (AndExpr
         [SearchAtom (Some (str "eventSource")) []
            [str "cloudtrail.amazonaws.com"];
          SearchAtom (Some (str "eventName")) []
            [str "StopLogging"; str "UpdateTrail"; str "DeleteTrail"]]) in
  let entry source name :=
    {| message := [];
       fields := [(str "eventSource", source); (str "eventName", name)] |} in
  exprMatches (H := Reference.host) rule
    (entry (str "cloudtrail.amazonaws.com") (str "StopLogging")) None
  = Returns true
  /\ exprMatches (H := Reference.host) rule
       (entry (str "cloudtrail.amazonaws.com") (str "StartLogging")) None
     = Returns false
  /\ exprMatches (H := Reference.host) rule
       (entry (str "example.com") (str "StopLogging")) None
     = Returns false
  /\ exprMatches (H := Reference.host) rule
       (entry (str "cloudtrail.amazonaws.com") (str "StopLoggingOrElse")) None
     = Returns false.
Proof. repeat split; reflexivity. Qed.

Example test_lnx_buffer_overflows :
  let rule :=
    NamedExpr (str "keywords")
      (SearchAtom None []
         [str "attempt to execute code on stack by";
          str "FTP LOGIN FROM .* 0bin0sh";
          str "rpc.statd[\d+]: gethostbyname error for";
          str "AAAAAAAAAAAAAAAAAAAAAAAAAAAAAAAAAAAAAAA"]) in
  exprMatches (H := Reference.host) rule
    {| message := str "hello world"; fields := [] |} None
  = Returns false
  /\ exprMatches (H := Reference.host) rule
       {| message :=
            str "THERE WAS AN ATTEMPT TO EXECUTE CODE ON STACK BY MAIN";
          fields := [] |} None
     = Returns true.
Proof. repeat split; reflexivity. Qed.

Example test_file_access_win_browser_credential_access :
  let named name field modifiers patterns :=
    NamedExpr name (SearchAtom (Some field) modifiers patterns) in
  let rule :=
    AndExpr
      [OrExpr
         [named (str "selection_chromium") (str "FileName") [str "contains"]
            [str "\Appdata\Local\Chrome\User Data\Default\Login Data";
             str "\AppData\Local\Google\Chrome\User Data\Default\Network\Cookies";
             str "\AppData\Local\Google\Chrome\User Data\Local State"];
          named (str "selection_firefox") (str "FileName") [str "endswith"]
            [str "\cookies.sqlite"; str "release\key3.db";
             str "release\key4.db"; str "release\logins.json"];
          named (str "selection_ie") (str "FileName") [str "endswith"]
            [str "\Appdata\Local\Microsoft\Windows\WebCache\WebCacheV01.dat"]];
       NotExpr
         (OrExpr
            [named (str "filter_main_generic") (str "Image") [str "contains"]
               [str ":\Program Files (x86)\"; str ":\Program Files\";
                str ":\Windows\system32\"; str ":\Windows\SysWOW64\"];
             named (str "filter_main_system") (str "Image") [] [str "System"]]);
       NotExpr
         (OrExpr
            [NamedExpr (str "filter_optional_defender")
               (AndExpr
                  [SearchAtom (Some (str "Image")) [str "contains"]
                     [str ":\ProgramData\Microsoft\Windows Defender\"];
                   SearchAtom (Some (str "Image")) [str "endswith"]
                     [str "\MpCopyAccelerator.exe"; str "\MsMpEng.exe"]]);
             named (str "filter_optional_thor") (str "Image") [str "endswith"]
               [str "\thor64.exe"; str "\thor.exe"]])] in
  let entry image file :=
    {| message := [];
       fields := [(str "Image", image); (str "FileName", file)] |} in
  let login :=
    str "C:\Users\light\AppData\Local\Chrome\User Data\Default\Login Data" in
  exprMatches (H := Reference.host) rule
    (entry (str "example.exe") (str "C:\foo.txt")) None
  = Returns false
  /\ exprMatches (H := Reference.host) rule
       (entry (str "example.exe") login) None
     = Returns true
  /\ exprMatches (H := Reference.host) rule (entry (str "System") login) None
     = Returns false.
Proof. repeat split; reflexivity. Qed.

(* ===================================================================== *)
(** * Further properties *)
(* ===================================================================== *)

(** ** The evaluation of trees *)

Section TreeFacts.
Context {H : Host}.

(** Negation goes through the tree as in Boolean algebra, results and
    failures alike: a double negation evaluates as its operand, the
    negation of a conjunction as the disjunction of the negations, and the
    negation of a disjunction as the conjunction of the negations. *)
Theorem negation_laws (x : Expr) (xs : list Expr) (entry : LogEntry)
  (opts : option MatchOptions) :
  exprMatches (NotExpr (NotExpr x)) entry opts = exprMatches x entry opts
  /\ exprMatches (NotExpr (AndExpr xs)) entry opts
     = exprMatches (OrExpr (map NotExpr xs)) entry opts
  /\ exprMatches (NotExpr (OrExpr xs)) entry opts
     = exprMatches (AndExpr (map NotExpr xs)) entry opts.
Proof.
  split; [|split].
  - cbn [exprMatches].
    destruct (exprMatches x entry opts) as [b| |]; cbn [bind];
      [rewrite negb_involutive|..]; reflexivity.
  - cbn [exprMatches]. induction xs as [|y ys IH]; [reflexivity|].
    cbn [map].
    change (exprMatches (NotExpr y) entry opts)
      with (bind (exprMatches y entry opts) (fun b => Returns (negb b))).
    destruct (exprMatches y entry opts) as [[|]| |]; cbn [bind negb];
      try reflexivity. exact IH.
  - cbn [exprMatches]. induction xs as [|y ys IH]; [reflexivity|].
    cbn [map].
    change (exprMatches (NotExpr y) entry opts)
      with (bind (exprMatches y entry opts) (fun b => Returns (negb b))).
    destruct (exprMatches y entry opts) as [[|]| |]; cbn [bind negb];
      try reflexivity. exact IH.
Qed.

End TreeFacts.


(** ** The encoders of [base64offset] and [windash] *)

Lemma list_ind3 {A} (P : list A -> Prop) :
  P [] -> (forall x, P [x]) -> (forall x y, P [x; y]) ->
  (forall x y z l, P l -> P (x :: y :: z :: l)) -> forall l, P l.
Proof.
  intros H0 H1 H2 H3. fix IH 1. intros [|x [|y [|z l]]].
  - exact H0.
  - exact (H1 x).
  - exact (H2 x y).
  - exact (H3 x y z l (IH l)).
Qed.

Lemma mod3_step n : S (S (S n)) mod 3 = n mod 3.
Proof.
  replace (S (S (S n))) with (n + 1 * 3) by lia. apply Nat.Div0.mod_add.
Qed.

Lemma div3_step n : S (S (S n)) / 3 = S (n / 3).
Proof.
  replace (S (S (S n))) with (n + 1 * 3) by lia.
  rewrite Nat.div_add by lia. lia.
Qed.

Lemma base64_chunks (p q : list N) :
  length p mod 3 = 0 ->
  Buffer.toString_base64 (p ++ q)
  = Buffer.toString_base64 p ++ Buffer.toString_base64 q.
Proof.
  induction p as [|x|x y|x y z p IH] using list_ind3; intros Hp;
    try discriminate; [reflexivity|].
  cbn [length] in Hp. rewrite mod3_step in Hp.
  cbn [app Buffer.toString_base64]. rewrite (IH Hp). reflexivity.
Qed.

Lemma base64_length (b : list N) :
  length (Buffer.toString_base64 b) = 4 * ((length b + 2) / 3).
Proof.
  induction b as [|x|x y|x y z b IH] using list_ind3; try reflexivity.
  cbn [Buffer.toString_base64 app length]. rewrite IH.
  replace (S (S (S (length b))) + 2) with (S (S (S (length b + 2)))) by lia.
  rewrite div3_step. lia.
Qed.

Lemma base64_prefix_stable (u v : list N) :
  firstn (digits_fixed (length u)) (Buffer.toString_base64 (u ++ v))
  = firstn (digits_fixed (length u)) (Buffer.toString_base64 u).
Proof.
  induction u as [|x|x y|x y z u IH] using list_ind3.
  - reflexivity.
  - destruct v as [|a [|b v]]; reflexivity.
  - destruct v as [|a v]; reflexivity.
  - unfold digits_fixed in *. cbn [length]. rewrite mod3_step, div3_step.
    replace (4 * S (length u / 3) + length u mod 3)
      with (S (S (S (S (4 * (length u / 3) + length u mod 3))))) by lia.
    cbn [app Buffer.toString_base64 firstn]. rewrite IH. reflexivity.
Qed.

Lemma base64_suffix_stable (t t' w : list N) :
  length t = length t' -> length t < 3 ->
  skipn (start_offset (length t)) (Buffer.toString_base64 (t ++ w))
  = skipn (start_offset (length t)) (Buffer.toString_base64 (t' ++ w)).
Proof.
  intros Hl Ht.
  destruct t as [|a [|b [|c t]]], t' as [|a' [|b' [|c' t']]];
    try discriminate; cbn [length] in Ht; try lia.
  - reflexivity.
  - destruct w as [|x [|y w]]; reflexivity.
  - destruct w as [|x w]; reflexivity.
Qed.

Lemma substring_spec (s : jsstring) (a b : nat) :
  a <= b -> b <= length s ->
  substring s (Z.of_nat a) (Z.of_nat b) = firstn (b - a) (skipn a s).
Proof.
  intros Hab Hb. unfold substring.
  rewrite !Z.max_l by lia. rewrite !Z.min_l by lia.
  rewrite !Nat2Z.id, Nat.min_l, Nat.max_r by lia. reflexivity.
Qed.

Lemma from_nonempty (s : jsstring) : s <> [] -> Buffer.from s <> [].
Proof.
  destruct s as [|c s]; [congruence|]. intros _. cbn [Buffer.from].
  repeat match goal with
         | |- context [if ?b then _ else _] => destruct b
         | |- context [match ?l with [] => _ | _ :: _ => _ end] => destruct l
         end; discriminate.
Qed.

Lemma split_mod3 {A} (l : list A) :
  exists whole part,
    l = whole ++ part /\ length whole mod 3 = 0
    /\ length part = length l mod 3.
Proof.
  induction l as [|x|x y|x y z l IH] using list_ind3.
  - exists [], []. repeat split.
  - exists [], [x]. repeat split.
  - exists [], [x; y]. repeat split.
  - destruct IH as (whole & part & -> & Hw & Hp).
    exists (x :: y :: z :: whole), part. cbn [length app].
    rewrite !mod3_step. repeat split; assumption.
Qed.

Lemma digits_fixed_ge n : n <= digits_fixed n.
Proof. unfold digits_fixed. pose proof (Nat.div_mod_eq n 3). lia. Qed.

Lemma div3_plus2 n :
  (n + 2) / 3 = n / 3 + (if n mod 3 =? 0 then 0 else 1).
Proof.
  pose proof (Nat.div_mod_eq n 3) as E.
  pose proof (Nat.mod_upper_bound n 3 ltac:(lia)) as B.
  destruct (n mod 3) as [|[|[|k]]] eqn:Er; try lia; cbn [Nat.eqb].
  - symmetry. apply (Nat.div_unique (n + 2) 3 _ 2); lia.
  - symmetry. apply (Nat.div_unique (n + 2) 3 _ 0); lia.
  - symmetry. apply (Nat.div_unique (n + 2) 3 _ 1); lia.
Qed.

Lemma end_offset_spec n :
  (Z.of_nat (4 * ((n + 2) / 3)) + nth (n mod 3) [0; -3; -2] 0)%Z
  = Z.of_nat (digits_fixed n).
Proof.
  unfold digits_fixed. rewrite div3_plus2.
  pose proof (Nat.mod_upper_bound n 3 ltac:(lia)) as B.
  destruct (n mod 3) as [|[|[|k]]]; cbn [nth Nat.eqb]; lia.
Qed.

Lemma digits_fixed_le (u : list N) :
  digits_fixed (length u) <= length (Buffer.toString_base64 u).
Proof.
  rewrite base64_length. unfold digits_fixed. rewrite div3_plus2.
  pose proof (Nat.mod_upper_bound (length u) 3 ltac:(lia)) as B.
  destruct (length u mod 3) as [|[|[|k]]]; cbn [Nat.eqb]; lia.
Qed.

Lemma variant_in_encoding (i : nat) (t b post : list N) :
  length t = i -> i < 3 -> b <> [] ->
  let encoded := Buffer.toString_base64 (repeat (ch " ") i ++ b) in
  exists r,
    skipn (start_offset i) (Buffer.toString_base64 (t ++ b ++ post))
    = substring encoded (nth i [0; 2; 3]%Z 0%Z)
        (Z.of_nat (length encoded)
         + nth ((length b + i) mod 3) [0; -3; -2]%Z 0%Z)
      ++ r.
Proof.
  intros Ht Hi Hb encoded.
  set (n := length (repeat (ch " ") i ++ b)).
  assert (Hn : n = length b + i)
    by (unfold n; rewrite length_app, repeat_length; unfold codeunit; lia).
  assert (Hs : nth i [0; 2; 3]%Z 0%Z = Z.of_nat (start_offset i))
    by (destruct i as [|[|[|i]]]; try lia; reflexivity).
  assert (He : (Z.of_nat (length encoded)
                + nth ((length b + i) mod 3) [0; -3; -2] 0)%Z
               = Z.of_nat (digits_fixed n)).
  { unfold encoded. rewrite base64_length. fold n. rewrite <- Hn.
    apply end_offset_spec. }
  rewrite Hs, He.
  assert (Hlen : 1 <= length b) by (destruct b; [congruence|cbn; lia]).
  rewrite substring_spec.
  - set (whole := Buffer.toString_base64 ((repeat (ch " ") i ++ b) ++ post)).
    assert (E : firstn (digits_fixed n) whole
                = firstn (digits_fixed n) encoded)
      by apply base64_prefix_stable.
    exists (skipn (digits_fixed n - start_offset i)
              (skipn (start_offset i) whole)).
    rewrite <- skipn_firstn_comm, <- E, skipn_firstn_comm, firstn_skipn.
    unfold whole. rewrite <- app_assoc. subst i.
    apply base64_suffix_stable; [rewrite repeat_length; reflexivity|exact Hi].
  - pose proof (digits_fixed_ge n).
    clear - Hn Hlen Hi H. unfold codeunit in *.
    destruct i as [|[|[|i]]]; cbn [start_offset nth]; lia.
  - apply digits_fixed_le.
Qed.

(** The contract of [base64Permute]: whatever bytes come before and after
    the pattern in a text, the base64 encoding of the text holds the
    variant whose index is the number of bytes before the pattern modulo
    three. *)
Theorem base64Permute_offsets (input : jsstring) (pre post : list N) :
  input <> [] ->
  exists l r,
    Buffer.toString_base64 (pre ++ Buffer.from input ++ post)
    = l ++ nth (length pre mod 3) (base64Permute input) [] ++ r.
Proof.
  intros Hi.
  destruct (split_mod3 pre) as (whole & part & -> & Hw & Hp).
  rewrite <- Hp, <- app_assoc, (base64_chunks _ _ Hw).
  assert (Hb : length part < 3)
    by (rewrite Hp; apply Nat.mod_upper_bound; lia).
  destruct (variant_in_encoding (length part) part (Buffer.from input) post
              eq_refl Hb (from_nonempty input Hi)) as [r Hr].
  exists (Buffer.toString_base64 whole
          ++ firstn (start_offset (length part))
               (Buffer.toString_base64 (part ++ Buffer.from input ++ post))).
  exists r. unfold base64Permute.
  destruct input as [|c input]; [congruence|]. cbn [length Nat.eqb].
  rewrite <- app_assoc.  f_equal.
  rewrite <- (firstn_skipn (start_offset (length part))
                (Buffer.toString_base64 (part ++ _ ++ post))) at 1.
  f_equal. rewrite Hr. f_equal.
  destruct part as [|a [|b [|d part]]]; cbn [length] in Hb; try lia;
    reflexivity.
Qed.


Lemma base64Permute_offsets_witness :
  exists l r,
    Buffer.toString_base64 ([120%N] ++ Buffer.from (str "/bin/bash") ++ [])
    = l ++ nth 1 (base64Permute (str "/bin/bash")) [] ++ r.
Proof.
  exact (base64Permute_offsets (str "/bin/bash") [120%N] []
           ltac:(discriminate)).
Defined.

Lemma replace_dash_cases (input : jsstring) :
  forall afterWord,
    (forall dash, replace_dash afterWord input dash = input)
    \/ exists before d after,
        input = before ++ d :: after
        /\ isDash d = true
        /\ forall dash,
            replace_dash afterWord input dash = before ++ dash ++ after.
Proof.
  induction input as [|c rest IH]; intros afterWord; [left; reflexivity|].
  cbn [replace_dash]. fold (isDash c).
  destruct (isDash c && negb afterWord
            && match rest with d :: _ => isWordChar d | [] => false end)
    eqn:E.
  - right. exists [], c, rest. apply andb_prop in E. destruct E as [E _].
    apply andb_prop in E. destruct E as [E _]. repeat split. exact E.
  - destruct (IH (isWordChar c)) as [Hsame|(before & d & after & -> & Hd & Hr)].
    + left. intros dash. rewrite Hsame. reflexivity.
    + right. exists (c :: before), d, after. repeat split; [exact Hd|].
      intros dash. rewrite Hr. reflexivity.
Qed.

(** [windashPermute] varies one position at most: the five variants have
    the length of the input and the input is one of them; either all five
    are the input, or they differ from it in the first dash or slash that
    starts a word, which each takes one of the five dashes. *)
Theorem windashPermute_variants (input : jsstring) :
  In input (windashPermute input)
  /\ Forall (fun variant => length variant = length input)
       (windashPermute input)
  /\ (windashPermute input = map (fun _ => input) windowsParamDashes
      \/ exists before d after,
          input = before ++ d :: after
          /\ isDash d = true
          /\ windashPermute input
             = map (fun dash => before ++ dash ++ after) windowsParamDashes).
Proof.
  unfold windashPermute.
  destruct (replace_dash_cases input false)
    as [Hsame|(before & d & after & -> & Hd & Hr)].
  - rewrite (map_ext _ (fun _ => input) Hsame).
    split; [left; reflexivity|]. split; [|left; reflexivity].
    repeat constructor.
  - rewrite (map_ext _ (fun dash => before ++ dash ++ after) Hr).
    split; [|split].
    + unfold isDash in Hd. apply orb_prop in Hd.
      destruct Hd as [Hd|Hd]; apply N.eqb_eq in Hd; subst d;
        cbn [windowsParamDashes map In]; auto.
    + cbn [windowsParamDashes map]. repeat constructor;
        rewrite !length_app; reflexivity.
    + right. exists before, d, after. repeat split. exact Hd.
Qed.


(** ** Escaped texts *)

Section EscapeFacts.

Import RegExp Patterns RegExpFacts.

Context {H : Host}.

Lemma existsb_true {A} (l : list A) : existsb (fun _ => true) l = nonempty l.
Proof. destruct l; reflexivity. Qed.

Lemma test_unanchored canon s r :
  test canon s r = anchored_match canon s false false r.
Proof.
  unfold test, anchored_match. apply existsb_ext. intros i.
  cbn [negb orb andb]. rewrite existsb_true. reflexivity.
Qed.

Lemma parse_escapeRegex p : parse (escapeRegex p) = Ok (literal_regex p).
Proof.
  change (escapeRegex p) with (flat_map escaped p).
  rewrite (parse_reads (reads_text escaped (fun c => Atom (Char c))
                          reads_escaped_unit p)).
  f_equal. apply close_appends.
  apply (appends_text (fun c => Atom (Char c)) Char).
  intros c. apply appends_atom.
Qed.

(** [escapeRegex] makes a pattern of any text: the engine accepts what it
    returns, and the pattern is found in a string exactly when the text
    occurs in it. *)
Theorem escapeRegex_literal (p : jsstring) (i : bool) :
  exists r,
    RegExp_new (escapeRegex p) i = Returns r
    /\ forall s,
        RegExp_test r s
        = occurs (if i then Canonicalize else fun c => c) s false false p.
Proof.
  unfold RegExp_new. rewrite parse_escapeRegex. eexists. split; [reflexivity|].
  intros s. unfold RegExp_test. cbn [ignoreCase pattern].
  rewrite test_unanchored. apply anchored_literal.
Qed.


Lemma existsb_flat_map {A B} (f : B -> bool) (g : A -> list B) (l : list A) :
  existsb f (flat_map g l) = existsb (fun a => existsb f (g a)) l.
Proof.
  induction l as [|a l IH]; [reflexivity|].
  cbn [flat_map existsb]. rewrite existsb_app, IH. reflexivity.
Qed.

Lemma existsb_andb {A} (b : bool) (f : A -> bool) (l : list A) :
  b && existsb f l = existsb (fun a => b && f a) l.
Proof.
  induction l as [|a l IH]; cbn [existsb]; [apply andb_false_r|].
  rewrite <- IH. destruct b; reflexivity.
Qed.

Lemma existsb_swap {A B} (f : A -> B -> bool) (la : list A) (lb : list B) :
  existsb (fun a => existsb (f a) lb) la
  = existsb (fun b => existsb (fun a => f a b) la) lb.
Proof.
  induction la as [|a la IH]; cbn [existsb].
  - symmetry. apply existsb_nowhere. reflexivity.
  - rewrite IH. symmetry. apply existsb_orb.
Qed.

Lemma ends_disjunction canon s r rs i :
  ends canon s (disjunction r rs) i
  = flat_map (fun r' => ends canon s r' i) (r :: rs).
Proof.
  revert r; induction rs as [|r' rs IH]; intros r.
  - cbn [disjunction flat_map]. rewrite app_nil_r. reflexivity.
  - cbn [disjunction]. change (ends canon s (Disj r (disjunction r' rs)) i)
      with (ends canon s r i ++ ends canon s (disjunction r' rs) i).
    rewrite IH. reflexivity.
Qed.

(** A group of alternatives between anchors accepts what one of the
    alternatives accepts between them. *)
Lemma anchored_alternatives canon s atStart atEnd (l : list regex) :
  l <> [] ->
  anchored_match canon s atStart atEnd (sequence [disjunction_of l])
  = existsb (anchored_match canon s atStart atEnd) l.
Proof.
  destruct l as [|r rs]; [congruence|]. intros _.
  unfold anchored_match. rewrite existsb_swap. apply existsb_ext. intros i.
  change (ends canon s (sequence [disjunction_of (r :: rs)]) i)
    with (flat_map (ends canon s (disjunction r rs)) [i]).
  cbn [flat_map]. rewrite app_nil_r, ends_disjunction, existsb_flat_map.
  apply existsb_andb.
Qed.

Lemma digit_literal n :
  negb (N.eqb (Buffer.digit n) (ch "*") || N.eqb (Buffer.digit n) (ch "?"))
  = true.
Proof.
  unfold Buffer.digit.
  assert (Hall : forallb
                   (fun c => negb (N.eqb c (ch "*") || N.eqb c (ch "?")))
                   Buffer.alphabet = true) by reflexivity.
  destruct (Nat.lt_ge_cases (N.to_nat n) (length Buffer.alphabet)) as [Hlt|Hge].
  - exact (proj1 (forallb_forall _ _) Hall _ (nth_In _ _ Hlt)).
  - rewrite (nth_overflow _ _ Hge). reflexivity.
Qed.

Lemma base64_literal (b : list N) :
  isLiteral (Buffer.toString_base64 b) = true.
Proof.
  unfold isLiteral.
  induction b as [|x|x y|x y z b IH] using list_ind3;
    cbn [Buffer.toString_base64 forallb app]; rewrite ?digit_literal;
    try reflexivity.
  exact IH.
Qed.


Lemma text_pattern_matches field modifiers p s :
  includes modifiers (str "windash") || includes modifiers (str "base64")
  = true ->
  pattern_matches field modifiers p s
  = existsb
      (occurs Canonicalize s (atStart field modifiers) (atEnd field modifiers))
      (textsOf modifiers p).
Proof.
  intros Hm. unfold pattern_matches, text_regex, textsOf.
  destruct (includes modifiers (str "windash")).
  - rewrite anchored_alternatives by discriminate.
    rewrite existsb_of_map. apply existsb_ext. intros v.
    apply anchored_literal.
  - cbn [orb] in Hm. rewrite Hm. cbn [existsb]. rewrite orb_false_r.
    rewrite (glob_literal _ (base64_literal _)). apply anchored_literal.
Qed.

(** Under [windash] and under [base64] the patterns are texts, not globs:
    the matcher accepts a value when one of the texts of some pattern (with
    [all]: of every pattern) occurs in it, between the anchors the atom
    has. *)
Theorem encoded_patterns_are_texts (field : option jsstring)
  (modifiers patterns : list jsstring) :
  forallb (fun m => negb (includes modifiers m))
    [str "cidr"; str "re"; str "base64offset"] = true ->
  includes modifiers (str "windash") || includes modifiers (str "base64")
  = true ->
  patterns <> [] ->
  exists matches,
    _compile field modifiers patterns = Returns matches
    /\ forall s,
        matches s
        = let accepts p :=
            existsb
              (occurs Canonicalize s (atStart field modifiers)
                 (atEnd field modifiers))
              (textsOf modifiers p) in
          if includes modifiers (str "all")
          then forallb accepts patterns
          else existsb accepts patterns.
Proof.
  intros Hm Ht Hne. cbn [forallb] in Hm.
  repeat (apply andb_prop in Hm; destruct Hm as [?H Hm]).
  repeat match goal with
         | Hn : negb _ = true |- _ => apply negb_true_iff in Hn
         end.
  destruct (compile_patterns field modifiers patterns) as [matches [Hc Hs]];
    try assumption.
  exists matches. split; [exact Hc|]. intros s. rewrite Hs. cbv zeta.
  destruct (includes modifiers (str "all")).
  - apply forallb_pointwise. intros p. apply text_pattern_matches, Ht.
  - apply existsb_ext. intros p. apply text_pattern_matches, Ht.
Qed.

End EscapeFacts.


Lemma encoded_patterns_are_texts_witness :
  exists matches,
    _compile (H := Reference.host) (Some (str "CommandLine"))
      [str "windash"; str "contains"] [str "-enc*"]
    = Returns matches
    /\ forall s,
        matches s
        = existsb
            (fun p =>
               existsb
                 (Patterns.occurs (Canonicalize (Host := Reference.host)) s
                    false false)
                 (windashPermute p))
            [str "-enc*"].
Proof.
  exact (@encoded_patterns_are_texts Reference.host (Some (str "CommandLine"))
           [str "windash"; str "contains"] [str "-enc*"] eq_refl eq_refl
           ltac:(discriminate)).
Defined.


(** ** The wildcard *)

Section StarFacts.

Import RegExp Patterns RegExpFacts.

Variable canon : codeunit -> codeunit.
Variable s : jsstring.

Lemma star_dot_In fuel :
  forall i j,
    In j (star_ends (ends canon s Dot) fuel i)
    <-> i <= j <= i + fuel /\ forall k, i <= k < j -> free s k.
Proof.
  induction fuel as [|fuel IH]; intros i j.
  - cbn [star_ends In]. split.
    + intros [<-|[]]. split; [lia|]. intros k Hk. lia.
    + intros [Hj _]. left. lia.
  - cbn [star_ends In]. rewrite in_flat_map. split.
    + intros [<-|(x & Hx & Hin)]; [split; [lia|intros k Hk; lia]|].
      apply filter_In in Hx. destruct Hx as [Hx Hlt].
      apply Nat.ltb_lt in Hlt. cbn [ends] in Hx.
      destruct (nth_error s i) as [d|] eqn:Ed; [|destruct Hx].
      destruct (isLineTerminator d) eqn:Et; [destruct Hx|].
      destruct Hx as [<-|[]]. apply IH in Hin. destruct Hin as [Hj Hfree].
      split; [lia|]. intros k Hk.
      destruct (Nat.eq_dec k i) as [->|Hne]; [exists d; auto|].
      apply Hfree. lia.
    + intros [Hj Hfree].
      destruct (Nat.eq_dec j i) as [->|Hne]; [left; reflexivity|right].
      destruct (Hfree i ltac:(lia)) as (d & Ed & Et).
      exists (S i). split.
      * apply filter_In. split; [|apply Nat.ltb_lt; lia].
        cbn [ends]. rewrite Ed, Et. left. reflexivity.
      * apply IH. split; [lia|]. intros k Hk. apply Hfree. lia.
Qed.

Lemma free_span i j :
  i <= j -> i <= length s ->
  (forall k, i <= k < j -> free s k)
  <-> j <= length s /\ noLineBreak (firstn (j - i) (skipn i s)) = true.
Proof.
  intros Hij Hi. unfold noLineBreak. rewrite forallb_forall. split.
  - intros Hfree. split.
    + destruct (Nat.eq_dec j i) as [->|Hne]; [exact Hi|].
      destruct (Hfree (j - 1) ltac:(lia)) as (d & Ed & _).
      assert (j - 1 < length s) by (apply nth_error_Some; congruence). lia.
    + intros c Hc. apply In_nth_error in Hc. destruct Hc as [n Hn].
      rewrite nth_error_firstn in Hn.
      destruct (Nat.ltb_spec n (j - i)) as [Hlt|]; [|discriminate].
      rewrite nth_error_skipn in Hn.
      destruct (Hfree (i + n) ltac:(lia)) as (d & Ed & Et).
      rewrite Ed in Hn. injection Hn as <-. rewrite Et. reflexivity.
  - intros [Hj Hall] k Hk.
    destruct (nth_error s k) as [d|] eqn:Ed.
    + exists d. split; [exact Ed|]. apply negb_true_iff. apply Hall.
      apply (nth_error_In _ (k - i)). rewrite nth_error_firstn.
      destruct (Nat.ltb_spec (k - i) (j - i)) as [_|]; [|lia].
      rewrite nth_error_skipn. replace (i + (k - i)) with k by lia. exact Ed.
    + apply nth_error_None in Ed. lia.
Qed.

Lemma text_at_length p i :
  i <= length s -> text_at canon s p i = true -> i + length p <= length s.
Proof.
  unfold text_at. intros Hi E. apply streq_length in E.
  rewrite !length_map, length_firstn, length_skipn in E.
  unfold jsstring, codeunit in *. lia.
Qed.

Lemma free_bound i j :
  i <= length s -> i <= j -> (forall k, i <= k < j -> free s k) -> j <= length s.
Proof.
  intros Hi Hij Hfree. destruct (Nat.eq_dec j i) as [->|Hne]; [exact Hi|].
  destruct (Hfree (j - 1) ltac:(lia)) as (d & Ed & _).
  assert (j - 1 < length s) by (apply nth_error_Some; congruence). lia.
Qed.

Lemma anchored_both r :
  anchored_match canon s true true r
  = existsb (fun j => j =? length s) (ends canon s r 0).
Proof.
  unfold anchored_match. cbn [seq existsb negb orb Nat.eqb andb].
  rewrite (existsb_nowhere _ (seq 1 (length s)))
    by (intros i Hi; apply in_seq in Hi; destruct i; [lia|reflexivity]).
  apply orb_false_r.
Qed.

(** The ends of [p*q] read from the start of the input. *)
Lemma span_ends p q e :
  In e (ends canon s
          (fold_left Seq (map Char q)
             (Seq (fold_left Seq (map Char p) Empty) (Star Dot))) 0)
  <-> text_at canon s p 0 = true
      /\ exists j,
          length p <= j
          /\ (forall k, length p <= k < j -> free s k)
          /\ text_at canon s q j = true
          /\ e = j + length q.
Proof.
  rewrite ends_literal, in_flat_map.
  change (ends canon s (Seq (fold_left Seq (map Char p) Empty) (Star Dot)) 0)
    with (flat_map (ends canon s (Star Dot))
            (ends canon s (fold_left Seq (map Char p) Empty) 0)).
  rewrite ends_literal. cbn [ends flat_map]. rewrite app_nil_r.
  split.
  - intros (j & Hj & He).
    destruct (text_at canon s p 0) eqn:Ep; [|destruct Hj].
    cbn [flat_map Nat.add] in Hj. rewrite app_nil_r in Hj.
    apply star_dot_In in Hj. destruct Hj as [Hb Hfree].
    destruct (text_at canon s q j) eqn:Eq; [|destruct He].
    destruct He as [<-|[]]. split; [reflexivity|].
    exists j. repeat split; try assumption. lia.
  - intros (Ep & j & Hj & Hfree & Eq & ->). exists j. rewrite Ep, Eq.
    split; [|left; reflexivity].
    cbn [flat_map Nat.add]. rewrite app_nil_r. apply star_dot_In.
    split; [|exact Hfree].
    pose proof (text_at_length p 0 ltac:(lia) Ep) as Lp.
    pose proof (free_bound _ _ Lp Hj Hfree). lia.
Qed.

Lemma span_matches p q :
  anchored_match canon s true true
    (fold_left Seq (map Char q)
       (Seq (fold_left Seq (map Char p) Empty) (Star Dot)))
  = spans canon p q s.
Proof.
  rewrite anchored_both. apply eq_true_iff_eq.
  rewrite existsb_exists. unfold spans. rewrite !andb_true_iff.
  split.
  - intros (e & He & Ee). apply Nat.eqb_eq in Ee. subst e.
    apply span_ends in He. destruct He as (Ep & j & Hj & Hfree & Eq & Ej).
    pose proof (text_at_length p 0 ltac:(lia) Ep) as Lp.
    apply (free_span _ _ Hj Lp) in Hfree. destruct Hfree as [_ Hfree].
    replace (length s - length q) with j by lia.
    repeat split; try assumption. apply Nat.leb_le; lia.
  - intros (((Ep & Hl) & Eq) & Hfree). apply Nat.leb_le in Hl.
    exists (length s). split; [|apply Nat.eqb_refl].
    apply span_ends. split; [exact Ep|].
    exists (length s - length q).
    pose proof (text_at_length p 0 ltac:(lia) Ep) as Lp.
    repeat split; try assumption; try lia.
    assert (Hle : length p <= length s - length q) by lia.
    apply (free_span _ _ Hle Lp). split; [lia|exact Hfree].
Qed.

End StarFacts.

Section WildcardFacts.

Import RegExp Patterns RegExpFacts.

Context {H : Host}.

Lemma literal_atoms p : isLiteral p = true -> map glob_atom p = map Char p.
Proof.
  intros Hl. induction p as [|c p IH]; [reflexivity|].
  cbn [isLiteral forallb] in Hl. apply andb_prop in Hl.
  destruct Hl as [Hc Hl]. apply negb_true_iff, orb_false_elim in Hc.
  destruct Hc as [H1 H2]. cbn [map]. unfold glob_atom at 1.
  rewrite H1, H2, (IH Hl). reflexivity.
Qed.

(** What [*] means: an atom with a named field, no modifier and the
    pattern [p*q], where [p] and [q] hold no wildcard, accepts an entry
    exactly when the value of the field starts with [p], ends with [q]
    after it, and has no line break between the two. *)
Theorem wildcard_spans (field p q : jsstring) (entry : LogEntry)
  (opts : option MatchOptions) :
  field <> [] ->
  isLiteral p = true ->
  isLiteral q = true ->
  exprMatches (SearchAtom (Some field) [] [p ++ ch "*" :: q]) entry opts
  = Returns
      (spans Canonicalize p q
         (fieldContentOf (toLowerCase field) (fields entry))).
Proof.
  intros Hf Hp Hq. cbn [exprMatches]. unfold SearchAtom_exprMatches, validate.
  destruct (compile_patterns (Some field) [] [p ++ ch "*" :: q] eq_refl eq_refl
              eq_refl ltac:(discriminate)) as [matches [Hc Hm]].
  cbn [length Nat.eqb validate_modifiers negb bind _expandPatterns includes
       existsb].
  rewrite Hc. cbn [bind]. rewrite Hm. cbn [includes existsb].
  destruct field as [|c field]; [congruence|].
  rewrite orb_false_r. unfold pattern_matches, atStart, atEnd, text_regex.
  cbn [noField includes existsb orb negb].
  unfold glob_regex, sequence. rewrite map_app, fold_left_app. cbn [map fold_left].
  rewrite (literal_atoms p Hp), (literal_atoms q Hq).
  change (glob_atom (ch "*")) with (Star Dot).
  rewrite span_matches. reflexivity.
Qed.

End WildcardFacts.


Lemma wildcard_spans_witness :
  exprMatches (H := Reference.host)
    (SearchAtom (Some (str "Image")) [] [str "/usr/bin/*.sh"])
    {| message := []; fields := [(str "image", str "/usr/bin/run.sh")] |} None
  = Returns
      (spans (Canonicalize (Host := Reference.host)) (str "/usr/bin/")
         (str ".sh") (str "/usr/bin/run.sh")).
Proof.
  exact (@wildcard_spans Reference.host (str "Image") (str "/usr/bin/")
           (str ".sh")
           {| message := []; fields := [(str "image", str "/usr/bin/run.sh")] |}
           None ltac:(discriminate) eq_refl eq_refl).
Defined.


(** ** Modifiers, fields and placeholders *)

Section ModifierFacts.
Context {H : Host}.

Lemma validate_modifiers_plain patterns before rest :
  forallb (includes plainModifiers) before = true ->
  forall i pt expand,
    exists pt',
      validate_modifiers patterns (before ++ rest) i pt expand
      = validate_modifiers patterns rest (i + length before) pt' expand.
Proof.
  induction before as [|m before IH]; intros Hb i pt expand.
  - exists pt. rewrite Nat.add_0_r. reflexivity.
  - cbn [forallb] in Hb. apply andb_prop in Hb. destruct Hb as [Hm Hb].
    cbn [app validate_modifiers length].
    replace (i + S (length before)) with (S i + length before) by lia.
    unfold plainModifiers in Hm. cbn [includes existsb] in Hm.
    destruct (streq m (str "re")); [apply (IH Hb)|].
    destruct (streq m (str "cidr")); [apply (IH Hb)|].
    cbn [orb] in Hm. cbn [includes existsb]. rewrite Hm. apply (IH Hb).
Qed.

Lemma validate_unknown_modifier patterns before m after :
  patterns <> [] ->
  forallb (includes plainModifiers) before = true ->
  includes (str "expand" :: plainModifiers) m = false ->
  validate (before ++ m :: after) patterns
  = Returns (Some {| Error_message :=
                       str "unknown modifier " ++ [dquote] ++ m ++ [dquote] |}).
Proof.
  intros Hp Hb Hm. unfold validate.
  assert (Hl : (length patterns =? 0) = false)
    by (destruct patterns; [congruence|reflexivity]).
  rewrite Hl.
  destruct (validate_modifiers_plain patterns before (m :: after) Hb
              0 glob false) as [pt' ->].
  cbn [validate_modifiers]. cbn [includes existsb] in Hm.
  repeat (apply orb_false_elim in Hm; destruct Hm as [?E Hm]).
  cbn [includes existsb]. rewrite E0, E1, E2, E3, E4, E5, E6, E7, E8, E.
  reflexivity.
Qed.

(** The two errors of the modifier list.  After modifiers that are known,
    a modifier that is not is refused by name, by [validate] and so by the
    parse of a search map; and [expand] after another modifier is
    refused. *)
Theorem modifier_errors (before after : list jsstring) (m : jsstring) :
  forallb (includes plainModifiers) before = true ->
  (includes (str "expand" :: plainModifiers) m = false ->
   (forall patterns,
       patterns <> [] ->
       validate (before ++ m :: after) patterns
       = Returns (Some {| Error_message :=
                            str "unknown modifier " ++ [dquote] ++ m
                            ++ [dquote] |}))
   /\ (forall key field s,
          split (N.eqb (ch "|")) key = field :: before ++ m :: after ->
          parseSearchKey key (YStr s)
          = Throws (SigmaError (key ++ str ": unknown modifier " ++ [dquote]
                                ++ m ++ [dquote]))))
  /\ (before <> [] ->
      forall patterns,
        patterns <> [] ->
        validate (before ++ str "expand" :: after) patterns
        = Returns (Some {| Error_message :=
                             str "expand can only be the first modifier" |})).
Proof.
  intros Hb. split.
  - intros Hm. split.
    + intros patterns Hp.
      exact (validate_unknown_modifier patterns before m after Hp Hb Hm).
    + intros key field s Hk. unfold parseSearchKey. rewrite Hk.
      cbn [hd tl scalarString bind].
      rewrite (validate_unknown_modifier [s] before m after
                 ltac:(discriminate) Hb Hm).
      reflexivity.
  - intros Hne patterns Hp. unfold validate.
    assert (Hl : (length patterns =? 0) = false)
      by (destruct patterns; [congruence|reflexivity]).
    rewrite Hl.
    destruct (validate_modifiers_plain patterns before (str "expand" :: after)
                Hb 0 glob false) as [pt' ->].
    cbn [validate_modifiers].
    destruct before as [|b before]; [congruence|]. reflexivity.
Qed.

Lemma mapM_ext {A B} (f g : A -> outcome B) (l : list A) :
  (forall a, f a = g a) -> mapM f l = mapM g l.
Proof.
  intros E. induction l as [|a l IH]; [reflexivity|].
  cbn [mapM]. rewrite E, IH. reflexivity.
Qed.

Lemma processPattern_field f f' modifiers p :
  noField f = noField f' ->
  processPattern f modifiers p = processPattern f' modifiers p.
Proof. intros E. unfold processPattern. rewrite E. reflexivity. Qed.

Lemma _compile_field f f' modifiers patterns :
  noField f = noField f' ->
  _compile f modifiers patterns = _compile f' modifiers patterns.
Proof.
  intros E. unfold _compile.
  rewrite (mapM_ext _ (fun pat => RegExp_new (processPattern f' modifiers pat) true))
    by (intros p; rewrite (processPattern_field f f' modifiers p E); reflexivity).
  rewrite (map_ext _ (processPattern f' modifiers))
    by (intros p; apply processPattern_field, E).
  reflexivity.
Qed.

Lemma fieldContentOf_folded lf fs fs' :
  foldedKeys fs = foldedKeys fs' ->
  fieldContentOf lf fs = fieldContentOf lf fs'.
Proof.
  revert fs'; induction fs as [|[k v] fs IH]; intros [|[k' v'] fs'] E;
    try discriminate; [reflexivity|].
  cbn [foldedKeys map fst snd] in E. injection E as Ek Ev Efs.
  cbn [fieldContentOf]. rewrite Ek, Ev, (IH fs' Efs). reflexivity.
Qed.

(** Field names are compared without their case: an atom evaluates the
    same under two names of its field that are equal in lower case, and a
    tree evaluates the same on two entries whose messages are equal and
    whose fields are the same once the keys are put in lower case. *)
Theorem field_names_fold_case :
  (forall f f' modifiers patterns entry opts,
      f <> [] -> f' <> [] -> toLowerCase f = toLowerCase f' ->
      exprMatches (SearchAtom (Some f) modifiers patterns) entry opts
      = exprMatches (SearchAtom (Some f') modifiers patterns) entry opts)
  /\ (forall e entry entry' opts,
         message entry = message entry' ->
         foldedKeys (fields entry) = foldedKeys (fields entry') ->
         exprMatches e entry opts = exprMatches e entry' opts).
Proof.
  split.
  - intros f f' modifiers patterns entry opts Hf Hf' E.
    cbn [exprMatches]. unfold SearchAtom_exprMatches.
    rewrite (_compile_field (Some f) (Some f') modifiers)
      by (destruct f, f'; congruence || reflexivity).
    destruct f as [|c f], f' as [|c' f']; try congruence.
    rewrite E. reflexivity.
  - intros e entry entry' opts Em Ef.
    induction e as [name x IH|x IH|xs IH|xs IH|field modifiers patterns]
      using Expr_induction.
    + exact IH.
    + cbn [exprMatches]. rewrite IH. reflexivity.
    + cbn [exprMatches]. induction IH as [|x xs Hx _ IHxs]; [reflexivity|].
      rewrite Hx, IHxs. reflexivity.
    + cbn [exprMatches]. induction IH as [|x xs Hx _ IHxs]; [reflexivity|].
      rewrite Hx, IHxs. reflexivity.
    + cbn [exprMatches]. unfold SearchAtom_exprMatches.
      rewrite Em.
      destruct field as [[|c f]|]; try reflexivity.
      rewrite (fieldContentOf_folded _ _ _ Ef). reflexivity.
Qed.











End ModifierFacts.


Lemma modifier_errors_witness :
  parseSearchKey (H := Reference.host) (str "User|contains|bogus")
    (YStr (str "root"))
  = Throws (SigmaError (str "User|contains|bogus" ++ str ": unknown modifier "
                        ++ [dquote] ++ str "bogus" ++ [dquote])).
Proof.
  exact (proj2 (proj1 (@modifier_errors Reference.host [str "contains"] []
                         (str "bogus") eq_refl) eq_refl)
           (str "User|contains|bogus") (str "User") (str "root") eq_refl).
Defined.

Lemma field_names_fold_case_witness :
  exprMatches (H := Reference.host)
    (SearchAtom (Some (str "EventID")) [] [str "4624"])
    {| message := []; fields := [(str "eventid", str "4624")] |} None
  = exprMatches (H := Reference.host)
      (SearchAtom (Some (str "eventId")) [] [str "4624"])
      {| message := []; fields := [(str "eventid", str "4624")] |} None.
Proof.
  exact (proj1 (@field_names_fold_case Reference.host) (str "EventID")
           (str "eventId") [] [str "4624"]
           {| message := []; fields := [(str "eventid", str "4624")] |} None
           ltac:(discriminate) ltac:(discriminate) eq_refl).
Defined.



(** ** Dates *)

Lemma isDigit_bounds c : isDigit c = true -> (48 <= c <= 57)%N.
Proof.
  unfold isDigit. intros E. apply andb_prop in E. destruct E as [E1 E2].
  apply N.leb_le in E1, E2. exact (conj E1 E2).
Qed.

Lemma digit_not_space c : isDigit c = true -> isWhiteSpace c = false.
Proof.
  intros E. apply isDigit_bounds in E. unfold isWhiteSpace.
  cbn [existsb]. 
  repeat match goal with
         | |- context [N.eqb c ?k] =>
             destruct (N.eqb_spec c k); [lia|]
         end.
  cbn [orb]. destruct (N.leb_spec 8192 c); [lia|reflexivity].
Qed.

Lemma digit_not_separator c : isDigit c = true -> isDateSeparator c = false.
Proof.
  intros E. apply isDigit_bounds in E. unfold isDateSeparator.
  change (ch "/") with 47%N. change (ch "-") with 45%N.
  destruct (N.eqb_spec c 47); [lia|].
  destruct (N.eqb_spec c 45); [lia|]. reflexivity.
Qed.

Lemma decimal_digits_spec (fuel : nat) :
  forall n acc,
    (n < 2 ^ N.of_nat fuel)%N ->
    exists ds,
      decimal_digits fuel n acc = ds ++ acc
      /\ forallb isDigit ds = true
      /\ (fuel <> 0 -> ds <> [])
      /\ forall rest, digits_value (ds ++ rest) 0 = digits_value rest (Z.of_N n).
Proof.
  induction fuel as [|fuel IH]; intros n acc Hn.
  - exists []. cbn in Hn. assert (n = 0%N) by lia. subst n.
    repeat split. congruence.
  - cbn [decimal_digits].
    assert (Hd : isDigit (ch "0" + n mod 10)%N = true).
    { unfold isDigit. change (ch "0") with 48%N. change (ch "9") with 57%N.
      pose proof (N.mod_upper_bound n 10 ltac:(lia)) as Hr.
      set (r := (n mod 10)%N) in *.
      apply andb_true_intro. split; apply N.leb_le; lia. }
    assert (Hv : forall a rest,
               digits_value ((ch "0" + n mod 10)%N :: rest) a
               = digits_value rest (10 * a + Z.of_N (n mod 10))%Z).
    { intros a rest. cbn [digits_value]. rewrite Hd. f_equal. f_equal.
      change (ch "0") with 48%N. generalize (n mod 10)%N. intros r. lia. }
    destruct (N.ltb_spec n 10) as [Hlt|Hge].
    + exists [(ch "0" + n mod 10)%N]. repeat split.
      * cbn [forallb]. rewrite Hd. reflexivity.
      * discriminate.
      * intros rest. cbn [app]. rewrite Hv. f_equal.
        rewrite N.mod_small by exact Hlt. lia.
    + destruct (IH (n / 10)%N ((ch "0" + n mod 10)%N :: acc)) as (ds & E & Hds & _ & Hval).
      { apply N.Div0.div_lt_upper_bound.
        rewrite Nnat.Nat2N.inj_succ, N.pow_succ_r' in Hn. lia. }
      exists (ds ++ [(ch "0" + n mod 10)%N]). repeat split.
      * rewrite E, <- app_assoc. reflexivity.
      * rewrite forallb_app, Hds. cbn [forallb]. rewrite Hd. reflexivity.
      * destruct ds; discriminate.
      * intros rest. rewrite <- app_assoc. cbn [app]. rewrite Hval, Hv.
        f_equal. rewrite N2Z.inj_div, N2Z.inj_mod.
        pose proof (Z.div_mod (Z.of_N n) 10 ltac:(lia)). lia.
Qed.

(** The decimal numeral of a natural number: digits, at least one, whose
    value is the number. *)
Lemma decimal_spec (z : Z) :
  (0 <= z)%Z ->
  decimal z <> []
  /\ forallb isDigit (decimal z) = true
  /\ digits_value (decimal z) 0 = z.
Proof.
  intros Hz. unfold decimal.
  destruct (Z.ltb_spec z 0) as [Hneg|_]; [lia|]. cbn [app].
  destruct (decimal_digits_spec (S (N.to_nat (N.log2 (Z.abs_N z))))
              (Z.abs_N z) []) as (ds & E & Hds & Hne & Hval).
  { rewrite Nnat.Nat2N.inj_succ, Nnat.N2Nat.id.
    destruct (N.eq_dec (Z.abs_N z) 0) as [->|Hnz]; [reflexivity|].
    apply N.log2_spec. lia. }
  rewrite E, app_nil_r. split; [|split].
  - apply Hne. discriminate.
  - exact Hds.
  - specialize (Hval []). rewrite app_nil_r in Hval. rewrite Hval.
    cbn [digits_value]. lia.
Qed.

Lemma padStart_digits (ds : jsstring) (n : nat) :
  ds <> [] -> forallb isDigit ds = true ->
  padStart ds n (ch "0") <> []
  /\ forallb isDigit (padStart ds n (ch "0")) = true
  /\ digits_value (padStart ds n (ch "0")) 0 = digits_value ds 0.
Proof.
  intros Hne Hds. unfold padStart.
  induction (n - length ds) as [|k IH]; cbn [repeat app].
  - auto.
  - destruct IH as (_ & IH2 & IH3). split; [discriminate|].
    cbn [forallb digits_value]. rewrite IH2.
    change (isDigit (ch "0")) with true. cbn [andb]. split; [reflexivity|].
    exact IH3.
Qed.

Lemma parseInt_digits (ds : jsstring) :
  ds <> [] -> forallb isDigit ds = true ->
  parseInt ds = Some (digits_value ds 0).
Proof.
  destruct ds as [|c ds]; [congruence|]. intros _ Hds.
  cbn [forallb] in Hds. apply andb_prop in Hds. destruct Hds as [Hc _].
  unfold parseInt. cbn [trimStart]. rewrite (digit_not_space c Hc).
  pose proof (isDigit_bounds c Hc) as Hb.
  change (ch "-") with 45%N. change (ch "+") with 43%N.
  destruct (N.eqb_spec c 45); [lia|]. destruct (N.eqb_spec c 43); [lia|].
  rewrite Hc. f_equal. lia.
Qed.

Lemma split_aux_run sep (a rest acc : jsstring) :
  forallb (fun c => negb (sep c)) a = true ->
  split_aux sep (a ++ rest) acc = split_aux sep rest (rev a ++ acc).
Proof.
  revert acc; induction a as [|c a IH]; intros acc Ha; [reflexivity|].
  cbn [forallb] in Ha. apply andb_prop in Ha. destruct Ha as [Hc Ha].
  apply negb_true_iff in Hc. cbn [app split_aux]. rewrite Hc, (IH _ Ha).
  cbn [rev]. rewrite <- app_assoc. reflexivity.
Qed.

(** Three runs without a separator, with one separator between them, are
    what [split] gives back. *)
Lemma split_three sep (a b c : jsstring) (s1 s2 : codeunit) :
  forallb (fun x => negb (sep x)) a = true ->
  forallb (fun x => negb (sep x)) b = true ->
  forallb (fun x => negb (sep x)) c = true ->
  sep s1 = true -> sep s2 = true ->
  split sep (a ++ s1 :: b ++ s2 :: c) = [a; b; c].
Proof.
  intros Ha Hb Hc H1 H2. unfold split.
  rewrite (split_aux_run sep a _ [] Ha). cbn [split_aux]. rewrite H1.
  rewrite (split_aux_run sep b _ [] Hb). cbn [split_aux]. rewrite H2.
  rewrite <- (app_nil_r c) at 1.
  rewrite (split_aux_run sep c [] [] Hc). cbn [split_aux].
  rewrite !app_nil_r, !rev_involutive. reflexivity.
Qed.

Lemma digits_no_separator (ds : jsstring) :
  forallb isDigit ds = true ->
  forallb (fun c => negb (isDateSeparator c)) ds = true.
Proof.
  intros Hds. rewrite forallb_forall in *. intros c Hc.
  rewrite (digit_not_separator c (Hds c Hc)). reflexivity.
Qed.

Section DateFacts.
Context {H : Host}.

(** A date of the calendar, from the year 100 on, is read back from what
    [toString] writes for it; and [equals] holds of two dates exactly when
    they are the same. *)
Theorem SigmaDate_round_trip (d : SigmaDate) :
  (100 <= year d)%Z ->
  (1 <= month d <= 12)%Z ->
  (1 <= day d <= 31)%Z ->
  Date_UTC (year d) (month d) (day d) = (year d, month d, day d) ->
  SigmaDate_parse (SigmaDate_toString d) = Returns d
  /\ forall d', SigmaDate_equals d' d = true <-> d' = d.
Proof.
  intros Hy Hm Hd Hfix.
  destruct (decimal_spec (year d) ltac:(lia)) as (Y1 & Y2 & Y3).
  destruct (decimal_spec (month d) ltac:(lia)) as (M1 & M2 & M3).
  destruct (decimal_spec (day d) ltac:(lia)) as (D1 & D2 & D3).
  destruct (padStart_digits _ 4 Y1 Y2) as (PY1 & PY2 & PY3).
  destruct (padStart_digits _ 2 M1 M2) as (PM1 & PM2 & PM3).
  destruct (padStart_digits _ 2 D1 D2) as (PD1 & PD2 & PD3).
  split.
  - unfold SigmaDate_parse, SigmaDate_toString.
    change (fun c => N.eqb c (ch "/") || N.eqb c (ch "-"))
      with isDateSeparator.
    change (str "/") with [ch "/"]. cbn [app].
    rewrite (split_three isDateSeparator _ _ _ (ch "/") (ch "/")
               (digits_no_separator _ PY2) (digits_no_separator _ PM2)
               (digits_no_separator _ PD2) eq_refl eq_refl).
    rewrite !parseInt_digits by assumption.
    rewrite PY3, PM3, PD3, Y3, M3, D3.
    destruct (Z.ltb_spec (year d) 100); [lia|].
    destruct (Z.ltb_spec (month d) 1); [lia|].
    destruct (Z.ltb_spec 12 (month d)); [lia|].
    destruct (Z.ltb_spec (day d) 1); [lia|].
    destruct (Z.ltb_spec 31 (day d)); [lia|].
    cbn [orb]. unfold SigmaDate_new. rewrite Hfix. destruct d; reflexivity.
  - intros d'. unfold SigmaDate_equals.
    rewrite !andb_true_iff, !Z.eqb_eq. destruct d, d'; cbn.
    split; [intros [[-> ->] ->]; reflexivity|].
    intros E. injection E as -> -> ->. auto.
Qed.




End DateFacts.


Lemma SigmaDate_round_trip_witness :
  SigmaDate_parse (H := Reference.host)
    (SigmaDate_toString {| year := 2024; month := 2; day := 29 |})
  = Returns {| year := 2024; month := 2; day := 29 |}.
Proof.
  refine (proj1 (@SigmaDate_round_trip Reference.host
                   {| year := 2024; month := 2; day := 29 |} _ _ _ _)).
  - cbn. lia.
  - cbn. lia.
  - cbn. lia.
  - reflexivity.
Defined.



(** ** The lexer *)

Section LexFacts.
Context {H : Host}.

Lemma word_partition s : fst (word s) ++ snd (word s) = s.
Proof.
  induction s as [|c s IH]; [reflexivity|]. cbn [word].
  destruct (isDelim c || isWhiteSpace c); [reflexivity|].
  destruct (word s) as [w rest]. cbn [fst snd app] in *. rewrite IH.
  reflexivity.
Qed.

Lemma word_units s : forallb isWordUnit (fst (word s)) = true.
Proof.
  induction s as [|c s IH]; [reflexivity|]. cbn [word].
  destruct (isDelim c || isWhiteSpace c) eqn:E; [reflexivity|].
  destruct (word s) as [w rest]. cbn [fst forallb] in *.
  unfold isWordUnit at 1. rewrite E, IH. reflexivity.
Qed.

Lemma word_boundary s : atBoundary (snd (word s)) = true.
Proof.
  induction s as [|c s IH]; [reflexivity|]. cbn [word].
  destruct (isDelim c || isWhiteSpace c) eqn:E; [exact E|].
  destruct (word s) as [w rest]. exact IH.
Qed.

Lemma trimStart_suffix s : exists spaces, s = spaces ++ trimStart s
  /\ forallb isWhiteSpace spaces = true.
Proof.
  induction s as [|c s IH]; [exists []; split; reflexivity|].
  cbn [trimStart]. destruct (isWhiteSpace c) eqn:E.
  - destruct IH as (sp & E1 & E2). exists (c :: sp). cbn [app forallb].
    rewrite E, E2, <- E1. split; reflexivity.
  - exists []. split; reflexivity.
Qed.

Lemma trimStart_head s :
  match trimStart s with
  | c :: _ => isWhiteSpace c = false
  | [] => True
  end.
Proof.
  induction s as [|c s IH]; [exact I|]. cbn [trimStart].
  destruct (isWhiteSpace c) eqn:E; [exact IH|exact E].
Qed.

(** [lex] loses nothing but the white space it skips: the token and what
    is left make up the condition without its leading white space, the
    token is empty only at the end of the condition, and it is one
    parenthesis or bar, or a word that holds none and no white space and
    is followed by one or by the end. *)
Theorem lex_partition (s : jsstring) :
  let tok := fst (lex s) in
  let rest := snd (lex s) in
  tok ++ rest = trimStart s
  /\ (tok = [] <-> trimStart s = [])
  /\ (forallb isWordUnit tok = true /\ atBoundary rest = true
      \/ exists c, tok = [c] /\ isDelim c = true).
Proof.
  cbv zeta. unfold lex. pose proof (trimStart_head s) as Hh.
  destruct (trimStart s) as [|c s'].
  - repeat split. left. split; reflexivity.
  - destruct (isDelim c) eqn:Ed.
    + cbn [fst snd app]. repeat split; try discriminate.
      right. exists c. split; [reflexivity|exact Ed].
    + pose proof (word_partition (c :: s')) as Hp.
      pose proof (word_units (c :: s')) as Hu.
      pose proof (word_boundary (c :: s')) as Hb.
      split; [exact Hp|]. split; [|left; split; assumption].
      cbn [word] in *. rewrite Ed, Hh in *. cbn [orb] in *.
      destruct (word s') as [w rest]. cbn [fst].
      split; discriminate.
Qed.
End LexFacts.


(** ** The parser, step by step *)

Section ParserSteps.
Context {H : Host}.
Variable identifiers : Identifiers.

Lemma operator_token op :
  isOperator op = true ->
  streq op [] = false /\ streq op (str "|") = false.
Proof.
  unfold isOperator.
  destruct (streq_spec op (str "and")) as [->|_];
    [|destruct (streq_spec op (str "or")) as [->|_]; [|discriminate]];
    intros _; split; reflexivity.
Qed.

Lemma binaryTrail_end n x m s s' :
  lex s = ([], s') -> binaryTrail (S n) identifiers x m s = Returns (x, s').
Proof. intros E. cbn [binaryTrail]. rewrite E. reflexivity. Qed.

Lemma binaryTrail_stop n x m s op s' :
  lex s = (op, s') -> isOperator op = true ->
  (operatorPrecedence op <? m)%Z = true ->
  binaryTrail (S n) identifiers x m s = Returns (x, s).
Proof.
  intros E Hop Hp. cbn [binaryTrail]. rewrite E.
  destruct (operator_token op Hop) as [-> ->]. rewrite Hp. reflexivity.
Qed.

Lemma binaryTrail_step n x m s op s1 y s2 y' s3 :
  lex s = (op, s1) -> isOperator op = true ->
  (operatorPrecedence op <? m)%Z = false ->
  unary n identifiers s1 = Returns (y, s2) ->
  climb n identifiers y (operatorPrecedence op) s2 = Returns (y', s3) ->
  binaryTrail (S n) identifiers x m s
  = binaryTrail n identifiers (joinOperands op x y') m s3.
Proof.
  intros E Hop Hp Hu Hc. cbn [binaryTrail]. rewrite E.
  destruct (operator_token op Hop) as [-> ->].
  rewrite Hp, Hu. cbn [bind fst snd]. rewrite Hc. reflexivity.
Qed.

Lemma climb_end n y p s s' :
  lex s = ([], s') -> climb (S n) identifiers y p s = Returns (y, s').
Proof. intros E. cbn [climb]. rewrite E. reflexivity. Qed.

Lemma climb_stop n y p s op s' :
  lex s = (op, s') -> op <> [] ->
  (operatorPrecedence op <=? p)%Z = true ->
  climb (S n) identifiers y p s = Returns (y, s).
Proof.
  intros E Hop Hp. cbn [climb]. rewrite E.
  destruct (streq_spec op []) as [->|_]; [congruence|].
  rewrite Hp. reflexivity.
Qed.

Lemma climb_step n y p s op s' y' s2 :
  lex s = (op, s') -> op <> [] ->
  (operatorPrecedence op <=? p)%Z = false ->
  binaryTrail n identifiers y (p + 1) s = Returns (y', s2) ->
  climb (S n) identifiers y p s = climb n identifiers y' p s2.
Proof.
  intros E Hop Hp Hb. cbn [climb]. rewrite E.
  destruct (streq_spec op []) as [->|_]; [congruence|].
  rewrite Hp, Hb. reflexivity.
Qed.

Lemma unary_not n s s1 x s2 :
  lex s = (str "not", s1) ->
  unary n identifiers s1 = Returns (x, s2) ->
  unary (S n) identifiers s = Returns (NotExpr x, s2).
Proof. intros E Hu. cbn [unary]. rewrite E. cbn. rewrite Hu. reflexivity. Qed.

Lemma unary_group n s s1 x s2 x' s3 s4 :
  lex s = (str "(", s1) ->
  unary n identifiers s1 = Returns (x, s2) ->
  binaryTrail n identifiers x 0 s2 = Returns (x', s3) ->
  lex s3 = (str ")", s4) ->
  unary (S n) identifiers s = Returns (x', s4).
Proof.
  intros E Hu Hb Ec. cbn [unary]. rewrite E.
  change (streq (str "(") []) with false.
  change (streq (str "(") (str "(")) with true. cbv iota.
  rewrite Hu. cbn [bind fst snd]. rewrite Hb. cbn [bind]. rewrite Ec.
  reflexivity.
Qed.


Lemma binaryTrail_close n x m s op s' :
  lex s = (op, s') -> streq op [] = false -> streq op (str "|") = false ->
  (operatorPrecedence op <? m)%Z = true ->
  binaryTrail (S n) identifiers x m s = Returns (x, s).
Proof.
  intros E H1 H2 Hp. cbn [binaryTrail]. rewrite E, H1, H2, Hp. reflexivity.
Qed.

Lemma lex_word w rest :
  isIdentifierToken w = true -> atBoundary rest = true ->
  lex (w ++ rest) = (w, rest) /\ lex (ch " " :: w ++ rest) = (w, rest).
Proof.
  intros Hw Hr. unfold isIdentifierToken in Hw.
  apply andb_prop in Hw. destruct Hw as [Hw _].
  apply andb_prop in Hw. destruct Hw as [Hn Hw].
  rewrite lex_space. split; apply lex_token; assumption.
Qed.

Lemma unary_operand n s w rest named :
  lex s = (w, rest) ->
  isIdentifierToken w = true ->
  lookup identifiers w = Some named ->
  unary (S n) identifiers s = Returns (asExpr named, rest).
Proof.
  intros E Hw Hl. unfold isIdentifierToken in Hw.
  apply andb_prop in Hw. destruct Hw as [Hw Hres].
  apply andb_prop in Hw. destruct Hw as [Hn Hw].
  cbn [unary]. rewrite E.
  assert (E0 : streq w [] = false) by (destruct w; [discriminate|reflexivity]).
  assert (E1 : streq w (str "(") = false).
  { apply streq_false. intros ->. discriminate. }
  cbn [includes existsb] in Hres. apply negb_true_iff in Hres.
  apply orb_false_elim in Hres. destruct Hres as [E2 Hres].
  apply orb_false_elim in Hres. destruct Hres as [E3 Hres].
  apply orb_false_elim in Hres. destruct Hres as [E4 _].
  rewrite E0, E1, E2, E3, E4, Hl. reflexivity.
Qed.


Lemma lex_operator op rest :
  isOperator op = true -> atBoundary rest = true ->
  lex (ch " " :: op ++ rest) = (op, rest).
Proof.
  intros Hop Hr. rewrite lex_space. unfold isOperator in Hop.
  destruct (streq_spec op (str "and")) as [->|_];
    [|destruct (streq_spec op (str "or")) as [->|_]; [|discriminate]];
    apply lex_token; auto.
Qed.

Lemma lex_word_end w :
  isIdentifierToken w = true ->
  lex w = (w, []) /\ lex (ch " " :: w) = (w, []).
Proof.
  intros Hw. rewrite <- (app_nil_r w) at 1 3. apply lex_word; auto.
Qed.

(** The whole parse, from the results of its two calls; the fuel is
    written with the four units the condition's length is added to. *)
Lemma parseCondition_from condition x s1 x' s2 s3 :
  unary (S (S (S (S (2 * length condition))))) identifiers condition
  = Returns (x, s1) ->
  binaryTrail (S (S (S (S (2 * length condition))))) identifiers x 0 s1
  = Returns (x', s2) ->
  lex s2 = ([], s3) ->
  parseCondition condition identifiers = Returns x'.
Proof.
  intros Hu Hb Hl. unfold parseCondition, parse, expr.
  replace (2 * length condition + 4)
    with (S (S (S (S (2 * length condition))))) by lia.
  rewrite Hu. cbn [bind fst snd]. rewrite Hb. cbn [bind fst snd].
  rewrite Hl. reflexivity.
Qed.

End ParserSteps.

Ltac solve_lex :=
  first [ reflexivity
        | eapply (fun w rest Hw Hr => proj2 (lex_word w rest Hw Hr));
          [eassumption|reflexivity]
        | eapply (fun w rest Hw Hr => proj1 (lex_word w rest Hw Hr));
          [eassumption|reflexivity]
        | eapply (fun w Hw => proj2 (lex_word_end w Hw)); eassumption
        | eapply (fun w Hw => proj1 (lex_word_end w Hw)); eassumption ].

Ltac solve_unary :=
  first [ eapply unary_operand; [solve_lex|eassumption|eassumption]
        | eapply unary_not; [reflexivity|solve_unary]
        | eapply unary_group; [reflexivity|solve_unary|solve_trail|reflexivity] ]
with solve_trail :=
  first [ eapply binaryTrail_end; reflexivity
        | eapply binaryTrail_close; reflexivity
        | etransitivity;
          [ eapply binaryTrail_step;
            [solve_lex|reflexivity|reflexivity|solve_unary|solve_climb]
          | solve_trail ] ]
with solve_climb :=
  first [ eapply climb_end; reflexivity
        | eapply climb_stop; [solve_lex|discriminate|reflexivity]
        | etransitivity;
          [ eapply climb_step;
            [solve_lex|discriminate|reflexivity|solve_trail]
          | solve_climb ] ].

Ltac solve_parse :=
  eapply parseCondition_from; [solve_unary|solve_trail|reflexivity].

Section Precedence.
Context {H : Host}.
Variable identifiers : Identifiers.

Lemma binaryTrail_pipe n x m s s' :
  lex s = (str "|", s') ->
  binaryTrail (S n) identifiers x m s = Throws SigmaAggregationNotSupportedError.
Proof. intros E. cbn [binaryTrail]. rewrite E. reflexivity. Qed.

(** How the parser groups: [and] binds tighter than [or] on either side,
    [not] tighter than both, parentheses group, a conjunction in
    parentheses on the right stays a node of its own, and a bar after an
    operand is refused as an aggregation, whatever follows it. *)
Theorem condition_precedence (a b c : jsstring) (A B C : NamedExprObject) :
  isIdentifierToken a = true ->
  isIdentifierToken b = true ->
  isIdentifierToken c = true ->
  lookup identifiers a = Some A ->
  lookup identifiers b = Some B ->
  lookup identifiers c = Some C ->
  parseCondition (a ++ str " or " ++ b ++ str " and " ++ c) identifiers
  = Returns (OrExpr [asExpr A; AndExpr [asExpr B; asExpr C]])
  /\ parseCondition (a ++ str " and " ++ b ++ str " or " ++ c) identifiers
     = Returns (OrExpr [AndExpr [asExpr A; asExpr B]; asExpr C])
  /\ parseCondition (str "not " ++ a ++ str " and " ++ b) identifiers
     = Returns (AndExpr [NotExpr (asExpr A); asExpr B])
  /\ parseCondition (str "(" ++ a ++ str " or " ++ b ++ str ") and " ++ c)
       identifiers
     = Returns (AndExpr [OrExpr [asExpr A; asExpr B]; asExpr C])
  /\ parseCondition (a ++ str " and (" ++ b ++ str " and " ++ c ++ str ")")
       identifiers
     = Returns (AndExpr [asExpr A; AndExpr [asExpr B; asExpr C]])
  /\ forall rest,
      parseCondition (a ++ str " |" ++ rest) identifiers
      = Throws SigmaAggregationNotSupportedError.
Proof.
  intros Ha Hb Hc La Lb Lc.
  repeat split; try solve_parse.
  intros rest. unfold parseCondition, parse, expr.
  replace (2 * length _ + 4) with (S (S (2 * length (a ++ str " |" ++ rest) + 2)))
    by lia.
  erewrite unary_operand; [|solve_lex|eassumption|eassumption].
  cbn [bind fst snd]. erewrite binaryTrail_pipe; reflexivity.
Qed.
End Precedence.


Lemma condition_precedence_witness :
  let identifiers : Identifiers :=
    [(str "a", {| name_of := str "a"; expr_of := SearchAtom None [] [str "x"] |});
     (str "b", {| name_of := str "b"; expr_of := SearchAtom None [] [str "y"] |});
     (str "c", {| name_of := str "c"; expr_of := SearchAtom None [] [str "z"] |})] in
  parseCondition (H := Reference.host) (str "a or b and c") identifiers
  = Returns
      (OrExpr [NamedExpr (str "a") (SearchAtom None [] [str "x"]);
               AndExpr [NamedExpr (str "b") (SearchAtom None [] [str "y"]);
                        NamedExpr (str "c") (SearchAtom None [] [str "z"])]]).
Proof.
  exact (proj1 (@condition_precedence Reference.host
                  [(str "a", {| name_of := str "a";
                                expr_of := SearchAtom None [] [str "x"] |});
                   (str "b", {| name_of := str "b";
                                expr_of := SearchAtom None [] [str "y"] |});
                   (str "c", {| name_of := str "c";
                                expr_of := SearchAtom None [] [str "z"] |})]
                  (str "a") (str "b") (str "c") _ _ _
                  eq_refl eq_refl eq_refl eq_refl eq_refl eq_refl)).
Defined.

Section Chains.
Context {H : Host}.
Variable identifiers : Identifiers.

Lemma join_chained op first operands :
  join (str " " ++ op ++ str " ") (map fst (first :: operands))
  = fst first ++ chained op operands.
Proof.
  revert first; induction operands as [|o operands IH]; intros first.
  - cbn. rewrite app_nil_r. reflexivity.
  - change (join (str " " ++ op ++ str " ") (map fst (first :: o :: operands)))
      with (fst first ++ (str " " ++ op ++ str " ")
            ++ join (str " " ++ op ++ str " ") (map fst (o :: operands))).
    rewrite IH. cbn [chained flat_map]. rewrite <- !app_assoc. reflexivity.
Qed.

Lemma chained_boundary op operands : atBoundary (chained op operands) = true.
Proof. destruct operands; reflexivity. Qed.

Lemma chained_length op operands :
  length operands <= length (chained op operands).
Proof.
  induction operands as [|o operands IH]; [apply Nat.le_refl|].
  cbn [chained flat_map length]. fold (chained op operands).
  rewrite !length_app. cbn [length str map list_ascii_of_string].
  unfold jsstring, codeunit in *. lia.
Qed.

Lemma joinOperands_node op xs y :
  isOperator op = true ->
  joinOperands op (node op xs) y = node op (xs ++ [y]).
Proof.
  unfold isOperator, joinOperands, node.
  destruct (streq op (str "and")); [reflexivity|].
  cbn [orb]. intros ->. reflexivity.
Qed.

Lemma joinOperands_first op x y :
  isOperator op = true ->
  joinOperands op (asExpr x) y = node op [asExpr x; y].
Proof.
  unfold isOperator, joinOperands, node.
  destruct (streq op (str "and")); [reflexivity|].
  cbn [orb]. intros ->. reflexivity.
Qed.

Lemma operator_precedence op :
  isOperator op = true ->
  (operatorPrecedence op <? 0)%Z = false
  /\ (operatorPrecedence op <=? operatorPrecedence op)%Z = true
  /\ op <> [].
Proof.
  unfold isOperator, operatorPrecedence.
  destruct (streq_spec op (str "and")) as [->|_]; [repeat split; discriminate|].
  destruct (streq_spec op (str "or")) as [->|_]; [|discriminate].
  repeat split; discriminate.
Qed.

Lemma lex_chained op o operands :
  isOperator op = true ->
  lex (chained op (o :: operands))
  = (op, str " " ++ fst o ++ chained op operands).
Proof.
  intros Hop. cbn [chained flat_map]. fold (chained op operands).
  rewrite <- !app_assoc. apply (lex_operator op _ Hop). reflexivity.
Qed.

(** One operand of a chain: the operator, the operand, and no operator that
    binds tighter after it. *)
Lemma chain_step n op x o operands :
  isOperator op = true -> isOperand identifiers o ->
  binaryTrail (S (S n)) identifiers x 0 (chained op (o :: operands))
  = binaryTrail (S n) identifiers (joinOperands op x (operandOf o)) 0
      (chained op operands).
Proof.
  intros Hop [Ho Lo].
  destruct (operator_precedence op Hop) as (Hp & Hq & Hne).
  eapply binaryTrail_step.
  - apply (lex_chained op o operands Hop).
  - exact Hop.
  - exact Hp.
  - eapply unary_operand; [|exact Ho|exact Lo].
    apply (lex_word (fst o) _ Ho (chained_boundary op operands)).
  - destruct operands as [|o' operands].
    + apply climb_end. reflexivity.
    + eapply climb_stop; [apply (lex_chained op o' operands Hop)|exact Hne|].
      exact Hq.
Qed.

Lemma chain_trail op (Hop : isOperator op = true) operands :
  forall fuel xs,
    length operands < fuel ->
    Forall (isOperand identifiers) operands ->
    binaryTrail fuel identifiers (node op xs) 0 (chained op operands)
    = Returns (node op (xs ++ map operandOf operands), []).
Proof.
  induction operands as [|o operands IH]; intros fuel xs Hf Hall.
  - destruct fuel as [|n]; [inversion Hf|]. rewrite app_nil_r.
    apply binaryTrail_end. reflexivity.
  - inversion Hall as [|? ? Ho Hrest]; subst.
    destruct fuel as [|[|n]]; cbn [length] in Hf; try lia.
    rewrite (chain_step n op _ o operands Hop Ho).
    rewrite (joinOperands_node op xs _ Hop).
    rewrite (IH (S n) _ ltac:(lia) Hrest).
    cbn [map]. rewrite <- app_assoc. reflexivity.
Qed.

(** A chain of two or more operands under one operator is one node: the
    condition that joins the operands by [and] parses to one conjunction
    with the operands as its children, in their order, and by [or] to one
    disjunction. *)
Theorem operator_chain (op : jsstring)
  (first second : jsstring * NamedExprObject)
  (others : list (jsstring * NamedExprObject)) :
  isOperator op = true ->
  Forall (isOperand identifiers) (first :: second :: others) ->
  parseCondition
    (join (str " " ++ op ++ str " ") (map fst (first :: second :: others)))
    identifiers
  = Returns (node op (map operandOf (first :: second :: others))).
Proof.
  intros Hop Hall.
  inversion Hall as [|? ? [H1 L1] Hall']; subst.
  inversion Hall' as [|? ? H2 Hothers]; subst.
  rewrite join_chained.
  set (condition := fst first ++ chained op (second :: others)).
  assert (Hlen : length others < S (S (S (2 * length condition)))).
  { unfold condition. rewrite length_app.
    pose proof (chained_length op (second :: others)) as Hl.
    cbn [length] in Hl. lia. }
  eapply parseCondition_from.
  - eapply unary_operand; [|exact H1|exact L1].
    apply (lex_word (fst first) _ H1 (chained_boundary op (second :: others))).
  - rewrite (chain_step _ op _ second others Hop H2).
    unfold operandOf at 1. rewrite (joinOperands_first op _ _ Hop).
    rewrite (chain_trail op Hop others _ _ Hlen Hothers). reflexivity.
  - reflexivity.
Qed.

End Chains.


Lemma operator_chain_witness :
  let A := {| name_of := str "a"; expr_of := SearchAtom None [] [str "x"] |} in
  let B := {| name_of := str "b"; expr_of := SearchAtom None [] [str "y"] |} in
  let C := {| name_of := str "c"; expr_of := SearchAtom None [] [str "z"] |} in
  parseCondition (H := Reference.host) (str "a and b and c")
    [(str "a", A); (str "b", B); (str "c", C)]
  = Returns (AndExpr [asExpr A; asExpr B; asExpr C]).
Proof.
  refine (@operator_chain Reference.host _ (str "and")
            (str "a", _) (str "b", _) [(str "c", _)] eq_refl _).
  repeat (constructor; [split; reflexivity|]). constructor.
Defined.


(** ** What the parser keeps *)

Lemma parse_from_modelled (input : jsstring) :
  forallb (fun c => isModelledUnit c
                    && match RegExp.classify c with
                       | RegExp.OpenParen => false
                       | _ => true
                       end) input = true ->
  forall stack top,
    RegExp.parse_from input stack top <> RegExp.Unsupported.
Proof.
  induction input as [|c rest IH]; intros Hin stack top.
  - cbn. destruct stack; discriminate.
  - cbn [forallb] in Hin. apply andb_prop in Hin. destruct Hin as [Hc Hrest].
    apply andb_prop in Hc. destruct Hc as [Hm Hp]. unfold isModelledUnit in Hm.
    cbn [RegExp.parse_from].
    destruct (RegExp.classify c); try discriminate;
      try (apply (IH Hrest));
      try (destruct (RegExp.apply_quantifier _ top);
           [apply (IH Hrest)|discriminate]).
    destruct stack; [discriminate|apply (IH Hrest)].
Qed.

Section Termination.
Context {H : Host}.
Variable identifiers : Identifiers.

Lemma word_unit_not_paren c :
  isWordUnit c = true ->
  match RegExp.classify c with RegExp.OpenParen => false | _ => true end = true.
Proof.
  unfold isWordUnit, isDelim. cbn [existsb str map list_ascii_of_string].
  intros E. apply negb_true_iff, orb_false_elim in E. destruct E as [E _].
  apply orb_false_elim in E. destruct E as [E _].
  unfold RegExp.classify.
  destruct (N.eqb c (ch "\")); [reflexivity|].
  fold (ch "(") in E. rewrite E.
  repeat match goal with
         | |- context [if ?b then _ else _] => destruct b
         end; reflexivity.
Qed.

Lemma filteredIdentifiers_modelled pattern :
  isModelled pattern = true ->
  (forallb isWordUnit pattern = true
   \/ exists c, pattern = [c] /\ isDelim c = true) ->
  filteredIdentifiers identifiers pattern <> Unmodelled.
Proof.
  intros Hm Hshape. unfold filteredIdentifiers.
  destruct (streq pattern (str "them")); [discriminate|].
  unfold RegExp_new, RegExp.parse.
  match goal with
  | |- context [RegExp.parse_from ?src [] RegExp.empty_frame] =>
      assert (Hs : RegExp.parse_from src [] RegExp.empty_frame
                   <> RegExp.Unsupported)
  end.
  { destruct Hshape as [Hw|(c & -> & Hc)].
    - apply parse_from_modelled.
      rewrite !forallb_app. apply andb_true_iff. split; [reflexivity|].
      apply andb_true_iff. split; [|reflexivity].
      unfold isModelled in Hm. clear - Hm Hw.
      induction pattern as [|c p IH]; [reflexivity|].
      cbn [forallb] in Hm, Hw. apply andb_prop in Hm, Hw.
      destruct Hm as [Hc Hm], Hw as [Hu Hw].
      cbn [flat_map]. rewrite forallb_app, (IH Hm Hw), andb_true_r.
      destruct (N.eqb c (ch "*")); [reflexivity|].
      cbn [forallb]. rewrite Hc, (word_unit_not_paren c Hu). reflexivity.
    - unfold isDelim in Hc. cbn [existsb str map list_ascii_of_string] in Hc.
      repeat (apply orb_prop in Hc; destruct Hc as [Hc|Hc]);
        try discriminate; apply N.eqb_eq in Hc; subst c; discriminate. }
  destruct (RegExp.parse_from _ [] RegExp.empty_frame);
    [discriminate|discriminate|congruence].
Qed.


(** *** Where the parser's strings come from *)

Lemma suffix_refl s : suffix s s.
Proof. exists []. reflexivity. Qed.

Lemma suffix_trans a b c : suffix a b -> suffix b c -> suffix a c.
Proof.
  intros [p ->] [q ->]. exists (q ++ p). rewrite app_assoc. reflexivity.
Qed.

Lemma shorter_suffix a b : shorter a b -> suffix a b.
Proof. intros (p & -> & _). exists p. reflexivity. Qed.

Lemma suffix_length a b : suffix a b -> length a <= length b.
Proof. intros [p ->]. rewrite length_app. lia. Qed.

Lemma shorter_length a b : shorter a b -> length a < length b.
Proof.
  intros (p & -> & Hp). rewrite length_app.
  destruct p; [congruence|cbn [length]; lia].
Qed.

Lemma suffix_shorter a b : suffix a b -> length a < length b -> shorter a b.
Proof.
  intros [p ->] Hl. exists p. split; [reflexivity|]. intros ->.
  cbn [app] in Hl. lia.
Qed.

Lemma suffix_modelled a b :
  suffix a b -> isModelled a = false -> isModelled b = false.
Proof.
  intros [p ->] Ha. unfold isModelled in *. rewrite forallb_app, Ha.
  apply andb_false_r.
Qed.

Lemma lex_parts s tok s1 :
  lex s = (tok, s1) ->
  suffix s1 s
  /\ (tok <> [] -> shorter s1 s)
  /\ (isModelled s = true -> isModelled tok = true)
  /\ (forallb isWordUnit tok = true
      \/ exists c, tok = [c] /\ isDelim c = true).
Proof.
  intros E. pose proof (lex_partition s) as Hp. cbv zeta in Hp.
  rewrite E in Hp. cbn [fst snd] in Hp. destruct Hp as (Hp & He & Hshape).
  destruct (trimStart_suffix s) as (spaces & Hs & _).
  rewrite <- Hp in Hs.
  split; [exists (spaces ++ tok); rewrite <- app_assoc; exact Hs|].
  split.
  { intros Hne. exists (spaces ++ tok). split.
    - rewrite <- app_assoc. exact Hs.
    - intros Ha. apply app_eq_nil in Ha. destruct Ha; congruence. }
  split.
  { intros Hm. rewrite Hs in Hm. unfold isModelled in *.
    rewrite !forallb_app in Hm. apply andb_prop in Hm. destruct Hm as [_ Hm].
    apply andb_prop in Hm. destruct Hm as [Hm _]. exact Hm. }
  destruct Hshape as [[Hw _]|Hd]; [left; exact Hw|right; exact Hd].
Qed.


(** *** What the parser returns *)

Variable P : option jsstring * list jsstring * list jsstring -> Prop.

Lemma lookup_built ids k v :
  tableBuilt P ids -> lookup ids k = Some v -> built P (asExpr v).
Proof.
  induction 1 as [|[k' v'] ids Hk _ IH]; [discriminate|].
  cbn [lookup]. destruct (streq k' k); [|exact IH].
  intros E. injection E as <-. exact Hk.
Qed.

Lemma built_children xs : Forall (built P) xs -> Forall P (flat_map atomsOf xs).
Proof.
  induction 1 as [|x xs Hx _ IH]; [constructor|].
  cbn [flat_map]. apply Forall_app. split; assumption.
Qed.

Lemma children_built xs : Forall P (flat_map atomsOf xs) -> Forall (built P) xs.
Proof.
  induction xs as [|x xs IH]; [constructor|].
  cbn [flat_map]. intros Hx. apply Forall_app in Hx. destruct Hx as [H1 H2].
  constructor; [exact H1|exact (IH H2)].
Qed.

Lemma filtered_built ids pattern l :
  tableBuilt P ids ->
  filteredIdentifiers ids pattern = Returns l -> Forall (built P) l.
Proof.
  intros Ht. unfold filteredIdentifiers. destruct (streq pattern (str "them")).
  - intros E. injection E as <-.
    induction Ht as [|kv ids Hk _ IH]; constructor; assumption.
  - intros E. apply bind_Returns in E. destruct E as (regex & _ & E).
    injection E as <-.
    induction Ht as [|kv ids Hk _ IH]; [constructor|].
    cbn [filter]. destruct (RegExp_test regex (fst kv)); [constructor|];
      assumption.
Qed.

Lemma joinOperands_built op x y :
  built P x -> built P y -> built P (joinOperands op x y).
Proof.
  intros Hx Hy. unfold joinOperands.
  destruct (streq op (str "and")).
  - destruct x; try (unfold built; cbn [atomsOf flat_map];
                     rewrite app_nil_r; apply Forall_app; split; assumption).
    unfold built in *. cbn [atomsOf] in *. rewrite flat_map_app.
    apply Forall_app. split; [exact Hx|]. cbn [flat_map].
    rewrite app_nil_r. exact Hy.
  - destruct (streq op (str "or")); [|exact Hx].
    destruct x; try (unfold built; cbn [atomsOf flat_map];
                     rewrite app_nil_r; apply Forall_app; split; assumption).
    unfold built in *. cbn [atomsOf] in *. rewrite flat_map_app.
    apply Forall_app. split; [exact Hx|]. cbn [flat_map].
    rewrite app_nil_r. exact Hy.
Qed.

Lemma stuck_up fuel s' s :
  stuck fuel s' -> suffix s' s -> length s' < length s -> stuck (S fuel) s.
Proof.
  intros [Hf|Hm] Hs Hl; [left; lia|right; exact (suffix_modelled _ _ Hs Hm)].
Qed.


Hypothesis table_built : tableBuilt P identifiers.

Lemma unary_step fuel :
  (forall s, unary_ok P fuel s (unary fuel identifiers s)) ->
  (forall x m s, built P x ->
                 binaryTrail_ok P fuel m s (binaryTrail fuel identifiers x m s)) ->
  forall s, unary_ok P (S fuel) s (unary (S fuel) identifiers s).
Proof.
  intros IHU IHB s. cbn [unary].
  destruct (lex s) as [tok s1] eqn:El.
  destruct (lex_parts s tok s1 El) as (S1 & Sh1 & M1 & _).
  destruct (streq_spec tok []) as [->|Htok]; [exact I|].
  specialize (Sh1 Htok). pose proof (shorter_length _ _ Sh1) as L1.
  destruct (streq tok (str "(")).
  { pose proof (IHU s1) as HU.
    destruct (unary fuel identifiers s1) as [[x s2]| |]; cbn [bind fst snd].
    - destruct HU as [Qx Sh2]. pose proof (shorter_length _ _ Sh2) as L2.
      pose proof (suffix_trans _ _ _ (shorter_suffix _ _ Sh2) S1) as S2.
      pose proof (IHB x 0%Z s2 Qx) as HB.
      destruct (binaryTrail fuel identifiers x 0 s2) as [[x' s3]| |];
        cbn [bind].
      + destruct HB as (Qx' & S3 & _).
        destruct (lex s3) as [closing s4] eqn:El3.
        destruct (lex_parts s3 closing s4 El3) as (S4 & _).
        destruct (negb (streq closing (str ")"))); [exact I|].
        split; [exact Qx'|]. apply suffix_shorter.
        * exact (suffix_trans _ _ _ S4 (suffix_trans _ _ _ S3 S2)).
        * pose proof (suffix_length _ _ S4). pose proof (suffix_length _ _ S3).
          lia.
      + exact I.
      + apply (stuck_up fuel s2 s HB S2). lia.
    - exact I.
    - apply (stuck_up fuel s1 s HU S1 L1). }
  destruct (streq tok (str "not")).
  { pose proof (IHU s1) as HU.
    destruct (unary fuel identifiers s1) as [[x s2]| |]; cbn [bind fst snd].
    - destruct HU as [Qx Sh2]. split.
      + exact Qx.
      + apply suffix_shorter.
        * exact (suffix_trans _ _ _ (shorter_suffix _ _ Sh2) S1).
        * pose proof (shorter_length _ _ Sh2). lia.
    - exact I.
    - apply (stuck_up fuel s1 s HU S1 L1). }
  destruct (streq tok (str "1") || streq tok (str "all")).
  { destruct (lex s1) as [of_ s2] eqn:El1.
    destruct (lex_parts s1 of_ s2 El1) as (S2 & _).
    destruct (negb (streq of_ (str "of"))); [exact I|].
    destruct (lex s2) as [pattern s3] eqn:El2.
    destruct (lex_parts s2 pattern s3 El2) as (S3 & _ & M3 & Hshape).
    destruct (streq pattern []); [exact I|].
    assert (Sh3 : shorter s3 s).
    { apply suffix_shorter.
      - exact (suffix_trans _ _ _ S3 (suffix_trans _ _ _ S2 S1)).
      - pose proof (suffix_length _ _ S3). pose proof (suffix_length _ _ S2).
        lia. }
    pose proof (filtered_built identifiers pattern) as HF.
    pose proof (filteredIdentifiers_modelled pattern) as HM.
    destruct (filteredIdentifiers identifiers pattern) as [filtered| |];
      cbn [bind].
    - specialize (HF filtered table_built eq_refl).
      destruct filtered as [|only [|other filtered]]; [exact I| |].
      + inversion HF; subst. split; assumption.
      + destruct (streq tok (str "1")); (split; [|exact Sh3]);
          apply built_children; exact HF.
    - exact I.
    - right. destruct (isModelled s) eqn:Em; [|reflexivity].
      exfalso. apply HM; [|exact Hshape|reflexivity].
      apply M3. destruct (isModelled s2) eqn:E2; [reflexivity|].
      rewrite (suffix_modelled _ _ (suffix_trans _ _ _ S2 S1) E2) in Em.
      discriminate. }
  pose proof (lookup_built identifiers tok) as HL.
  destruct (lookup identifiers tok) as [identifier|]; [|exact I].
  split; [exact (HL identifier table_built eq_refl)|exact Sh1].
Qed.


Lemma binaryTrail_step_ok fuel :
  (forall s, unary_ok P fuel s (unary fuel identifiers s)) ->
  (forall x m s, built P x ->
                 binaryTrail_ok P fuel m s (binaryTrail fuel identifiers x m s)) ->
  (forall y p s, built P y -> climb_ok P fuel s (climb fuel identifiers y p s)) ->
  forall x m s,
    built P x ->
    binaryTrail_ok P (S fuel) m s (binaryTrail (S fuel) identifiers x m s).
Proof.
  intros IHU IHB IHC x m s Qx. cbn [binaryTrail].
  destruct (lex s) as [op s1] eqn:El.
  destruct (lex_parts s op s1 El) as (S1 & Sh1 & _).
  destruct (streq_spec op []) as [->|Hop].
  { split; [exact Qx|]. split; [exact S1|]. congruence. }
  specialize (Sh1 Hop). pose proof (shorter_length _ _ Sh1) as L1.
  destruct (streq op (str "|")); [exact I|].
  destruct (Z.ltb_spec (operatorPrecedence op) m) as [Hlow|Hhigh].
  { split; [exact Qx|]. split; [apply suffix_refl|].
    intros op' s1' E _ Hm. assert (Eop : op' = op) by congruence.
    subst op'. lia. }
  pose proof (IHU s1) as HU.
  destruct (unary fuel identifiers s1) as [[y s2]| |]; cbn [bind fst snd];
    [|exact I|exact (stuck_up fuel s1 s HU S1 L1)].
  destruct HU as [Qy Sh2]. pose proof (shorter_length _ _ Sh2) as L2.
  pose proof (suffix_trans _ _ _ (shorter_suffix _ _ Sh2) S1) as S2.
  pose proof (IHC y (operatorPrecedence op) s2 Qy) as HC.
  destruct (climb fuel identifiers y (operatorPrecedence op) s2)
    as [[y' s3]| |]; cbn [bind fst snd]; [|exact I|].
  - destruct HC as [Qy' S3]. pose proof (suffix_length _ _ S3) as L3.
    pose proof (suffix_trans _ _ _ S3 S2) as S3'.
    pose proof (IHB (joinOperands op x y') m s3
                  (joinOperands_built op x y' Qx Qy')) as HB.
    destruct (binaryTrail fuel identifiers (joinOperands op x y') m s3)
      as [[e s4]| |]; [|exact I|apply (stuck_up fuel s3 s HB S3'); lia].
    destruct HB as (Qe & S4 & _). pose proof (suffix_length _ _ S4) as L4.
    pose proof (suffix_trans _ _ _ S4 S3') as S4'.
    split; [exact Qe|]. split; [exact S4'|].
    intros _ _ _ _ _. apply (suffix_shorter _ _ S4'). lia.
  - destruct HC as [Hf|Hm]; [left; lia|right].
    exact (suffix_modelled _ _ S2 Hm).
Qed.

Lemma climb_step_ok fuel :
  (forall x m s, built P x ->
                 binaryTrail_ok P fuel m s (binaryTrail fuel identifiers x m s)) ->
  (forall y p s, built P y -> climb_ok P fuel s (climb fuel identifiers y p s)) ->
  forall y p s,
    built P y -> climb_ok P (S fuel) s (climb (S fuel) identifiers y p s).
Proof.
  intros IHB IHC y p s Qy. cbn [climb].
  destruct (lex s) as [nextOp s1] eqn:El.
  destruct (lex_parts s nextOp s1 El) as (S1 & _).
  destruct (streq_spec nextOp []) as [->|Hop]; [split; assumption|].
  destruct (Z.leb_spec (operatorPrecedence nextOp) p) as [Hlow|Hhigh].
  { split; [exact Qy|apply suffix_refl]. }
  pose proof (IHB y (p + 1)%Z s Qy) as HB.
  destruct (binaryTrail fuel identifiers y (p + 1) s) as [[y' s2]| |];
    cbn [bind fst snd]; [|exact I|exact HB].
  destruct HB as (Qy' & S2 & Sh2).
  specialize (Sh2 nextOp s1 El Hop ltac:(lia)).
  pose proof (shorter_length _ _ Sh2) as L2.
  pose proof (IHC y' p s2 Qy') as HC.
  destruct (climb fuel identifiers y' p s2) as [[e s3]| |]; [|exact I|].
  - destruct HC as [Qe S3]. split; [exact Qe|].
    exact (suffix_trans _ _ _ S3 S2).
  - destruct HC as [Hf|Hm]; [left; cbn [pred]; lia|right].
    exact (suffix_modelled _ _ S2 Hm).
Qed.

Lemma parser_ok fuel :
  (forall s, unary_ok P fuel s (unary fuel identifiers s))
  /\ (forall x m s,
         built P x ->
         binaryTrail_ok P fuel m s (binaryTrail fuel identifiers x m s))
  /\ (forall y p s,
         built P y -> climb_ok P fuel s (climb fuel identifiers y p s)).
Proof.
  induction fuel as [|fuel (IHU & IHB & IHC)].
  - repeat split; intros; left; cbn; lia.
  - split; [|split].
    + exact (unary_step fuel IHU IHB).
    + exact (binaryTrail_step_ok fuel IHU IHB IHC).
    + exact (climb_step_ok fuel IHB IHC).
Qed.


Lemma parseCondition_ok condition :
  match parseCondition condition identifiers with
  | Returns e => built P e
  | Throws _ => True
  | Unmodelled => isModelled condition = false
  end.
Proof.
  unfold parseCondition, parse, expr.
  set (fuel := 2 * length condition + 4).
  destruct (parser_ok fuel) as (HU & HB & _).
  specialize (HU condition).
  destruct (unary fuel identifiers condition) as [[x s1]| |];
    cbn [bind fst snd]; [|exact I|].
  - destruct HU as [Qx Sh1]. pose proof (shorter_length _ _ Sh1) as L1.
    specialize (HB x 0%Z s1 Qx).
    destruct (binaryTrail fuel identifiers x 0 s1) as [[e s2]| |];
      cbn [bind fst snd]; [|exact I|].
    + destruct (lex s2) as [tok s3].
      destruct (negb (streq tok [])); [exact I|apply HB].
    + destruct HB as [Hf|Hm]; [unfold fuel in Hf; lia|].
      exact (suffix_modelled _ _ (shorter_suffix _ _ Sh1) Hm).
  - destruct HU as [Hf|Hm]; [unfold fuel in Hf; lia|exact Hm].
Qed.

End Termination.

Section TerminationTheorems.
Context {H : Host}.

(** The parser terminates: on a condition without backslashes, brackets
    and braces, with any table of identifiers, [parseCondition] returns a
    tree or throws.  (The loops of [binaryTrail] read at least one token
    in each turn, so the depth of the calls stays below the bound the
    embedding runs them with.) *)
Theorem parseCondition_terminates (condition : jsstring)
  (identifiers : Identifiers) :
  isModelled condition = true ->
  (exists e, parseCondition condition identifiers = Returns e)
  \/ (exists failure, parseCondition condition identifiers = Throws failure).
Proof.
  intros Hm.
  assert (Ht : tableBuilt (fun _ => True) identifiers).
  { apply Forall_forall. intros kv _. apply Forall_forall. intros a _. exact I. }
  pose proof (parseCondition_ok identifiers (fun _ => True) Ht condition) as Hp.
  destruct (parseCondition condition identifiers) as [e|failure|].
  - left. exists e. reflexivity.
  - right. exists failure. reflexivity.
  - congruence.
Qed.

End TerminationTheorems.


Lemma parseCondition_terminates_witness :
  (exists e,
      parseCondition (H := Reference.host) (str "a and (b or not c") []
      = Returns e)
  \/ (exists failure,
         parseCondition (H := Reference.host) (str "a and (b or not c") []
         = Throws failure).
Proof.
  exact (@parseCondition_terminates Reference.host (str "a and (b or not c")
           [] eq_refl).
Defined.


(** ** Rules *)

Section AtomFacts.
Context {H : Host}.

Lemma parseSearchKey_valid key value e :
  parseSearchKey key value = Returns e -> validTree e.
Proof.
  unfold parseSearchKey. intros E.
  apply bind_Returns in E. destruct E as (patterns & _ & E).
  apply bind_Returns in E. destruct E as (err & Hv & E).
  destruct err as [err|]; [discriminate|]. injection E as <-.
  repeat constructor. exact Hv.
Qed.

Lemma mapM_Forall {A B} (f : A -> outcome B) (P : B -> Prop) (l : list A)
  (bs : list B) :
  mapM f l = Returns bs ->
  (forall a b, f a = Returns b -> P b) ->
  Forall P bs /\ length bs = length l.
Proof.
  intros E Hf. revert bs E. induction l as [|a l IH]; intros bs E.
  - injection E as <-. split; constructor.
  - cbn [mapM] in E. apply bind_Returns in E. destruct E as (b & Hb & E).
    apply bind_Returns in E. destruct E as (bs' & Hbs & E).
    injection E as <-. destruct (IH bs' Hbs) as [IH1 IH2].
    split; [constructor; [exact (Hf a b Hb)|exact IH1]|cbn; congruence].
Qed.

Lemma validTree_children xs :
  Forall validTree xs -> Forall validates (flat_map atomsOf xs).
Proof.
  induction 1 as [|x xs Hx _ IH]; [constructor|].
  cbn [flat_map]. apply Forall_app. split; assumption.
Qed.

Lemma parseSearchMap_valid node e :
  parseSearchMap node = Returns e -> validTree e.
Proof.
  unfold parseSearchMap. intros E.
  apply bind_Returns in E. destruct E as (atoms & Ha & E).
  destruct (mapM_Forall _ validTree _ _ Ha
              (fun kv b => parseSearchKey_valid (fst kv) (snd kv) b))
    as [Hall _].
  destruct atoms as [|a [|b atoms]]; try discriminate; injection E as <-.
  - inversion Hall; assumption.
  - apply validTree_children. exact Hall.
Qed.

Lemma validate_nonempty modifiers patterns :
  validate modifiers patterns = Returns None -> patterns <> [].
Proof. intros E ->. discriminate E. Qed.

Lemma validate_keywords patterns :
  patterns <> [] -> validate [] patterns = Returns None.
Proof. destruct patterns; [congruence|reflexivity]. Qed.

Lemma keyword_patterns exprs :
  Forall validTree exprs -> forallb isKeyword exprs = true ->
  exprs <> [] -> flat_map patternsOf exprs <> [].
Proof.
  intros Hv Hk Hne. destruct exprs as [|e exprs]; [congruence|].
  cbn [forallb] in Hk. apply andb_prop in Hk. destruct Hk as [Hk _].
  inversion Hv as [|? ? He _]; subst.
  destruct e; try discriminate. cbn [flat_map patternsOf].
  inversion He as [|? ? Ha _]; subst.
  apply validate_nonempty in Ha. cbn [snd] in Ha.
  destruct patterns; [congruence|discriminate].
Qed.

Lemma parsed_atoms_validate (id : jsstring) (value : yaml) (e : Expr) :
  parseIdentifier id value = Returns e ->
  value <> YSeq [] ->
  validTree e.
Proof.
  intros E Hne. destruct value as [| | |s|items|node]; try discriminate.
  - injection E as <-. repeat constructor.
  - cbn [parseIdentifier] in E.
    apply bind_Returns in E. destruct E as (exprs & Hm & E).
    destruct (mapM_Forall _ validTree _ _ Hm) as [Hall Hlen].
    { intros elem b Hb. destruct elem; try discriminate.
      - injection Hb as <-. repeat constructor.
      - exact (parseSearchMap_valid _ _ Hb). }
    assert (Hex : exprs <> []).
    { intros ->. destruct items; [congruence|discriminate]. }
    destruct exprs as [|x [|y exprs]]; [congruence| |].
    + injection E as <-. inversion Hall; assumption.
    + destruct (forallb isKeyword (x :: y :: exprs)) eqn:Hk;
        injection E as <-.
      * unfold validTree, built. cbn [atomsOf]. constructor; [|constructor].
        apply validate_keywords.
        exact (keyword_patterns _ Hall Hk Hex).
      * apply validTree_children. exact Hall.
  - exact (parseSearchMap_valid node e E).
Qed.

End AtomFacts.

Section ParsedRules.
Context {H : Host}.

Lemma Map_set_built P (ids : Identifiers) k v :
  tableBuilt P ids -> built P (expr_of v) -> tableBuilt P (Map_set ids k v).
Proof.
  intros Ht Hv. induction Ht as [|[k' v'] ids Hk Hids IH].
  - repeat constructor. exact Hv.
  - cbn [Map_set]. destruct (streq k' k); constructor; assumption.
Qed.

Lemma parseIdentifiers_built block idKeys :
  (forall k, property block k <> Some (YSeq [])) ->
  forall ids table,
    tableBuilt validates ids ->
    parseIdentifiers block idKeys ids = Returns table ->
    tableBuilt validates table.
Proof.
  intros Hne. induction idKeys as [|id idKeys IH]; intros ids table Ht E.
  - injection E as <-. exact Ht.
  - cbn [parseIdentifiers] in E.
    destruct (property block id) as [value|] eqn:Ev; [|discriminate].
    apply bind_Returns in E. destruct E as (result & Hr & E).
    assert (Hv : validTree result).
    { apply (parsed_atoms_validate id value result Hr).
      intros ->. exact (Hne id Ev). }
    exact (IH _ _ (Map_set_built validates ids id
                     {| name_of := id; expr_of := result |} Ht Hv) E).
Qed.

(** The atoms of a parsed rule are valid: when [parseRule] returns a rule
    and no search identifier of the detection is an empty list, [validate]
    accepts every atom of the rule's tree, so that the test of it that
    [exprMatches] repeats does not fail. *)
Theorem parsed_rules_validate (doc : yaml) (rule : Rule) :
  parseRule doc = Returns rule ->
  (forall block k,
      property doc (str "detection") = Some block ->
      property block k <> Some (YSeq [])) ->
  validTree (expr_ (detection rule)).
Proof.
  intros E Hne. unfold parseRule in E.
  destruct doc; try discriminate;
    (destruct (negb (truthy _)); [discriminate|]);
    apply bind_Returns in E; destruct E as (det & Hd & E);
    apply bind_Returns in E; destruct E as (rel & _ & E);
    apply bind_Returns in E; destruct E as (d1 & _ & E);
    apply bind_Returns in E; destruct E as (d2 & _ & E);
    injection E as <-; cbn [detection];
    unfold parseDetection in Hd;
    (destruct (property _ (str "detection")) as [block|] eqn:Eb;
     [|discriminate]);
    specialize (Hne block);
    (destruct (negb (truthy (Some block))); [discriminate|]);
    (destruct (length _ =? 0)%nat; [discriminate|]);
    (destruct (truthy (property block (str "timeframe"))); [discriminate|]);
    apply bind_Returns in Hd; destruct Hd as (identifiers & Hi & Hd);
    apply bind_Returns in Hd; destruct Hd as (container & Hc & Hd);
    pose proof (parseIdentifiers_built block _ (fun k => Hne k eq_refl)
                  [] identifiers (Forall_nil _) Hi) as Ht;
    destruct (mapM_Forall _ (built validates) _ _ Hc) as [Hall _];
    try (intros cond e Hp;
         pose proof (parseCondition_ok identifiers validates Ht cond) as Hok;
         rewrite Hp in Hok; exact Hok);
    destruct container as [|x [|y container]]; injection Hd as <-;
    cbn [expr_]; try (inversion Hall; assumption);
    apply built_children; exact Hall.
Qed.

End ParsedRules.


Lemma parsed_rules_validate_witness :
  exists rule,
    parseRule (H := Reference.host)
      (YMap [(str "title", YStr (str "t"));
             (str "detection",
              YMap [(str "selection",
                     YMap [(str "User|contains", YStr (str "root"))]);
                    (str "keywords", YSeq [YStr (str "x"); YStr (str "y")]);
                    (str "condition", YStr (str "selection and keywords"))])])
    = Returns rule
    /\ validTree (H := Reference.host) (expr_ (detection rule)).
Proof.
  eexists. split; [reflexivity|].
  apply (@parsed_rules_validate Reference.host
           (YMap [(str "title", YStr (str "t"));
                  (str "detection",
                   YMap [(str "selection",
                          YMap [(str "User|contains", YStr (str "root"))]);
                         (str "keywords",
                          YSeq [YStr (str "x"); YStr (str "y")]);
                         (str "condition",
                          YStr (str "selection and keywords"))])])
           _ eq_refl).
  intros block k E. cbn in E. injection E as <-. cbn [property lookup].
  repeat (destruct (streq _ k)); discriminate.
Defined.

Section RuleFacts.
Context {H : Host}.

Lemma allStrings_Some items l :
  allStrings items = Some l -> items = map YStr l.
Proof.
  revert l; induction items as [|v items IH]; intros l E.
  - injection E as <-. reflexivity.
  - cbn [allStrings] in E. destruct v; try discriminate.
    destruct (allStrings items) as [l'|]; [|discriminate].
    injection E as <-. cbn [map]. rewrite (IH l' eq_refl). reflexivity.
Qed.

Lemma allStrings_None items :
  (exists v, In v items /\ asString v = None) -> allStrings items = None.
Proof.
  intros (v & Hin & Hv). induction items as [|w items IH]; [destruct Hin|].
  cbn [allStrings]. destruct Hin as [->|Hin].
  - destruct v; try reflexivity. discriminate.
  - rewrite (IH Hin). destruct w; reflexivity.
Qed.

(** A list of strings is all or nothing: a list that holds one element
    that is no string is read as the empty list, and a detection whose
    condition is such a list is refused for want of a condition. *)
Theorem string_lists_are_all_or_nothing (items : list yaml) :
  (exists v, In v items /\ asString v = None) ->
  listOfStrings (Some (YSeq items)) = []
  /\ forall entries,
      lookup entries (str "condition") = Some (YSeq items) ->
      parseDetection (Some (YMap entries))
      = Throws (SigmaError (str "missing detection condition")).
Proof.
  intros Hv.
  assert (E : listOfStrings (Some (YSeq items)) = [])
    by (cbn [listOfStrings]; rewrite (allStrings_None items Hv); reflexivity).
  split; [exact E|]. intros entries Hc.
  unfold parseDetection. cbn [truthy negb property]. rewrite Hc, E.
  reflexivity.
Qed.

(** *** [parseRule] *)



(** *** [parseRule]: related rules *)

(** The loop over [related]: entries that are falsy are skipped and the
    others are kept in their order, if each has its [id] and its [type];
    the first entry that lacks one is refused, with its index in the list
    as written and the name of what it lacks, the [id] first. *)
Theorem related_entries (title : jsstring) (items : list yaml) (i : Z) :
  (Forall (fun rel => truthy (Some rel) = false \/ isRelation rel = true)
     items ->
   parseRelated title items i
   = Returns (map asRelation (filter (fun rel => truthy (Some rel)) items)))
  /\ (forall before bad after,
         items = before ++ bad :: after ->
         Forall (fun rel => truthy (Some rel) = false \/ isRelation rel = true)
           before ->
         truthy (Some bad) = true -> isRelation bad = false ->
         parseRelated title items i
         = Throws
             (SigmaError
                (str "parse sigma rule " ++ [dquote] ++ title ++ [dquote]
                 ++ str ": related["
                 ++ decimal (i + Z.of_nat (length before))
                 ++ str "]: "
                 ++ (if truthy (property bad (str "id"))
                     then str "missing type" else str "missing id")))).
Proof.
  split.
  - intros Hall. revert i. induction Hall as [|rel items Hr _ IH]; intros i;
      [reflexivity|].
    cbn [parseRelated filter]. unfold isRelation in Hr.
    destruct (truthy (Some rel)) eqn:Et; cbn [negb].
    + destruct Hr as [Hr|Hr]; [discriminate|].
      apply andb_prop in Hr. destruct Hr as [-> ->]. cbn [negb].
      rewrite IH. reflexivity.
    + apply IH.
  - intros before bad after -> Hall Hb Hbad. revert i.
    induction Hall as [|rel before Hr _ IH]; intros i.
    + cbn [app parseRelated length]. rewrite Hb. cbn [negb].
      unfold isRelation in Hbad. rewrite Z.add_0_r.
      destruct (truthy (property bad (str "id"))); cbn [negb andb] in *;
        [rewrite Hbad|]; reflexivity.
    + cbn [app parseRelated length]. unfold isRelation in Hr.
      replace (i + Z.of_nat (S (length before)))%Z
        with (i + 1 + Z.of_nat (length before))%Z by lia.
      destruct (truthy (Some rel)) eqn:Et; cbn [negb].
      * destruct Hr as [Hr|Hr]; [discriminate|].
        apply andb_prop in Hr. destruct Hr as [-> ->]. cbn [negb].
        rewrite IH. reflexivity.
      * apply IH.
Qed.

End RuleFacts.


Lemma string_lists_are_all_or_nothing_witness :
  listOfStrings (H := Reference.host)
    (Some (YSeq [YStr (str "selection"); @YNum Reference.host 1%Z]))
  = [].
Proof.
  exact (proj1 (@string_lists_are_all_or_nothing Reference.host
                  [YStr (str "selection"); @YNum Reference.host 1%Z]
                  (ex_intro _ (@YNum Reference.host 1%Z)
                     (conj (or_intror (or_introl eq_refl)) eq_refl)))).
Defined.


Lemma related_entries_witness :
  parseRelated (H := Reference.host) (str "t")
    [YMap [(str "id", YStr (str "1")); (str "type", YStr (str "derived"))];
     YNull;
     YMap [(str "type", YStr (str "similar"))]] 0
  = Throws
      (SigmaError
         (str "parse sigma rule " ++ [dquote] ++ str "t" ++ [dquote]
          ++ str ": related[" ++ str "2" ++ str "]: " ++ str "missing id")).
Proof.
  refine (proj2 (@related_entries Reference.host (str "t") _ 0%Z)
            [YMap [(str "id", YStr (str "1"));
                   (str "type", YStr (str "derived"))];
             YNull]
            (YMap [(str "type", YStr (str "similar"))]) [] eq_refl _ eq_refl
            eq_refl).
  constructor; [right; reflexivity|].
  constructor; [left; reflexivity|]. constructor.
Defined.


(** ** The order of the search identifiers *)

Lemma strlt_asym a : forall b, strlt a b = true -> strlt b a = false.
Proof.
  induction a as [|x a IH]; intros [|y b]; cbn [strlt]; try congruence.
  intros E. apply orb_prop in E.
  destruct (N.ltb_spec y x) as [Hyx|Hxy]; cbn [orb].
  - destruct E as [E|E]; [apply N.ltb_lt in E; lia|].
    apply andb_prop in E. destruct E as [E _]. apply N.eqb_eq in E. lia.
  - destruct (N.eqb_spec y x) as [->|Hne]; [|reflexivity]. cbn [andb].
    destruct E as [E|E]; [apply N.ltb_lt in E; lia|].
    apply andb_prop in E. destruct E as [_ E]. exact (IH b E).
Qed.

Lemma strlt_total a : forall b, strlt a b = false -> strlt b a = false -> a = b.
Proof.
  induction a as [|x a IH]; intros [|y b]; cbn [strlt]; try congruence.
  intros E1 E2. apply orb_false_elim in E1, E2.
  destruct E1 as [L1 E1], E2 as [L2 E2].
  apply N.ltb_ge in L1, L2. assert (x = y) by lia. subst y.
  rewrite N.eqb_refl in E1, E2. cbn [andb] in E1, E2.
  rewrite (IH b E1 E2). reflexivity.
Qed.

Lemma strlt_le_lt a : forall b c,
  strlt a b = false -> strlt a c = true -> strlt b c = true.
Proof.
  induction a as [|x a IH]; intros [|y b] [|z c]; cbn [strlt];
    try congruence.
  intros E1 E2. apply orb_false_elim in E1. destruct E1 as [L1 E1].
  apply N.ltb_ge in L1. apply orb_prop in E2.
  destruct (N.ltb_spec y z) as [|Hzy]; [reflexivity|]. cbn [orb].
  destruct E2 as [E2|E2].
  - apply N.ltb_lt in E2. lia.
  - apply andb_prop in E2. destruct E2 as [Exz E2]. apply N.eqb_eq in Exz.
    subst z. assert (x = y) by lia. subst y. rewrite N.eqb_refl in *.
    cbn [andb] in *. exact (IH b c E1 E2).
Qed.

Lemma insert_sorted_swap a b l :
  insert_sorted a (insert_sorted b l) = insert_sorted b (insert_sorted a l).
Proof.
  induction l as [|k l IH].
  - cbn [insert_sorted].
    destruct (strlt b a) eqn:Eba, (strlt a b) eqn:Eab; try reflexivity.
    + rewrite (strlt_asym _ _ Eba) in Eab. discriminate.
    + rewrite (strlt_total _ _ Eab Eba). reflexivity.
  - cbn [insert_sorted].
    destruct (strlt k a) eqn:Eka, (strlt k b) eqn:Ekb; cbn [insert_sorted];
      rewrite ?Eka, ?Ekb.
    + rewrite IH. reflexivity.
    + rewrite (strlt_le_lt _ _ _ Ekb Eka). reflexivity.
    + rewrite (strlt_le_lt _ _ _ Eka Ekb). reflexivity.
    + destruct (strlt b a) eqn:Eba, (strlt a b) eqn:Eab; try reflexivity.
      * rewrite (strlt_asym _ _ Eba) in Eab. discriminate.
      * rewrite (strlt_total _ _ Eab Eba). reflexivity.
Qed.

Lemma sort_permutation l l' : Permutation l l' -> sort l = sort l'.
Proof.
  unfold sort. induction 1 as [|x l l' _ IH|x y l|l l' l'' _ IH1 _ IH2].
  - reflexivity.
  - cbn [fold_right]. rewrite IH. reflexivity.
  - cbn [fold_right]. apply insert_sorted_swap.
  - rewrite IH1. exact IH2.
Qed.

Lemma filter_permutation {A} (f : A -> bool) l l' :
  Permutation l l' -> Permutation (filter f l) (filter f l').
Proof.
  induction 1 as [|x l l' _ IH|x y l|l l' l'' _ IH1 _ IH2].
  - constructor.
  - cbn [filter]. destruct (f x); [constructor|]; exact IH.
  - cbn [filter]. destruct (f x), (f y); try reflexivity. constructor.
  - exact (Permutation_trans IH1 IH2).
Qed.

Lemma lookup_In {V} (d : dict V) k v :
  lookup d k = Some v -> In (k, v) d.
Proof.
  induction d as [|[k' v'] d IH]; [discriminate|]. cbn [lookup].
  destruct (streq_spec k' k) as [->|_].
  - intros E. injection E as <-. left. reflexivity.
  - intros E. right. exact (IH E).
Qed.

Lemma lookup_None {V} (d : dict V) k :
  lookup d k = None -> ~ In k (map fst d).
Proof.
  induction d as [|[k' v'] d IH]; [intros _ []|]. cbn [lookup map fst].
  destruct (streq_spec k' k) as [->|Hne]; [discriminate|].
  intros E [Hk|Hin]; [congruence|exact (IH E Hin)].
Qed.

Lemma lookup_unique {V} (d : dict V) k v :
  NoDup (map fst d) -> In (k, v) d -> lookup d k = Some v.
Proof.
  induction d as [|[k' v'] d IH]; [intros _ []|]. cbn [map fst lookup].
  intros Hnd Hin. inversion Hnd as [|? ? Hk Hnd']; subst.
  destruct Hin as [E|Hin].
  - injection E as -> ->. rewrite streq_refl. reflexivity.
  - destruct (streq_spec k' k) as [->|_]; [|exact (IH Hnd' Hin)].
    destruct Hk. apply (in_map fst) in Hin. exact Hin.
Qed.

Lemma lookup_permutation {V} (d d' : dict V) k :
  Permutation d d' -> NoDup (map fst d) -> lookup d k = lookup d' k.
Proof.
  intros Hp Hnd.
  assert (Hnd' : NoDup (map fst d'))
    by (exact (Permutation_NoDup (Permutation_map fst Hp) Hnd)).
  destruct (lookup d k) as [v|] eqn:E.
  - symmetry. apply (lookup_unique d' k v Hnd').
    exact (Permutation_in _ Hp (lookup_In d k v E)).
  - destruct (lookup d' k) as [v'|] eqn:E'; [|reflexivity].
    destruct (lookup_None d k E).
    apply (Permutation_in _ (Permutation_sym (Permutation_map fst Hp))).
    exact (in_map fst _ _ (lookup_In d' k v' E')).
Qed.

Section OrderFacts.
Context {H : Host}.

Lemma parseIdentifiers_property block block' idKeys :
  (forall k, property block k = property block' k) ->
  forall ids,
    parseIdentifiers block idKeys ids = parseIdentifiers block' idKeys ids.
Proof.
  intros E. induction idKeys as [|id idKeys IH]; intros ids; [reflexivity|].
  cbn [parseIdentifiers]. rewrite E.
  destruct (property block' id); [|reflexivity].
  destruct (parseIdentifier id y); cbn [bind]; [apply IH|reflexivity..].
Qed.

(** The order in which a detection lists its keys does not count: two
    blocks with the same keys and values, the keys pairwise different,
    give the same result, tree or error. *)
Theorem identifier_order_is_irrelevant (entries entries' : list (jsstring * yaml)) :
  Permutation entries entries' ->
  NoDup (map fst entries) ->
  parseDetection (Some (YMap entries)) = parseDetection (Some (YMap entries')).
Proof.
  intros Hp Hnd. unfold parseDetection. cbn [truthy negb property keys].
  rewrite !(lookup_permutation entries entries' _ Hp Hnd).
  rewrite (sort_permutation _ _
             (filter_permutation _ _ _ (Permutation_map fst Hp))).
  rewrite (parseIdentifiers_property (YMap entries) (YMap entries') _
             (fun k => lookup_permutation entries entries' k Hp Hnd)).
  reflexivity.
Qed.

End OrderFacts.


Lemma identifier_order_is_irrelevant_witness :
  parseDetection (H := Reference.host)
    (Some (YMap [(str "b", YStr (str "y")); (str "a", YStr (str "x"));
                 (str "condition", YStr (str "1 of them"))]))
  = parseDetection (H := Reference.host)
      (Some (YMap [(str "a", YStr (str "x")); (str "b", YStr (str "y"));
                   (str "condition", YStr (str "1 of them"))])).
Proof.
  refine (@identifier_order_is_irrelevant Reference.host _ _ (perm_swap _ _ _) _).
  repeat constructor; cbn; intuition discriminate.
Defined.

(** ** Patterns tested before they are compiled *)

Section GroupFacts.
Import RegExp Patterns RegExpFacts.



End GroupFacts.

Section FailClosed.
Import RegExp Patterns RegExpFacts.
Context {H : Host}.










End FailClosed.

